(** * Stackification of a basic block (src/stackify.ts)

    A shallow embedding of [stackify]: the use counter (lines 30-38), the
    tree recoverer [recoverTree] with its driving loop (lines 43-84) and the
    stack emitter [visit] / [makeLocal] with its driving loop (lines 87-158),
    and the printing of the result with [treeToString] (lines 160-188),
    followed by the properties of the passes and of the printed text. *)

From Stdlib Require Import ZArith List Lia Bool Ascii.
From stdpp Require Import base option list sorting strings pretty gmap.

Local Open Scope Z_scope.

(** ** Data model *)

(** [type InsKind = 'Add' | 'LocalSet' | 'LocalGet'] *)
Inductive InsKind : Type := Add | LocalSet | LocalGet.

(** [interface Ins { kind; args }].  The arguments are integers: an
    argument [arg >= 0] is the index of an instruction of the block,
    [arg < 0] encodes the constant [~arg]. *)
Record Ins : Type := mkIns { kind : InsKind; args : list Z }.

(** [interface Tree { kind; children: (number | string | Tree)[] }].
    The only strings the code stores are the template [`tree${arg}`]: [CStr arg]
    stands for that string. *)
Inductive Tree : Type :=
| Node (tkind : InsKind) (children : list Child)
with Child : Type :=
| CNum (v : Z)
| CStr (arg : Z)
| CTree (t : Tree).

(** The lines of [wasmCode].  Every string the code builds is one of five
    templates (['i32.add'], [`get_local ${n}`], [`set_local ${n}`],
    [`tee_local ${n}`], [`i32.const ${n}`]) with an integer printed in decimal,
    so two of them are the same string exactly when they are the same [Op]. *)
Inductive Op : Type :=
| I32Add
| GetLocal (n : Z)
| SetLocal (n : Z)
| TeeLocal (n : Z)
| I32Const (n : Z).

(** The string an [Op] stands for. *)
Definition render (o : Op) : string :=
  match o with
  | I32Add => "i32.add"
  | GetLocal n => "get_local " +:+ pretty n
  | SetLocal n => "set_local " +:+ pretty n
  | TeeLocal n => "tee_local " +:+ pretty n
  | I32Const n => "i32.const " +:+ pretty n
  end.

(** The string [`tree${arg}`] a [CStr arg] stands for. *)
Definition tree_name (arg : Z) : string := "tree" +:+ pretty arg.

#[global] Instance InsKind_eq_dec : EqDecision InsKind.
Proof. solve_decision. Defined.

#[global] Instance Op_eq_dec : EqDecision Op.
Proof. solve_decision. Defined.

(** What a call can end in.  The code has no [throw]; the language raises
    an error in two places: the [RangeError] of [uses.push(0)] on an array
    that has [2^32 - 1] elements already (an array has no more), and the
    [TypeError] of reading [.args] / [.kind] of [undefined] when
    [block[index]] is out of range.  [OutOfFuel] belongs to the embedding: the
    recursive calls are bounded by a fuel argument.  The call stack is as
    deep as the recursion needs, and numbers are integers (no rounding above
    [2^53]). *)
Inductive outcome (A : Type) : Type :=
| Ok (a : A)
| TypeError
| RangeError
| OutOfFuel.
Arguments Ok {A} a.
Arguments TypeError {A}.
Arguments RangeError {A}.
Arguments OutOfFuel {A}.

#[global] Instance outcome_ret : MRet outcome := fun A a => Ok a.

#[global] Instance outcome_bind : MBind outcome := fun A B f m =>
  match m with
  | Ok a => f a
  | TypeError => TypeError
  | RangeError => RangeError
  | OutOfFuel => OutOfFuel
  end.

#[global] Instance outcome_fmap : FMap outcome := fun A B f m =>
  match m with
  | Ok a => Ok (f a)
  | TypeError => TypeError
  | RangeError => RangeError
  | OutOfFuel => OutOfFuel
  end.

Definition is_error {A} (m : outcome A) : bool :=
  match m with Ok _ => false | _ => true end.

(** ** JavaScript arithmetic used by the code *)

(** [ToInt32]: reduction modulo [2^32] into the signed 32-bit range. *)
Definition toInt32 (a : Z) : Z := (a + 2 ^ 31) mod 2 ^ 32 - 2 ^ 31.

(** [~a] on a number: complement of its [ToInt32] value. *)
Definition bitnot (a : Z) : Z := Z.lnot (toInt32 a).

(** [block[index]] *)
Definition block_at (block : list Ins) (index : Z) : option Ins :=
  if index <? 0 then None else block !! Z.to_nat index.

(** ** Use counter (lines 30-38) *)

(** An element of the JavaScript array [uses]: a hole left by a write past the
    end, [NaN] (the result of [undefined++]), or a number. *)
Inductive cell : Type := Hole | NaN | Num (n : Z).

(** The greatest length of a JavaScript array: its indices are the integers
    from [0] to [2^32 - 2]. *)
Definition array_max : Z := 2 ^ 32 - 1.

(** [uses[arg]++] for [arg >= 0].  Inside the array a number is incremented
    and anything else becomes [NaN]; past the end the array grows with holes
    up to [arg], which receives [NaN].  An [arg] from [2^32 - 1] on is no
    array index: the statement then writes a property of the array object,
    which holds [NaN] from then on (so [uses[arg] === 1] is false of it), and
    leaves the elements and the length as they are. *)
Definition uses_incr (uses : list cell) (arg : Z) : list cell :=
  if arg <? array_max then
    let i := Z.to_nat arg in
    match uses !! i with
    | Some (Num n) => <[i := Num (n + 1)]> uses
    | Some _ => <[i := NaN]> uses
    | None => uses ++ replicate (i - length uses)%nat Hole ++ [NaN]
    end
  else uses.

(** The inner loop [for (const arg of ins.args) if (arg >= 0) uses[arg]++]. *)
Definition count_args (uses : list cell) (args : list Z) : list cell :=
  fold_left (fun u arg => if 0 <=? arg then uses_incr u arg else u) args uses.

(** [uses.push(0)].  On an array of [2^32 - 1] elements the new length is no
    array length and the call raises a [RangeError]. *)
Definition uses_push (uses : list cell) : outcome (list cell) :=
  if Z.of_nat (length uses) <? array_max then Ok (uses ++ [Num 0])
  else RangeError.

(** One iteration of the outer loop: [uses.push(0)], then the inner loop. *)
Definition count_ins (uses : list cell) (ins : Ins) : outcome (list cell) :=
  uses' ← uses_push uses;
  Ok (count_args uses' (args ins)).

(** The outer loop [for (const ins of block)] from the array [uses]. *)
Fixpoint count_loop (block : list Ins) (uses : list cell)
    : outcome (list cell) :=
  match block with
  | [] => Ok uses
  | ins :: block' =>
      uses' ← count_ins uses ins;
      count_loop block' uses'
  end.

Definition count_uses (block : list Ins) : outcome (list cell) :=
  count_loop block [].

(** [uses[arg] === 1] *)
Definition uses_one (uses : list cell) (arg : Z) : bool :=
  match uses !! Z.to_nat arg with
  | Some (Num 1) => true
  | _ => false
  end.

(** ** Tree recoverer (lines 43-84) *)

(** The state the closure [recoverTree] works on: the cursor [index].
    [rcalls] is a ghost field the source does not have: the value of [index]
    at the entry of every call so far, latest first.  Nothing reads it. *)
Record RecState : Type := mkRec { rindex : Z; rcalls : list Z }.

Definition rec_enter (st : RecState) : RecState :=
  {| rindex := rindex st; rcalls := rindex st :: rcalls st |}.

(** [index--] *)
Definition rec_dec (st : RecState) : RecState :=
  {| rindex := rindex st - 1; rcalls := rcalls st |}.

Section Recover.
Variable block : list Ins.
Variable uses : list cell.

(** The loop [for (let j = ins.args.length - 1; j >= 0; j--)] of lines
    50-74, over the arguments still to be examined, rightmost first.
    [self] is the recursive call [recoverTree()]. *)
Fixpoint recover_args (self : RecState -> outcome (Tree * bool * RecState))
    (rargs : list Z) (children : list Child) (stopped : bool)
    (st : RecState) : outcome (list Child * bool * RecState) :=
  match rargs with
  | [] => Ok (children, stopped, st)
  | arg :: rest =>
      if arg <? 0 then
        recover_args self rest (CNum (bitnot arg) :: children) stopped st
      else if uses_one uses arg && (arg =? rindex st - 1) && negb stopped then
        '(childTree, childStopped, st') ← self (rec_dec st);
        recover_args self rest (CTree childTree :: children)
          (if childStopped : bool then true else stopped) st'
      else
        recover_args self rest (CStr arg :: children) true st
  end.

(** [function recoverTree(): [Tree, boolean]] *)
Fixpoint recoverTree (fuel : nat) (st : RecState)
    : outcome (Tree * bool * RecState) :=
  match fuel with
  | O => OutOfFuel
  | S fuel' =>
      match block_at block (rindex st) with
      | None => TypeError
      | Some ins =>
          '(children, stopped, st') ←
            recover_args (recoverTree fuel') (rev (args ins)) [] false
              (rec_enter st);
          Ok (Node (kind ins) children, stopped, st')
      end
  end.

(** The loop of lines 79-83.  The pair pushed on [trees] holds the value
    [index] has before [recoverTree] runs. *)
Fixpoint recover_loop (fuel : nat) (st : RecState)
    (trees : list (Z * Tree)) : outcome (list (Z * Tree) * RecState) :=
  if 0 <? rindex st then
    match fuel with
    | O => OutOfFuel
    | S fuel' =>
        let st1 := rec_dec st in
        '(tree, _, st2) ← recoverTree (S fuel') st1;
        recover_loop fuel' st2 ((rindex st1, tree) :: trees)
    end
  else Ok (trees, st).

Definition recover_trees : outcome (list (Z * Tree) * RecState) :=
  recover_loop (length block)
    {| rindex := Z.of_nat (length block); rcalls := [] |} [].
End Recover.

(** ** Stack emitter (lines 87-158) *)

(** The variables the closures [visit] and [makeLocal] share: the cursor
    [index], [wasmCode], the map [locals] and the counter [nextLocal].
    [calls] is a ghost field as in [RecState]. *)
Record EmitState : Type := mkEmit {
  eindex : Z;
  wasmCode : list Op;
  locals : gmap Z Z;
  nextLocal : Z;
  calls : list Z
}.

(** [wasmCode.unshift(op)] *)
Definition unshift (op : Op) (st : EmitState) : EmitState :=
  {| eindex := eindex st; wasmCode := op :: wasmCode st;
     locals := locals st; nextLocal := nextLocal st; calls := calls st |}.

(** [index--] *)
Definition emit_dec (st : EmitState) : EmitState :=
  {| eindex := eindex st - 1; wasmCode := wasmCode st;
     locals := locals st; nextLocal := nextLocal st; calls := calls st |}.

Definition emit_enter (st : EmitState) : EmitState :=
  {| eindex := eindex st; wasmCode := wasmCode st;
     locals := locals st; nextLocal := nextLocal st;
     calls := eindex st :: calls st |}.

(** [function makeLocal(index: number): number] *)
Definition makeLocal (arg : Z) (st : EmitState) : Z * EmitState :=
  match locals st !! arg with
  | Some local => (local, st)
  | None =>
      (nextLocal st,
       {| eindex := eindex st; wasmCode := wasmCode st;
          locals := <[arg := nextLocal st]> (locals st);
          nextLocal := nextLocal st + 1; calls := calls st |})
  end.

(** [~ins.args[0]]; on an empty [args] this is [~undefined], that is [-1]. *)
Definition first_arg_not (ins : Ins) : Z :=
  match args ins with
  | [] => -1
  | a :: _ => bitnot a
  end.

(** The [switch (ins.kind)] of lines 94-108: the operation of the instruction
    itself and the bound [lower] of the argument loop. *)
Definition own_op (ins : Ins) : Op * nat :=
  match kind ins with
  | Add => (I32Add, 0%nat)
  | LocalGet => (GetLocal (first_arg_not ins), 1%nat)
  | LocalSet => (SetLocal (first_arg_not ins), 1%nat)
  end.

Section Emit.
Variable block : list Ins.
Variable uses : list cell.

(** The loop [for (let j = ins.args.length - 1; j >= lower; j--)] of lines
    110-131, over the arguments still to be examined, rightmost first. *)
Fixpoint visit_args (self : EmitState -> outcome EmitState)
    (rargs : list Z) (st : EmitState) : outcome EmitState :=
  match rargs with
  | [] => Ok st
  | arg :: rest =>
      if arg <? 0 then
        visit_args self rest (unshift (I32Const (bitnot arg)) st)
      else if uses_one uses arg && (arg =? eindex st - 1) then
        st' ← self (emit_dec st);
        visit_args self rest st'
      else
        let '(local, st') := makeLocal arg st in
        visit_args self rest (unshift (GetLocal local) st')
  end.

(** [function visit(): void].  The variable [stopped] of line 91 is never
    read or written again and has no counterpart here. *)
Fixpoint visit (fuel : nat) (st : EmitState) : outcome EmitState :=
  match fuel with
  | O => OutOfFuel
  | S fuel' =>
      match block_at block (eindex st) with
      | None => TypeError
      | Some ins =>
          let '(op, lower) := own_op ins in
          visit_args (visit fuel') (rev (drop lower (args ins)))
            (unshift op (emit_enter st))
      end
  end.

(** Lines 148-155: the store for a position that already has a local. *)
Definition store_local (st : EmitState) : EmitState :=
  match locals st !! eindex st with
  | None => st
  | Some local =>
      match wasmCode st with
      | op :: code =>
          if decide (op = GetLocal local)
          then {| eindex := eindex st; wasmCode := TeeLocal local :: code;
                  locals := locals st; nextLocal := nextLocal st;
                  calls := calls st |}
          else unshift (SetLocal local) st
      | [] => unshift (SetLocal local) st
      end
  end.

(** The loop of lines 146-157. *)
Fixpoint emit_loop (fuel : nat) (st : EmitState) : outcome EmitState :=
  if 0 <? eindex st then
    match fuel with
    | O => OutOfFuel
    | S fuel' =>
        st' ← visit (S fuel') (store_local (emit_dec st));
        emit_loop fuel' st'
    end
  else Ok st.

Definition emit_init : EmitState :=
  {| eindex := Z.of_nat (length block); wasmCode := [];
     locals := ∅; nextLocal := 100; calls := [] |}.

Definition emit_code : outcome EmitState :=
  emit_loop (length block) emit_init.
End Emit.

(** ** The transform *)

(** What [stackify] computes before it prints: [uses], [trees], [wasmCode],
    and the final [locals] of the emitter. *)
Record Stackified : Type := mkStackified {
  s_uses : list cell;
  s_trees : list (Z * Tree);
  s_code : list Op;
  s_locals : gmap Z Z
}.

Definition stackify (block : list Ins) : outcome Stackified :=
  uses ← count_uses block;
  '(trees, _) ← recover_trees block uses;
  st ← emit_code block uses;
  Ok {| s_uses := uses; s_trees := trees;
        s_code := wasmCode st; s_locals := locals st |}.

(** The three blocks the source file runs [stackify] on (lines 190-214). *)
Definition demo1 : list Ins :=
  [ mkIns LocalGet [bitnot 0]; mkIns Add [0; bitnot 1];
    mkIns Add [bitnot 2; bitnot 3]; mkIns Add [1; 2];
    mkIns LocalSet [bitnot 0; 3] ].

Definition demo2 : list Ins :=
  [ mkIns LocalGet [bitnot 0]; mkIns Add [0; bitnot 1];
    mkIns Add [0; bitnot 2]; mkIns Add [1; 2];
    mkIns LocalSet [bitnot 0; 3] ].

Definition demo3 : list Ins :=
  [ mkIns LocalGet [bitnot 0]; mkIns Add [0; bitnot 1];
    mkIns Add [bitnot 2; bitnot 3]; mkIns Add [1; 2];
    mkIns LocalSet [bitnot 0; 3]; mkIns Add [3; bitnot 4];
    mkIns LocalSet [bitnot 1; 5] ].

(** ** Printing (lines 160-188)

    Numbers are printed in decimal ([pretty]), as JavaScript prints an
    integer below [2^53]. *)

(** The line break ['\n']. *)
Definition newline : string := String "010"%char "".

(** An [InsKind] is its name. *)
Definition kind_name (k : InsKind) : string :=
  match k with
  | Add => "Add"
  | LocalSet => "LocalSet"
  | LocalGet => "LocalGet"
  end.

(** [Array.prototype.join] on an array of strings. *)
Fixpoint join (sep : string) (l : list string) : string :=
  match l with
  | [] => ""
  | s :: l' =>
      match l' with
      | [] => s
      | _ :: _ => s +:+ sep +:+ join sep l'
      end
  end.

(** [function treeToString(tree: Tree, indent: string): string].  [strs]
    is what the function given to [map] returns for each child before the
    line break and the indentation are put in front of it. *)
Fixpoint treeToString (tree : Tree) (indent : string) : string :=
  match tree with
  | Node k children =>
      let strs (ind : string) : list string :=
        (fix go (cs : list Child) : list string :=
           match cs with
           | [] => []
           | c :: cs' =>
               match c with
               | CNum v => pretty v
               | CStr arg => tree_name arg
               | CTree t => treeToString t ind
               end :: go cs'
           end) children in
      if (length children <? 2)%nat then
        kind_name k +:+ "(" +:+ join "" (strs indent) +:+ ")"
      else
        let indent' := indent +:+ "  " in
        kind_name k +:+ "(" +:+
        join "," (map (fun s => newline +:+ indent' +:+ s) (strs indent')) +:+
        ")"
  end.

(** What a child is printed as: [typeof c === 'number' || typeof c ===
    'string' ? c : treeToString(c, indent)]. *)
Definition childToString (c : Child) (indent : string) : string :=
  match c with
  | CNum v => pretty v
  | CStr arg => tree_name arg
  | CTree t => treeToString t indent
  end.

(** An index as a template or [join] prints it: in decimal when it is below
    [2^53], where every integer is a Number of its own and JavaScript prints
    all its digits.  Beyond, JavaScript prints the shortest digits that tell
    the Number from its neighbours, and an exponent from [10^21] on; the
    embedding has no string for that. *)
Definition show_index (a : Z) : option string :=
  if a <? 2 ^ 53 then Some (pretty a) else None.

(** [a >= 0 ? `var${a}` : ~a], as [join] prints it.  The complement is a
    number of 32 bits and is printed in decimal. *)
Definition show_arg (a : Z) : option string :=
  if 0 <=? a then
    s ← show_index a;
    Some ("var" +:+ s)
  else Some (pretty (bitnot a)).

(** The arguments of the call of [console.log] of lines 161-163. *)
Definition show_ins (i : nat) (ins : Ins) : option (list string) :=
  strs ← mapM show_arg (args ins);
  Some [ "var" +:+ pretty i +:+ " ="; kind_name (kind ins); join ", " strs ].

(** The calls of [console.log] of the loop of lines 160-164, the first for
    the instruction of index [i]. *)
Fixpoint show_block (i : nat) (block : list Ins)
    : option (list (list string)) :=
  match block with
  | [] => Some []
  | ins :: block' =>
      l ← show_ins i ins;
      ls ← show_block (S i) block';
      Some (l :: ls)
  end.

(** The arguments of the call of line 167. *)
Definition show_tree (p : Z * Tree) : list string :=
  [ tree_name p.1 +:+ " ="; treeToString p.2 "" ].

(** The strings of lines 165 and 169, and of line 173. *)
Definition becomes : string := newline +:+ "-- becomes --" +:+ newline.

Definition rule : string :=
  newline +:+
  "-------------------------------------------------------------" +:+
  newline.

(** What [stackify] prints (lines 160-173): the calls of [console.log] in
    order, each with its arguments.  Nothing is printed when the use counter
    raises; and the embedding has no text ([None]) for a block with an index
    from [2^53] on. *)
Definition stackify_log (block : list Ins)
    : outcome (option (list (list string))) :=
  r ← stackify block;
  Ok (ls ← show_block 0 block;
      Some (ls ++ [[becomes]] ++
            map show_tree (s_trees r) ++ [[becomes]] ++
            map (fun o => [render o]) (s_code r) ++ [[rule]])).

(** ** Reference statements used by the properties *)

(** The number of elements of [l] equal to [k]: for [k >= 0], the number of
    [Ref(k)] operands in an argument list. *)
Fixpoint refs_in (k : Z) (l : list Z) : Z :=
  match l with
  | [] => 0
  | a :: l' => (if a =? k then 1 else 0) + refs_in k l'
  end.

(** The number of [Ref(k)] operands across all instructions of a block. *)
Fixpoint ref_count (k : Z) (block : list Ins) : Z :=
  match block with
  | [] => 0
  | ins :: rest => refs_in k (args ins) + ref_count k rest
  end.

(** Every argument of the instruction at position [i + n] of [block] is below
    [i + n + off]. *)
Fixpoint refs_below (off i : Z) (block : list Ins) : bool :=
  match block with
  | [] => true
  | ins :: rest =>
      forallb (fun arg => arg <? i + off) (args ins) && refs_below off (i + 1) rest
  end.

(** Every reference is strictly backward: an argument of the instruction at
    position [i] is a constant or an index below [i]. *)
Definition strictly_backward (block : list Ins) : bool := refs_below 0 0 block.

(** No reference is forward: an argument of the instruction at position [i]
    is a constant or an index at most [i]. *)
Definition no_forward (block : list Ins) : bool := refs_below 1 0 block.

(** Some operand names an instruction at or after its own position, or out of
    range: the input the spec calls an invalid reference. *)
Definition has_invalid_reference (block : list Ins) : bool :=
  negb (strictly_backward block).

(** The table the use counter leaves when it returns (no cell when it
    raises): the array [uses] the two passes read. *)
Definition use_table (block : list Ins) : list cell :=
  match count_uses block with
  | Ok uses => uses
  | _ => []
  end.

(** The number of instructions folded into a tree: its nodes. *)
Fixpoint tree_size (t : Tree) : nat :=
  match t with
  | Node _ children =>
      S ((fix go (cs : list Child) : nat :=
            match cs with
            | [] => 0%nat
            | c :: cs' =>
                (match c with CTree t' => tree_size t' | _ => 0 end + go cs')%nat
            end) children)
  end.

Definition child_size (c : Child) : nat :=
  match c with CTree t => tree_size t | _ => 0%nat end.

Definition children_size (cs : list Child) : nat :=
  foldr (fun c n => (child_size c + n)%nat) 0%nat cs.

(** A back-reference leaf occurs in the tree, at any depth. *)
Fixpoint tree_has_str (t : Tree) : bool :=
  match t with
  | Node _ children =>
      (fix go (cs : list Child) : bool :=
         match cs with
         | [] => false
         | c :: cs' =>
             match c with
             | CTree t' => tree_has_str t'
             | CStr _ => true
             | CNum _ => false
             end || go cs'
         end) children
  end.

Definition child_has_str (c : Child) : bool :=
  match c with
  | CTree t => tree_has_str t
  | CStr _ => true
  | CNum _ => false
  end.

Definition is_tree (c : Child) : bool :=
  match c with CTree _ => true | _ => false end.

Section Positions.
Variable block : list Ins.

(** The instruction positions a tree stands for when its root is the
    instruction at position [i]: [i] itself and, for every child that is a
    nested tree, the positions of that tree rooted at the operand it
    replaces (the argument of instruction [i] at the child's place). *)
Fixpoint tree_positions (i : Z) (t : Tree) {struct t} : list Z :=
  match t with
  | Node _ children =>
      i :: (fix go (cs : list Child) (l : list Z) {struct cs} : list Z :=
              match cs, l with
              | c :: cs', a :: l' =>
                  match c with
                  | CTree t' => tree_positions a t'
                  | _ => []
                  end ++ go cs' l'
              | _, _ => []
              end) children
             (match block_at block i with
              | Some ins => args ins
              | None => []
              end)
  end.

Definition child_positions (a : Z) (c : Child) : list Z :=
  match c with CTree t => tree_positions a t | _ => [] end.

Fixpoint children_positions (l : list Z) (cs : list Child) : list Z :=
  match cs, l with
  | c :: cs', a :: l' => child_positions a c ++ children_positions l' cs'
  | _, _ => []
  end.

(** All positions of a forest. *)
Definition forest_positions (trees : list (Z * Tree)) : list Z :=
  trees ≫= (fun p => tree_positions p.1 p.2).
End Positions.

(** A child stands for an operand: the number [~arg] for a constant, and for
    a reference the back-reference naming [arg] or a tree that [rep]resents
    instruction [arg]. *)
Inductive child_of (rep : Z -> Tree -> Prop) : Z -> Child -> Prop :=
| child_const arg : arg < 0 -> child_of rep arg (CNum (bitnot arg))
| child_back arg : 0 <= arg -> child_of rep arg (CStr arg)
| child_tree arg t : 0 <= arg -> rep arg t -> child_of rep arg (CTree t).

(** A tree represents the instruction at position [i]: it has its kind and
    one child for each of its operands, in order. *)
#[local] Unset Elimination Schemes.
Inductive represents (block : list Ins) : Z -> Tree -> Prop :=
| represents_node i ins children :
    block_at block i = Some ins ->
    Forall2 (child_of (represents block)) (args ins) children ->
    represents block i (Node (kind ins) children).
#[local] Set Elimination Schemes.

(** The instructions at the positions from [lo] up to, not including, [hi]. *)
Definition slice (block : list Ins) (lo hi : Z) : list Ins :=
  take (Z.to_nat (hi - lo)) (drop (Z.to_nat lo) block).

(** The arguments [visit] runs its loop over: all of them for [Add], all but
    the first for [LocalGet] and [LocalSet]. *)
Definition emitted_args (ins : Ins) : list Z :=
  drop (own_op ins).2 (args ins).

(** The number of [Const(v)] operands in an argument list: the negative
    arguments whose complement is [v]. *)
Fixpoint consts_in (v : Z) (l : list Z) : Z :=
  match l with
  | [] => 0
  | a :: l' => (if (a <? 0) && (bitnot a =? v) then 1 else 0) + consts_in v l'
  end.

(** The number of [Const(v)] operands among the arguments [visit] runs its
    loop over, in a list of instructions. *)
Fixpoint const_operands (v : Z) (b : list Ins) : Z :=
  match b with
  | [] => 0
  | ins :: rest => consts_in v (emitted_args ins) + const_operands v rest
  end.

(** The number of [Ref(k)] operands among the arguments [visit] runs its
    loop over, in a list of instructions. *)
Fixpoint ref_operands (k : Z) (b : list Ins) : Z :=
  match b with
  | [] => 0
  | ins :: rest => refs_in k (emitted_args ins) + ref_operands k rest
  end.

(** The number of occurrences of an operation in a sequence. *)
Fixpoint count_op (o : Op) (code : list Op) : Z :=
  match code with
  | [] => 0
  | o' :: code' => (if decide (o' = o) then 1 else 0) + count_op o code'
  end.

(** ** Statements about the two recursive passes *)

(** The positions from [lo] up to, not including, [hi]. *)
Definition seq_range (lo hi : Z) : list Z := seqZ lo (hi - lo).

(** The condition of line 60. *)
Definition inline_ok (uses : list cell) (arg : Z) (st : RecState)
    (stopped : bool) : bool :=
  uses_one uses arg && (arg =? rindex st - 1) && negb stopped.

(** What a call leaves behind: the cursor only moves down; the calls made
    are one per position passed, in decreasing order; the tree has one node
    per position passed; the flag returned tells whether the tree holds a
    back-reference; and the positions of the tree are those passed. *)
Definition rec_post (block : list Ins) (st : RecState) (t : Tree) (s : bool)
    (st' : RecState) : Prop :=
  0 <= rindex st' <= rindex st /\
  rcalls st' = seq_range (rindex st') (rindex st + 1) ++ rcalls st /\
  Z.of_nat (tree_size t) = rindex st - rindex st' + 1 /\
  s = tree_has_str t /\
  tree_positions block (rindex st) t ≡ₚ seq_range (rindex st') (rindex st + 1).

Definition rec_args_post (block : list Ins) (rargs : list Z) (c : list Child)
    (s : bool) (st : RecState) (c' : list Child) (s' : bool)
    (st' : RecState) : Prop :=
  rindex st' <= rindex st /\ (0 <= rindex st -> 0 <= rindex st') /\
  rcalls st' = seq_range (rindex st') (rindex st) ++ rcalls st /\
  exists new,
    c' = new ++ c /\ length new = length rargs /\
    Z.of_nat (children_size new) = rindex st - rindex st' /\
    s' = s || existsb child_has_str new /\
    children_positions block (rev rargs) new ≡ₚ
      seq_range (rindex st') (rindex st).

(** The slot table draws its numbers from the counter: the slots handed out
    are exactly the numbers from [base] up to the counter, each to one key. *)
Definition slots_from (base : Z) (st : EmitState) : Prop :=
  base <= nextLocal st /\
  (forall k s, locals st !! k = Some s -> base <= s < nextLocal st) /\
  (forall s, base <= s < nextLocal st -> exists k, locals st !! k = Some s) /\
  (forall k1 k2 s,
      locals st !! k1 = Some s -> locals st !! k2 = Some s -> k1 = k2).

(** The condition of line 120. *)
Definition in_place (uses : list cell) (arg : Z) (st : EmitState) : bool :=
  uses_one uses arg && (arg =? eindex st - 1).

(** What a call leaves behind: the cursor only moves down; the calls made
    are one per position passed, in decreasing order; operations are only
    put in front of [wasmCode], at least one; the slot table keeps every
    entry it had; and slots stay drawn from the counter. *)
Definition visit_post (st st' : EmitState) : Prop :=
  0 <= eindex st' <= eindex st /\
  calls st' = seq_range (eindex st') (eindex st + 1) ++ calls st /\
  (exists ops, wasmCode st' = ops ++ wasmCode st /\ ops <> []) /\
  locals st ⊆ locals st' /\
  nextLocal st <= nextLocal st' /\
  (forall base, slots_from base st -> slots_from base st').

Definition visit_args_post (rargs : list Z) (st st' : EmitState) : Prop :=
  eindex st' <= eindex st /\ (0 <= eindex st -> 0 <= eindex st') /\
  calls st' = seq_range (eindex st') (eindex st) ++ calls st /\
  (exists ops, wasmCode st' = ops ++ wasmCode st) /\
  locals st ⊆ locals st' /\
  nextLocal st <= nextLocal st' /\
  (forall base, slots_from base st -> slots_from base st').

(** One iteration of the loop of lines 146-157: the cursor is above 0, the
    store for the next position is placed, and [visit] runs from there. *)
Definition loop_step (block : list Ins) (uses : list cell)
    (st st1 : EmitState) : Prop :=
  0 < eindex st /\
  exists fuel, visit block uses fuel (store_local (emit_dec st)) = Ok st1.

(** [c'] is [c], or [c] with the load at its head turned into a tee. *)
Definition fused (c c' : list Op) : Prop :=
  c' = c \/ exists l tl, c = GetLocal l :: tl /\ c' = TeeLocal l :: tl.

(** 1 when [k] has no slot in [st] and has one in [st'], else 0. *)
Definition new_slot (st st' : EmitState) (k : Z) : Z :=
  match locals st !! k, locals st' !! k with
  | None, Some _ => 1
  | _, _ => 0
  end.

(** 1 when [k] has a slot in [st], else 0. *)
Definition has_slot (st : EmitState) (k : Z) : Z :=
  match locals st !! k with
  | Some _ => 1
  | None => 0
  end.

(** 1 when [lo <= k < hi], else 0. *)
Definition within (lo hi k : Z) : Z :=
  if (lo <=? k) && (k <? hi) then 1 else 0.

(** The iteration from [st] to [st1] is one of the run of the loop that
    comes to [est]. *)
Definition iteration (block : list Ins) (uses : list cell)
    (est st st1 : EmitState) : Prop :=
  rtc (loop_step block uses) (emit_init block) st /\
  loop_step block uses st st1 /\
  rtc (loop_step block uses) st1 est.

(** The loop has been through the iteration for position [k] on its way to
    [st], and [k] had its slot when that iteration began. *)
Definition store_placed (block : list Ins) (uses : list cell) (k : Z)
    (st : EmitState) : Prop :=
  exists stk st1,
    iteration block uses st stk st1 /\
    eindex stk = k + 1 /\ is_Some (locals stk !! k).

(** What holds of the slot table between the iterations of the loop, on a
    block whose references are strictly backward: every key is the target of
    a reference of an instruction already passed, and it is still below the
    cursor or the iteration for it found its slot assigned. *)
Definition loop_inv (block : list Ins) (uses : list cell) (st : EmitState)
    : Prop :=
  0 <= eindex st <= Z.of_nat (length block) /\
  forall k, is_Some (locals st !! k) ->
    0 <= k /\
    1 <= ref_operands k (slice block (eindex st) (Z.of_nat (length block))) /\
    (k < eindex st \/ store_placed block uses k st).

(** All arguments of a block, in the order the use counter meets them. *)
Definition all_args (block : list Ins) : list Z := block ≫= args.

(** What holds of [uses] while the counter runs, [done] being the arguments
    met so far: a cell that holds a number holds the number of references to
    its index, no reference has been made to an array index past the end,
    and the array is no longer than an array can be. *)
Definition uses_inv (uses : list cell) (done : list Z) : Prop :=
  (forall (k : nat) n,
      uses !! k = Some (Num n) -> n = refs_in (Z.of_nat k) done) /\
  (forall k : nat,
      (length uses <= k)%nat -> Z.of_nat k < array_max ->
      refs_in (Z.of_nat k) done = 0) /\
  Z.of_nat (length uses) <= array_max.

(** Two outcomes agree up to a relation on their results. *)
Definition agree {A} (R : A -> A -> Prop) (m1 m2 : outcome A) : Prop :=
  match m1, m2 with
  | Ok a, Ok b => R a b
  | TypeError, TypeError => True
  | RangeError, RangeError => True
  | OutOfFuel, OutOfFuel => True
  | _, _ => False
  end.

(** Two emitter states with the same variables of the source, whatever
    their ghost field. *)
Definition same_emit (st1 st2 : EmitState) : Prop :=
  eindex st1 = eindex st2 /\ wasmCode st1 = wasmCode st2 /\
  locals st1 = locals st2 /\ nextLocal st1 = nextLocal st2.

(** ** Statements about the forest, the operation sequence and the text *)

(** The number of back-reference leaves naming instruction [k] in a tree, at
    any depth. *)
Fixpoint tree_strs (k : Z) (t : Tree) : Z :=
  match t with
  | Node _ children =>
      (fix go (cs : list Child) : Z :=
         match cs with
         | [] => 0
         | c :: cs' =>
             match c with
             | CTree t' => tree_strs k t'
             | CStr a => if a =? k then 1 else 0
             | CNum _ => 0
             end + go cs'
         end) children
  end.

Definition child_strs (k : Z) (c : Child) : Z :=
  match c with
  | CTree t => tree_strs k t
  | CStr a => if a =? k then 1 else 0
  | CNum _ => 0
  end.

Definition children_strs (k : Z) (cs : list Child) : Z :=
  foldr (fun c n => child_strs k c + n) 0 cs.

(** The number of back-reference leaves naming [k] in a forest. *)
Definition forest_strs (k : Z) (trees : list (Z * Tree)) : Z :=
  foldr (fun p n => tree_strs k p.2 + n) 0 trees.

(** The number of trees of a forest whose root is [k]. *)
Definition root_count (k : Z) (trees : list (Z * Tree)) : Z :=
  foldr (fun p n => (if p.1 =? k then 1 else 0) + n) 0 trees.

(** The number of instructions of a kind in a list of instructions. *)
Fixpoint kind_count (kd : InsKind) (b : list Ins) : Z :=
  match b with
  | [] => 0
  | ins :: rest =>
      (if decide (kind ins = kd) then 1 else 0) + kind_count kd rest
  end.

(** The number of instructions whose own operation is [o]. *)
Fixpoint own_ops (o : Op) (b : list Ins) : Z :=
  match b with
  | [] => 0
  | ins :: rest =>
      (if decide ((own_op ins).1 = o) then 1 else 0) + own_ops o rest
  end.

(** The operations that read local [s]: [get_local s] and [tee_local s]. *)
Definition loads (s : Z) (code : list Op) : Z :=
  count_op (GetLocal s) code + count_op (TeeLocal s) code.

(** The operations that write local [s]: [set_local s] and [tee_local s]. *)
Definition stores (s : Z) (code : list Op) : Z :=
  count_op (SetLocal s) code + count_op (TeeLocal s) code.

(** The first argument of a [LocalGet] or [LocalSet], the number of its
    local, is a constant. *)
Definition local_is_const (ins : Ins) : bool :=
  match kind ins, args ins with
  | Add, _ => true
  | _, a :: _ => a <? 0
  | _, [] => true
  end.

Definition locals_const (block : list Ins) : bool :=
  forallb local_is_const block.

(** Every character is a decimal digit. *)
Fixpoint all_digits (s : string) : bool :=
  match s with
  | "" => true
  | String a s' => bool_decide (is_Some (Ascii.is_nat a)) && all_digits s'
  end.

(** What may follow a number: the end of the string or a character that is
    not a digit. *)
Definition ends_number (r : string) : Prop :=
  match r with
  | "" => True
  | String a _ => Ascii.is_nat a = None
  end.

(** What may follow a child: the [")"] of its parent or the [","] before
    the next child. *)
Definition delimited (r : string) : Prop :=
  match r with
  | "" => False
  | String a _ => a = ")"%char \/ a = ","%char
  end.

(** The strings of the children of a node with two children or more. *)
Definition line (indent : string) (c : Child) : string :=
  newline +:+ indent +:+ childToString c indent.

(** The constants of a block are numbers of 32 bits: no argument is below
    [-2^31]. *)
Definition int32_consts (block : list Ins) : Prop :=
  Forall (fun ins => Forall (fun a => - 2 ^ 31 <= a) (args ins)) block.

(** No character of the string is a line break. *)
Fixpoint no_break (s : string) : bool :=
  match s with
  | "" => true
  | String a s' => negb (Ascii.eqb a "010") && no_break s'
  end.

(** Every line break of [s] is followed by [ind]. *)
Fixpoint breaks_followed (ind s : string) : Prop :=
  match s with
  | "" => True
  | String a s' =>
      (a = "010"%char -> exists t, s' = ind +:+ t) /\ breaks_followed ind s'
  end.

Section Postorder.
Variable block : list Ins.

(** The instruction positions of a tree in the order a stack machine
    evaluates it: the trees among the children from left to right, then the
    root.  As in [tree_positions], the root is the instruction at position
    [i] and a nested tree is rooted at the operand it replaces. *)
Fixpoint tree_postorder (i : Z) (t : Tree) {struct t} : list Z :=
  match t with
  | Node _ children =>
      (fix go (cs : list Child) (l : list Z) {struct cs} : list Z :=
         match cs, l with
         | c :: cs', a :: l' =>
             match c with
             | CTree t' => tree_postorder a t'
             | _ => []
             end ++ go cs' l'
         | _, _ => []
         end) children
        (match block_at block i with
         | Some ins => args ins
         | None => []
         end) ++ [i]
  end.

Definition child_postorder (a : Z) (c : Child) : list Z :=
  match c with CTree t => tree_postorder a t | _ => [] end.

Fixpoint children_postorder (l : list Z) (cs : list Child) : list Z :=
  match cs, l with
  | c :: cs', a :: l' => child_postorder a c ++ children_postorder l' cs'
  | _, _ => []
  end.

(** The positions of a forest, tree after tree. *)
Definition forest_postorder (trees : list (Z * Tree)) : list Z :=
  trees ≫= (fun p => tree_postorder p.1 p.2).
End Postorder.

(** An operation that stands for an instruction of the block, as against
    the loads, stores and pushes the emitter adds, when the block names no
    local from 100 on. *)
Definition is_own (o : Op) : bool :=
  match o with
  | I32Add => true
  | GetLocal n | SetLocal n => n <? 100
  | _ => false
  end.

(** The locals the [LocalGet] and [LocalSet] instructions of the block name
    are below 100, where the slots of the emitter start. *)
Definition locals_below_slots (block : list Ins) : bool :=
  forallb (fun ins => is_own (own_op ins).1) block.

(** The tree [t] for the instruction at position [i] has one child for
    each operand of the instruction, and the child of every operand that
    names position [i] or a later one, an index past the end included, is
    the back-reference leaf naming it; and so in the nested trees, each for
    the instruction its operand names. *)
Fixpoint invalid_leaves (block : list Ins) (i : Z) (t : Tree) {struct t}
    : bool :=
  match t with
  | Node _ children =>
      (fix go (cs : list Child) (l : list Z) {struct cs} : bool :=
         match cs, l with
         | c :: cs', a :: l' =>
             match c with
             | CTree t' => (a <? i) && invalid_leaves block a t'
             | CStr b => (a <? i) || (b =? a)
             | CNum _ => a <? i
             end && go cs' l'
         | [], [] => true
         | _, _ => false
         end) children
        (match block_at block i with
         | Some ins => args ins
         | None => []
         end)
  end.

(** The same of one child [c], which stands for the operand [a] of the
    instruction at position [i], and of the children of a node. *)
Definition child_leaves (block : list Ins) (i a : Z) (c : Child) : bool :=
  match c with
  | CTree t => (a <? i) && invalid_leaves block a t
  | CStr b => (a <? i) || (b =? a)
  | CNum _ => a <? i
  end.

Fixpoint children_leaves (block : list Ins) (i : Z) (l : list Z)
    (cs : list Child) : bool :=
  match cs, l with
  | c :: cs', a :: l' =>
      child_leaves block i a c && children_leaves block i l' cs'
  | [], [] => true
  | _, _ => false
  end.

(** The number of [Ref(k)] operands [visit] examines that stand in an
    instruction at position [k] or before it, in the instructions [b], the
    first of which is at position [i]: the references to [k] that are not
    backward. *)
Fixpoint invalid_refs (k i : Z) (b : list Ins) : Z :=
  match b with
  | [] => 0
  | ins :: rest =>
      (if i <=? k then refs_in k (emitted_args ins) else 0) +
      invalid_refs k (i + 1) rest
  end.

(** ** The strings of the code *)

(** Two operations are the same string only when they are the same
    operation: the test [wasmCode[0] === `get_local ${local}`] of line 150
    is the test [op = GetLocal local]. *)
Lemma render_inj o1 o2 : render o1 = render o2 -> o1 = o2.
Proof.
  destruct o1, o2; simpl; intros H; try discriminate H; try done.
  all: injection H as H; f_equal; by apply (inj pretty).
Qed.

Lemma tree_name_inj a1 a2 : tree_name a1 = tree_name a2 -> a1 = a2.
Proof. unfold tree_name. simpl. intros [= H]. by apply (inj pretty). Qed.

(** The first block of the source file: one tree, rooted at the store,
    without a back-reference, and no local operation but the first load and
    the last store. *)
Example demo1_result :
  stackify demo1 =
  Ok {| s_uses := [Num 1; Num 1; Num 1; Num 1; Num 0];
        s_trees :=
          [(4, Node LocalSet
                 [CNum 0;
                  CTree (Node Add
                    [CTree (Node Add [CTree (Node LocalGet [CNum 0]); CNum 1]);
                     CTree (Node Add [CNum 2; CNum 3])])])];
        s_code := [GetLocal 0; I32Const 1; I32Add; I32Const 2; I32Const 3;
                   I32Add; I32Add; SetLocal 0];
        s_locals := ∅ |}.
Proof. reflexivity. Qed.

(** The third block: instruction 3 is used twice, so it is a root of its
    own, stored in slot 100 by a tee and loaded where it is used again. *)
Example demo3_result :
  stackify demo3 =
  Ok {| s_uses := [Num 1; Num 1; Num 1; Num 2; Num 0; Num 1; Num 0];
        s_trees :=
          [(3, Node Add
                 [CTree (Node Add [CTree (Node LocalGet [CNum 0]); CNum 1]);
                  CTree (Node Add [CNum 2; CNum 3])]);
           (4, Node LocalSet [CNum 0; CStr 3]);
           (6, Node LocalSet [CNum 1; CTree (Node Add [CStr 3; CNum 4])])];
        s_code := [GetLocal 0; I32Const 1; I32Add; I32Const 2; I32Const 3;
                   I32Add; I32Add; TeeLocal 100; SetLocal 0; GetLocal 100;
                   I32Const 4; I32Add; SetLocal 1];
        s_locals := {[ 3 := 100 ]} |}.
Proof. reflexivity. Qed.

(** The lines the source file prints for its second block. *)
Example demo2_lines :
  (fun r => render <$> s_code r) <$> stackify demo2 =
  Ok ["get_local 0"; "tee_local 100"; "i32.const 1"; "i32.add";
      "get_local 100"; "i32.const 2"; "i32.add"; "i32.add";
      "set_local 0"]%string.
Proof. reflexivity. Qed.

(** ** Use counter: proofs *)

Lemma refs_in_app k l1 l2 : refs_in k (l1 ++ l2) = refs_in k l1 + refs_in k l2.
Proof. induction l1 as [|a l1 IH]; simpl; [done | rewrite IH; lia]. Qed.

Lemma refs_in_nonneg k l : 0 <= refs_in k l.
Proof. induction l as [|a l IH]; simpl; [done | destruct (a =? k); lia]. Qed.

Lemma refs_in_rev k l : refs_in k (rev l) = refs_in k l.
Proof.
  induction l as [|a l IH]; simpl; [done|].
  rewrite refs_in_app, IH. simpl. lia.
Qed.

Lemma ref_count_app k b1 b2 :
  ref_count k (b1 ++ b2) = ref_count k b1 + ref_count k b2.
Proof. induction b1 as [|i b1 IH]; simpl; [done | rewrite IH; lia]. Qed.

Lemma refs_below_app off i b1 b2 :
  refs_below off i (b1 ++ b2) =
  refs_below off i b1 && refs_below off (i + Z.of_nat (length b1)) b2.
Proof.
  revert i. induction b1 as [|x b1 IH]; intros i; cbn [app refs_below length].
  - by rewrite Z.add_0_r.
  - rewrite IH, andb_assoc, Nat2Z.inj_succ.
    by replace (i + 1 + Z.of_nat (length b1))
      with (i + Z.succ (Z.of_nat (length b1))) by lia.
Qed.

Lemma refs_below_lookup off i block n ins arg :
  refs_below off i block = true ->
  block !! n = Some ins -> arg ∈ args ins -> arg < i + Z.of_nat n + off.
Proof.
  revert i n. induction block as [|x block IH]; intros i n Hb Hn Ha; [done|].
  simpl in Hb. apply andb_true_iff in Hb as [Hx Hb].
  destruct n as [|n]; simpl in Hn.
  - injection Hn as ->. rewrite forallb_forall in Hx.
    apply list_elem_of_In, Hx, Z.ltb_lt in Ha. lia.
  - specialize (IH (i + 1) n Hb Hn Ha). lia.
Qed.

Lemma refs_below_weaken i block :
  refs_below 0 i block = true -> refs_below 1 i block = true.
Proof.
  revert i. induction block as [|x block IH]; intros i; simpl; [done|].
  rewrite !andb_true_iff. intros [Hx Hb]. split; [|by apply IH].
  rewrite forallb_forall in *. intros a Ha. specialize (Hx a Ha).
  apply Z.ltb_lt. apply Z.ltb_lt in Hx. lia.
Qed.

Lemma refs_in_zero k l : (forall a, a ∈ l -> a <> k) -> refs_in k l = 0.
Proof.
  induction l as [|a l IH]; intros H; simpl; [done|].
  rewrite IH by (intros b Hb; apply H; by right).
  destruct (Z.eqb_spec a k) as [->|]; [|done].
  exfalso. by apply (H k); [left|].
Qed.

(** No instruction of a block without forward references names a position at
    or past the end. *)
Lemma ref_count_beyond block k :
  no_forward block = true -> Z.of_nat (length block) <= k ->
  ref_count k block = 0.
Proof.
  unfold no_forward. intros Hb Hk.
  assert (forall n ins a, block !! n = Some ins -> a ∈ args ins -> a <> k) as H.
  { intros n ins a Hn Ha. pose proof (refs_below_lookup _ _ _ _ _ _ Hb Hn Ha).
    apply lookup_lt_Some in Hn. lia. }
  clear Hb Hk. induction block as [|x block IH]; simpl; [done|].
  rewrite IH by (intros n ins a Hn; apply (H (S n) ins a Hn)).
  rewrite refs_in_zero; [done|]. intros a. by apply (H 0%nat x a).
Qed.

(** [uses[arg]++] inside the array on a number. *)
Lemma uses_incr_num uses arg n :
  0 <= arg -> arg < array_max -> uses !! Z.to_nat arg = Some (Num n) ->
  uses_incr uses arg = <[Z.to_nat arg := Num (n + 1)]> uses.
Proof.
  intros _ Hlt H. unfold uses_incr.
  destruct (Z.ltb_spec arg array_max); [|lia]. by rewrite H.
Qed.

(** The inner loop on an array whose cells up to [m] are numbers, with
    references at most [m]. *)
Lemma count_args_spec (m : nat) l : forall uses (c : Z -> Z),
  Z.of_nat m < array_max ->
  length uses = S m ->
  (forall a, a ∈ l -> a <= Z.of_nat m) ->
  (forall k, (k <= m)%nat -> uses !! k = Some (Num (c (Z.of_nat k)))) ->
  length (count_args uses l) = S m /\
  forall k, (k <= m)%nat ->
    count_args uses l !! k = Some (Num (c (Z.of_nat k) + refs_in (Z.of_nat k) l)).
Proof.
  induction l as [|a l IH]; intros uses c Hm Hlen Hl Hc; simpl.
  - split; [done|]. intros k Hk. rewrite Hc by done. do 2 f_equal. lia.
  - assert (a <= Z.of_nat m) as Ha by (apply Hl; by left).
    assert (forall b, b ∈ l -> b <= Z.of_nat m) as Hl'
      by (intros b Hb; apply Hl; by right).
    destruct (Z.leb_spec 0 a) as [Hpos|Hneg].
    + assert (Z.to_nat a <= m)%nat as Hin by lia.
      rewrite (uses_incr_num uses a _ Hpos ltac:(lia) (Hc _ Hin)).
      destruct (IH (<[Z.to_nat a := Num (c (Z.of_nat (Z.to_nat a)) + 1)]> uses)
                  (fun k => c k + (if a =? k then 1 else 0))) as [IH1 IH2].
      * done.
      * by rewrite length_insert.
      * done.
      * intros k Hk. destruct (decide (Z.to_nat a = k)) as [<-|Hne].
        -- rewrite list_lookup_insert_eq by lia.
           rewrite Z2Nat.id, Z.eqb_refl by done. done.
        -- rewrite list_lookup_insert_ne by done. rewrite Hc by done.
           destruct (Z.eqb_spec a (Z.of_nat k)); [lia|]. do 2 f_equal. lia.
      * split; [done|]. intros k Hk. rewrite IH2 by done. do 2 f_equal. lia.
    + destruct (IH uses c Hm Hlen Hl' Hc) as [IH1 IH2]. split; [done|].
      intros k Hk. rewrite IH2 by done.
      destruct (Z.eqb_spec a (Z.of_nat k)); [lia|]. done.
Qed.

(** The outer loop on two blocks in a row. *)
Lemma count_loop_app b1 b2 : forall uses,
  count_loop (b1 ++ b2) uses = count_loop b1 uses ≫= count_loop b2.
Proof.
  induction b1 as [|ins b1 IH]; intros uses; simpl; [done|].
  destruct (count_ins uses ins) as [u| | |]; simpl; [apply IH | done..].
Qed.

(** [uses.push(0)] below the greatest length. *)
Lemma uses_push_Ok uses :
  Z.of_nat (length uses) < array_max -> uses_push uses = Ok (uses ++ [Num 0]).
Proof.
  intros H. unfold uses_push.
  by destruct (Z.ltb_spec (Z.of_nat (length uses)) array_max); [|lia].
Qed.

(** [uses.push(0)] returns only below the greatest length. *)
Lemma uses_push_inv uses uses' :
  uses_push uses = Ok uses' ->
  Z.of_nat (length uses) < array_max /\ uses' = uses ++ [Num 0].
Proof.
  unfold uses_push.
  destruct (Z.ltb_spec (Z.of_nat (length uses)) array_max); [|done].
  by intros [= <-].
Qed.

(** The table of a block without forward references: the counter returns,
    with one number per instruction, the number of references to it. *)
Lemma count_uses_no_forward block :
  no_forward block = true -> Z.of_nat (length block) <= array_max ->
  exists uses,
    count_uses block = Ok uses /\
    length uses = length block /\
    forall k, (k < length block)%nat ->
      uses !! k = Some (Num (ref_count (Z.of_nat k) block)).
Proof.
  induction block as [|ins block IH] using rev_ind; intros Hb Hmax.
  - exists []. split; [done|]. split; [done|]. simpl. lia.
  - unfold no_forward in Hb. rewrite refs_below_app in Hb.
    apply andb_true_iff in Hb as [Hb Hins].
    rewrite length_app in Hmax. simpl in Hmax.
    destruct (IH Hb ltac:(lia)) as (uses & Hu & IH1 & IH2).
    simpl in Hins. rewrite andb_true_r, forallb_forall in Hins.
    destruct (count_args_spec (length block) (args ins)
                (uses ++ [Num 0])
                (fun k => ref_count k block)) as [H1 H2].
    + lia.
    + rewrite length_app. simpl. lia.
    + intros a Ha. apply list_elem_of_In, Hins, Z.ltb_lt in Ha. lia.
    + intros k Hk. destruct (decide (k = length block)) as [->|Hne].
      * rewrite lookup_app_r by lia. rewrite IH1, Nat.sub_diag. simpl.
        by rewrite ref_count_beyond.
      * rewrite lookup_app_l by lia. apply IH2. lia.
    + exists (count_args (uses ++ [Num 0]) (args ins)). split_and!.
      * unfold count_uses in *. rewrite count_loop_app, Hu. simpl.
        unfold count_ins. rewrite uses_push_Ok by lia. done.
      * rewrite length_app. simpl. lia.
      * rewrite length_app. simpl. intros k Hk. rewrite H2 by lia.
        rewrite ref_count_app. simpl. do 2 f_equal. lia.
Qed.

(** On any block, a cell of the table that holds a number holds the number
    of references to its index. *)
Lemma ref_count_all_args k block : ref_count k block = refs_in k (all_args block).
Proof.
  unfold all_args. induction block as [|ins block IH]; simpl; [done|].
  by rewrite refs_in_app, IH.
Qed.

Lemma uses_inv_push uses done :
  Z.of_nat (length uses) < array_max ->
  uses_inv uses done -> uses_inv (uses ++ [Num 0]) done.
Proof.
  intros Hlt (H1 & H2 & H3). split_and!.
  - intros k n Hk. destruct (decide (k < length uses)%nat) as [?|Hge].
    + rewrite lookup_app_l in Hk by done. by apply H1.
    + rewrite lookup_app_r in Hk by lia.
      destruct (k - length uses)%nat eqn:Hd; simpl in Hk; [|done].
      injection Hk as <-. symmetry. apply H2; lia.
  - intros k Hk Hkm. rewrite length_app in Hk. simpl in Hk. apply H2; lia.
  - rewrite length_app. simpl. lia.
Qed.

Lemma uses_inv_skip uses done arg :
  arg < 0 -> uses_inv uses done -> uses_inv uses (done ++ [arg]).
Proof.
  intros Hneg (H1 & H2 & H3).
  assert (forall k : nat, refs_in (Z.of_nat k) (done ++ [arg]) =
                          refs_in (Z.of_nat k) done) as Hsame.
  { intros k. rewrite refs_in_app. simpl.
    destruct (Z.eqb_spec arg (Z.of_nat k)); lia. }
  split_and!.
  - intros k n Hk. rewrite Hsame. by apply H1.
  - intros k Hk Hkm. rewrite Hsame. by apply H2.
  - done.
Qed.

Lemma uses_inv_incr uses done arg :
  0 <= arg -> uses_inv uses done ->
  uses_inv (uses_incr uses arg) (done ++ [arg]).
Proof.
  intros Hpos (H1 & H2 & H3).
  assert (forall k : nat, refs_in (Z.of_nat k) (done ++ [arg]) =
            refs_in (Z.of_nat k) done +
            if decide (k = Z.to_nat arg) then 1 else 0) as Hcnt.
  { intros k. rewrite refs_in_app. simpl.
    destruct (Z.eqb_spec arg (Z.of_nat k)); case_decide; lia. }
  unfold uses_incr. destruct (Z.ltb_spec arg array_max) as [Hidx|Hprop].
  - destruct (uses !! Z.to_nat arg) as [c|] eqn:Harg.
    + pose proof (lookup_lt_Some _ _ _ Harg) as Hlt.
      assert (forall c',
                (forall n, c' = Num n -> exists m, c = Num m /\ n = m + 1) ->
                uses_inv (<[Z.to_nat arg := c']> uses) (done ++ [arg])) as Hset.
      { intros c' Hc'. split_and!.
        - intros k n Hk. rewrite Hcnt.
          destruct (decide (k = Z.to_nat arg)) as [->|Hne].
          + rewrite list_lookup_insert_eq in Hk by done. injection Hk as ->.
            destruct (Hc' n eq_refl) as (m & -> & ->).
            by rewrite (H1 _ _ Harg).
          + rewrite list_lookup_insert_ne in Hk by done.
            rewrite (H1 _ _ Hk). lia.
        - intros k Hk Hkm. rewrite length_insert in Hk.
          rewrite Hcnt, H2 by done. case_decide; lia.
        - by rewrite length_insert. }
      destruct c as [| |m]; apply Hset; intros n Hn; try discriminate Hn.
      injection Hn as <-. by exists m.
    + apply lookup_ge_None in Harg. split_and!.
      * intros k n Hk. rewrite Hcnt.
        destruct (decide (k < length uses)%nat) as [Hlt|Hge].
        -- rewrite lookup_app_l in Hk by done. rewrite (H1 _ _ Hk).
           case_decide; lia.
        -- rewrite lookup_app_r in Hk by lia. exfalso.
           apply list_elem_of_lookup_2, elem_of_app in Hk as [Hk|Hk].
           ++ by apply elem_of_replicate in Hk as [? _].
           ++ by apply list_elem_of_singleton in Hk.
      * intros k Hk Hkm. rewrite !length_app, length_replicate in Hk.
        simpl in Hk. rewrite Hcnt, H2 by lia. case_decide; lia.
      * rewrite !length_app, length_replicate. simpl. lia.
  - split_and!.
    + intros k n Hk. rewrite Hcnt, (H1 _ _ Hk).
      apply lookup_lt_Some in Hk. case_decide; lia.
    + intros k Hk Hkm. rewrite Hcnt, H2 by done. case_decide; lia.
    + done.
Qed.

Lemma uses_inv_args l : forall uses done,
  uses_inv uses done -> uses_inv (count_args uses l) (done ++ l).
Proof.
  induction l as [|arg l IH]; intros uses done Hinv; simpl.
  - by rewrite app_nil_r.
  - replace (done ++ arg :: l) with ((done ++ [arg]) ++ l)
      by (by rewrite <- app_assoc).
    apply IH. destruct (Z.leb_spec 0 arg).
    + by apply uses_inv_incr.
    + by apply uses_inv_skip.
Qed.

Lemma uses_inv_block block : forall uses done uses',
  uses_inv uses done -> count_loop block uses = Ok uses' ->
  uses_inv uses' (done ++ all_args block).
Proof.
  induction block as [|ins block IH]; intros uses done uses' Hinv Hrun;
    simpl in Hrun.
  - injection Hrun as <-. by rewrite app_nil_r.
  - unfold all_args. simpl. fold (all_args block). rewrite app_assoc.
    unfold count_ins in Hrun.
    destruct (uses_push uses) as [u| | |] eqn:Hpush; simpl in Hrun; [|done..].
    apply uses_push_inv in Hpush as [Hlt ->].
    eapply IH; [|exact Hrun]. by apply uses_inv_args, uses_inv_push.
Qed.

Lemma count_uses_inv block uses :
  count_uses block = Ok uses -> uses_inv uses (all_args block).
Proof.
  intros Hrun. apply (uses_inv_block block [] [] uses); [|done].
  split_and!; [done | done | simpl; unfold array_max; lia].
Qed.

Lemma count_uses_num block uses (k : nat) n :
  count_uses block = Ok uses ->
  uses !! k = Some (Num n) -> n = ref_count (Z.of_nat k) block.
Proof.
  intros Hrun Hk. rewrite ref_count_all_args.
  by apply (count_uses_inv block uses Hrun).
Qed.

(** The table of a counter that returns. *)
Lemma use_table_Ok block uses : count_uses block = Ok uses -> use_table block = uses.
Proof. intros H. unfold use_table. by rewrite H. Qed.

(** A reference with use count 1 is the only reference to its target. *)
Lemma uses_one_count block k :
  0 <= k -> uses_one (use_table block) k = true -> ref_count k block = 1.
Proof.
  intros Hk Hu. unfold use_table in Hu.
  destruct (count_uses block) as [uses| | |] eqn:Hrun; [|done..].
  unfold uses_one in Hu.
  destruct (uses !! Z.to_nat k) as [[| |n]|] eqn:Hc; try done.
  apply (count_uses_num block uses _ _ Hrun) in Hc.
  rewrite Z2Nat.id in Hc by done.
  rewrite <- Hc. by destruct n as [|[]|].
Qed.

(** ** Tree recoverer: proofs *)

Lemma tree_size_node k cs : tree_size (Node k cs) = S (children_size cs).
Proof. reflexivity. Qed.

Lemma tree_has_str_node k cs : tree_has_str (Node k cs) = existsb child_has_str cs.
Proof. reflexivity. Qed.

Lemma tree_positions_node block i k cs :
  tree_positions block i (Node k cs) =
  i :: children_positions block
         (match block_at block i with Some ins => args ins | None => [] end) cs.
Proof.
  cbn [tree_positions]. f_equal.
  generalize (match block_at block i with
              | Some ins => args ins | None => [] end).
  induction cs as [|c cs IH]; intros l; [by destruct l|].
  destruct l as [|a l]; [done|]. cbn [children_positions]. by rewrite IH.
Qed.

Lemma children_size_app cs1 cs2 :
  children_size (cs1 ++ cs2) = (children_size cs1 + children_size cs2)%nat.
Proof. induction cs1 as [|c cs1 IH]; simpl; [done | rewrite IH; lia]. Qed.

Lemma seq_range_nil lo : seq_range lo lo = [].
Proof. unfold seq_range. apply seqZ_nil. lia. Qed.

Lemma seq_range_split lo mid hi :
  lo <= mid <= hi -> seq_range lo hi = seq_range lo mid ++ seq_range mid hi.
Proof.
  intros H. unfold seq_range.
  replace (hi - lo) with ((mid - lo) + (hi - mid)) by lia.
  rewrite seqZ_app by lia. do 2 f_equal; lia.
Qed.

Lemma seq_range_one lo : seq_range lo (lo + 1) = [lo].
Proof.
  unfold seq_range. rewrite seqZ_cons by lia. rewrite seqZ_nil by lia. done.
Qed.

Lemma seq_range_snoc lo hi :
  lo <= hi -> seq_range lo (hi + 1) = seq_range lo hi ++ [hi].
Proof.
  intros H. rewrite (seq_range_split lo hi (hi + 1)) by lia.
  by rewrite seq_range_one.
Qed.

Lemma children_positions_app block l1 l2 cs1 cs2 :
  length l1 = length cs1 ->
  children_positions block (l1 ++ l2) (cs1 ++ cs2) =
  children_positions block l1 cs1 ++ children_positions block l2 cs2.
Proof.
  revert l1. induction cs1 as [|c cs1 IH]; intros [|a l1] Hlen; try done.
  simpl in *. rewrite IH by lia. by rewrite app_assoc.
Qed.

Lemma existsb_app {A} (f : A -> bool) l1 l2 :
  existsb f (l1 ++ l2) = existsb f l1 || existsb f l2.
Proof. induction l1 as [|a l1 IH]; simpl; [done | by rewrite IH, orb_assoc]. Qed.

Lemma block_at_Some block i ins :
  block_at block i = Some ins <-> 0 <= i /\ block !! Z.to_nat i = Some ins.
Proof.
  unfold block_at. destruct (Z.ltb_spec i 0); split.
  - done.
  - intros [? _]. lia.
  - done.
  - by intros [_ ?].
Qed.

Lemma block_at_range block i ins :
  block_at block i = Some ins -> 0 <= i < Z.of_nat (length block).
Proof.
  intros [? H]%block_at_Some. apply lookup_lt_Some in H. lia.
Qed.

Lemma block_at_is_Some block i :
  0 <= i < Z.of_nat (length block) -> is_Some (block_at block i).
Proof.
  intros H. unfold block_at. destruct (Z.ltb_spec i 0); [lia|].
  apply lookup_lt_is_Some. lia.
Qed.

Section RecoverProofs.
Variable block : list Ins.
Variable uses : list cell.

(** Induction over the calls of [recoverTree]: [Q] is shown of a call from
    [P] of its argument loop, and [P] is shown of the loop one argument at
    a time, with [Q] of the nested call. *)
Lemma recoverTree_ind
    (Q : RecState -> Tree -> bool -> RecState -> Prop)
    (P : list Z -> list Child -> bool -> RecState ->
         list Child -> bool -> RecState -> Prop) :
  (forall c s st, P [] c s st c s st) ->
  (forall arg rest c s st c' s' st',
      arg < 0 ->
      P rest (CNum (bitnot arg) :: c) s st c' s' st' ->
      P (arg :: rest) c s st c' s' st') ->
  (forall arg rest c st t cs st1 c' s' st',
      0 <= arg -> uses_one uses arg = true -> arg = rindex st - 1 ->
      Q (rec_dec st) t cs st1 ->
      P rest (CTree t :: c) cs st1 c' s' st' ->
      P (arg :: rest) c false st c' s' st') ->
  (forall arg rest c s st c' s' st',
      0 <= arg -> inline_ok uses arg st s = false ->
      P rest (CStr arg :: c) true st c' s' st' ->
      P (arg :: rest) c s st c' s' st') ->
  (forall st ins c s st',
      block_at block (rindex st) = Some ins ->
      P (rev (args ins)) [] false (rec_enter st) c s st' ->
      Q st (Node (kind ins) c) s st') ->
  (forall fuel st t s st',
      recoverTree block uses fuel st = Ok (t, s, st') -> Q st t s st') /\
  (forall fuel rargs c s st c' s' st',
      recover_args uses (recoverTree block uses fuel) rargs c s st =
        Ok (c', s', st') ->
      P rargs c s st c' s' st').
Proof.
  intros Hnil Hconst Hinl Hstr Hnode.
  assert (forall self,
            (forall st t s st', self st = Ok (t, s, st') -> Q st t s st') ->
            forall rargs c s st c' s' st',
              recover_args uses self rargs c s st = Ok (c', s', st') ->
              P rargs c s st c' s' st') as Hargs.
  { intros self Hself.
    induction rargs as [|arg rest IHl]; intros c1 s1 st1 c' s' st' Hloop;
      simpl in Hloop.
    - injection Hloop as <- <- <-. apply Hnil.
    - destruct (Z.ltb_spec arg 0) as [Hneg|Hpos].
      { by apply Hconst, IHl. }
      fold (inline_ok uses arg st1 s1) in Hloop.
      destruct (inline_ok uses arg st1 s1) eqn:Hok.
      + unfold inline_ok in Hok.
        apply andb_true_iff in Hok as [[Hu Hadj]%andb_true_iff Hs].
        apply Z.eqb_eq in Hadj. destruct s1; [done|].
        destruct (self (rec_dec st1)) as [[[t' cs'] st2]| | |] eqn:Hrec;
          simpl in Hloop; [|done..].
        apply (Hinl _ _ _ _ t' cs' st2); [done..| by apply Hself |].
        apply IHl. by destruct cs'.
      + by apply Hstr, IHl. }
  assert (forall fuel st t s st',
            recoverTree block uses fuel st = Ok (t, s, st') -> Q st t s st')
    as Htree.
  { induction fuel as [|fuel IH]; intros st t s st' Hrun; [done|].
    simpl in Hrun.
    destruct (block_at block (rindex st)) as [ins|] eqn:Hins; [|done].
    destruct (recover_args uses (recoverTree block uses fuel)
                (rev (args ins)) [] false (rec_enter st))
      as [[[c s0] st0]| | |] eqn:Hloop; simpl in Hrun; [|done..].
    injection Hrun as <- <- <-. apply (Hnode _ _ _ _ _ Hins).
    by apply (Hargs (recoverTree block uses fuel) (IH)). }
  split; [done|]. intros fuel. apply Hargs, Htree.
Qed.

Lemma recover_posts :
  (forall fuel st t s st',
      recoverTree block uses fuel st = Ok (t, s, st') ->
      rec_post block st t s st') /\
  (forall fuel rargs c s st c' s' st',
      recover_args uses (recoverTree block uses fuel) rargs c s st =
        Ok (c', s', st') ->
      rec_args_post block rargs c s st c' s' st').
Proof.
  apply (recoverTree_ind (rec_post block) (rec_args_post block)).
  - intros c s st. unfold rec_args_post. rewrite seq_range_nil.
    repeat split; [lia..|]. exists []. simpl. rewrite orb_false_r.
    repeat split; first [done | lia].
  - intros arg rest c s st c' s' st' Hneg
      (Hle & Hpos & Hcalls & new & -> & Hlen & Hsz & -> & Hperm).
    repeat split; [done..|].
    exists (new ++ [CNum (bitnot arg)]). rewrite <- app_assoc.
    rewrite length_app, children_size_app, existsb_app. simpl.
    rewrite !orb_false_r. repeat split; [lia..|].
    rewrite children_positions_app by (by rewrite length_rev).
    cbn [children_positions child_positions]. by rewrite !app_nil_r.
  - intros arg rest c st t cs st1 c' s' st' Hpos Hu Hadj
      (Hr1 & Hc1 & Hs1 & -> & Hp1)
      (Hle & Hpos' & Hcalls & new & -> & Hlen & Hsz & -> & Hperm).
    simpl in *. replace (rindex st - 1 + 1) with (rindex st) in * by lia.
    repeat split; [lia..| |].
    { rewrite Hcalls, Hc1, app_assoc. f_equal.
      symmetry. apply seq_range_split. lia. }
    exists (new ++ [CTree t]). rewrite <- app_assoc.
    rewrite length_app, children_size_app, existsb_app. simpl.
    rewrite !orb_false_r. repeat split; [lia.. | by rewrite orb_comm |].
    rewrite children_positions_app by (by rewrite length_rev).
    cbn [children_positions child_positions]. subst arg.
    rewrite !app_nil_r, Hperm, Hp1.
    symmetry. rewrite (seq_range_split _ (rindex st1)) by lia. done.
  - intros arg rest c s st c' s' st' Hpos Hno
      (Hle & Hpos' & Hcalls & new & -> & Hlen & Hsz & -> & Hperm).
    repeat split; [done..|].
    exists (new ++ [CStr arg]). rewrite <- app_assoc.
    rewrite length_app, children_size_app, existsb_app. simpl.
    rewrite !orb_true_r. repeat split; [lia..|].
    rewrite children_positions_app by (by rewrite length_rev).
    cbn [children_positions child_positions]. by rewrite !app_nil_r.
  - intros st ins c s st' Hins
      (Hle & Hpos' & Hcalls & new & Hc & Hlen & Hsz & -> & Hperm).
    rewrite app_nil_r in Hc. subst c. cbn [rec_enter rindex rcalls] in *.
    pose proof (block_at_range _ _ _ Hins) as Hr. unfold rec_post.
    rewrite tree_size_node, tree_has_str_node, tree_positions_node, Hins.
    rewrite rev_involutive in Hperm.
    split; [lia|]. split; [|split; [lia|split; [done|]]].
    + rewrite Hcalls, seq_range_snoc by lia. by rewrite <- app_assoc.
    + rewrite Hperm, seq_range_snoc by lia. apply Permutation_cons_append.
Qed.

Lemma recoverTree_post fuel st t s st' :
  recoverTree block uses fuel st = Ok (t, s, st') -> rec_post block st t s st'.
Proof. apply recover_posts. Qed.

Lemma recover_args_post fuel rargs c s st c' s' st' :
  recover_args uses (recoverTree block uses fuel) rargs c s st =
    Ok (c', s', st') ->
  rec_args_post block rargs c s st c' s' st'.
Proof. apply recover_posts. Qed.

(** The ghost field is only written: two runs from the same cursor return
    the same tree, the same flag and the same cursor. *)
Lemma recoverTree_ghost fuel : forall st1 st2,
  rindex st1 = rindex st2 ->
  agree (fun r1 r2 => r1.1 = r2.1 /\ rindex r1.2 = rindex r2.2)
    (recoverTree block uses fuel st1) (recoverTree block uses fuel st2).
Proof.
  induction fuel as [|fuel IH]; intros st1 st2 Hst; [done|].
  simpl. rewrite <- Hst.
  destruct (block_at block (rindex st1)) as [ins|]; [|done].
  assert (forall l c s a b,
            rindex a = rindex b ->
            agree (fun r1 r2 => r1.1 = r2.1 /\ rindex r1.2 = rindex r2.2)
              (recover_args uses (recoverTree block uses fuel) l c s a)
              (recover_args uses (recoverTree block uses fuel) l c s b))
    as Hloop.
  { induction l as [|arg rest IHl]; intros c s a b Hab; simpl; [done|].
    rewrite <- Hab. destruct (arg <? 0); [by apply IHl|].
    destruct (uses_one uses arg && (arg =? rindex a - 1) && negb s);
      [|by apply IHl].
    specialize (IH (rec_dec a) (rec_dec b)). simpl in IH.
    rewrite Hab in IH. specialize (IH eq_refl).
    destruct (recoverTree block uses fuel (rec_dec a)) as [[[t1 s1] a1]| | |],
             (recoverTree block uses fuel (rec_dec b)) as [[[t2 s2] b1]| | |];
      simpl in *; try done.
    destruct IH as [[= <- <-] Hi]. by apply IHl. }
  specialize (Hloop (rev (args ins)) [] false (rec_enter st1) (rec_enter st2) Hst).
  destruct (recover_args uses (recoverTree block uses fuel) (rev (args ins))
              [] false (rec_enter st1)) as [[[c1 s1] a1]| | |],
           (recover_args uses (recoverTree block uses fuel) (rev (args ins))
              [] false (rec_enter st2)) as [[[c2 s2] b1]| | |];
    simpl in *; try done.
  by destruct Hloop as [[= <- <-] Hi].
Qed.

(** The tree of a call represents the instruction the call starts at. *)
Lemma recoverTree_represents fuel st t s st' :
  recoverTree block uses fuel st = Ok (t, s, st') ->
  represents block (rindex st) t.
Proof.
  revert fuel st t s st'.
  apply (recoverTree_ind
           (fun st t _ _ => represents block (rindex st) t)
           (fun rargs c _ _ c' _ _ =>
              exists new, c' = new ++ c /\
                Forall2 (child_of (represents block)) (rev rargs) new)).
  - intros c _ _. exists []. split; [done | constructor].
  - intros arg rest c _ _ c' _ _ Hneg (new & -> & Hall).
    exists (new ++ [CNum (bitnot arg)]). rewrite <- app_assoc. split; [done|].
    simpl. apply Forall2_app; [done|]. repeat constructor. done.
  - intros arg rest c st t _ _ c' _ _ Hpos _ Hadj Hrep (new & -> & Hall).
    exists (new ++ [CTree t]). rewrite <- app_assoc. split; [done|].
    simpl. apply Forall2_app; [done|]. repeat constructor; [done|].
    by rewrite Hadj.
  - intros arg rest c _ _ c' _ _ Hpos _ (new & -> & Hall).
    exists (new ++ [CStr arg]). rewrite <- app_assoc. split; [done|].
    simpl. apply Forall2_app; [done|]. repeat constructor. done.
  - intros st ins c _ _ Hins (new & -> & Hall).
    rewrite app_nil_r, rev_involutive in *. by constructor.
Qed.

(** The loop over [l1 ++ l2] is the loop over [l1] followed by the loop
    over [l2]. *)
Lemma recover_args_app self l1 l2 c s st :
  recover_args uses self (l1 ++ l2) c s st =
  recover_args uses self l1 c s st ≫=
    (fun '(c1, s1, st1) => recover_args uses self l2 c1 s1 st1).
Proof.
  revert c s st. induction l1 as [|arg l1 IH]; intros c s st; simpl; [done|].
  destruct (arg <? 0); [apply IH|].
  destruct (uses_one uses arg && (arg =? rindex st - 1) && negb s); [|apply IH].
  destruct (self (rec_dec st)) as [[[t cs] st2]| | |]; simpl; [apply IH|done..].
Qed.

(** Once the flag is set the loop inlines nothing more. *)
Lemma recover_args_stopped self rargs c st c' s' st' :
  recover_args uses self rargs c true st = Ok (c', s', st') ->
  s' = true /\ st' = st /\
  exists new, c' = new ++ c /\ length new = length rargs /\
              Forall (fun ch => is_tree ch = false) new.
Proof.
  revert c. induction rargs as [|arg rest IH]; intros c Hrun; simpl in Hrun.
  - injection Hrun as <- <- <-. split_and!; try done. by exists [].
  - rewrite andb_false_r in Hrun.
    assert (exists ch, is_tree ch = false /\
              recover_args uses self rest (ch :: c) true st = Ok (c', s', st'))
      as (ch & Hch & Hrun').
    { destruct (arg <? 0); [by exists (CNum (bitnot arg)) | by exists (CStr arg)]. }
    destruct (IH _ Hrun') as (-> & -> & new & -> & Hlen & Hall).
    split_and!; try done. exists (new ++ [ch]).
    rewrite <- app_assoc, length_app. simpl. split_and!; [done | lia |].
    apply Forall_app. auto.
Qed.

(** A call at a position of the block returns, given fuel above the
    position. *)
Lemma recoverTree_total fuel st :
  0 <= rindex st < Z.of_nat (length block) -> rindex st < Z.of_nat fuel ->
  exists t s st', recoverTree block uses fuel st = Ok (t, s, st').
Proof.
  revert st. induction fuel as [|fuel IH]; intros st Hr Hf; [lia|].
  simpl. destruct (block_at_is_Some block (rindex st) Hr) as [ins ->].
  assert (forall l st1 c s,
            rindex st1 <= rindex st ->
            exists c' s' st', recover_args uses (recoverTree block uses fuel)
                                l c s st1 = Ok (c', s', st')) as Hloop.
  { induction l as [|arg rest IHl]; intros st1 c s Hle; simpl; [by eauto|].
    destruct (Z.ltb_spec arg 0) as [Hneg|Hpos]; [by apply IHl|].
    destruct (uses_one uses arg && (arg =? rindex st1 - 1) && negb s) eqn:Hok;
      [|by apply IHl].
    apply andb_true_iff in Hok as [[_ Hadj%Z.eqb_eq]%andb_true_iff _].
    destruct (IH (rec_dec st1)) as (t & cs & st2 & Hrec); [simpl; lia..|].
    rewrite Hrec. simpl.
    apply recoverTree_post in Hrec as [Hle2 _]. simpl in Hle2.
    apply IHl. lia. }
  destruct (Hloop (rev (args ins)) (rec_enter st) [] false) as (c & s & st' & ->);
    [done|]. simpl. eauto.
Qed.

Lemma forest_positions_app f1 f2 :
  forest_positions block (f1 ++ f2) =
  forest_positions block f1 ++ forest_positions block f2.
Proof. unfold forest_positions. by rewrite bind_app. Qed.

(** The loop from any cursor inside the block: it returns, with every
    position below the cursor called once and covered once by the trees it
    adds, whose roots increase. *)
Lemma recover_loop_spec fuel : forall st trees,
  0 <= rindex st <= Z.of_nat (length block) -> rindex st <= Z.of_nat fuel ->
  exists new st',
    recover_loop block uses fuel st trees = Ok (new ++ trees, st') /\
    rindex st' = 0 /\
    rcalls st' = seq_range 0 (rindex st) ++ rcalls st /\
    forest_positions block new ≡ₚ seq_range 0 (rindex st) /\
    StronglySorted Z.lt new.*1 /\
    (forall r, r ∈ new.*1 -> 0 <= r < rindex st) /\
    Forall (fun p => represents block p.1 p.2) new.
Proof.
  induction fuel as [|fuel IH]; intros st trees Hr Hf.
  - exists [], st. assert (rindex st = 0) as H0 by lia.
    simpl. rewrite H0, seq_range_nil. simpl.
    split_and!; [done..| apply SSorted_nil | by intros r ?%elem_of_nil
                | constructor].
  - cbn [recover_loop]. destruct (Z.ltb_spec 0 (rindex st)) as [Hpos|Hz].
    + destruct (recoverTree_total (S fuel) (rec_dec st))
        as (t & s & st2 & Hrec); [simpl; lia..|].
      rewrite Hrec. cbn [mbind outcome_bind].
      pose proof (recoverTree_represents _ _ _ _ _ Hrec) as Hrep.
      apply recoverTree_post in Hrec as (Hle & Hc & _ & _ & Hp).
      cbn [rec_dec rindex rcalls] in *.
      replace (rindex st - 1 + 1) with (rindex st) in * by lia.
      destruct (IH st2 ((rindex st - 1, t) :: trees))
        as (new & st' & Hrun & H0 & Hcalls & Hperm & Hsort & Hroots & Hreps);
        [lia..|].
      exists (new ++ [(rindex st - 1, t)]), st'.
      rewrite <- app_assoc. split; [done|]. split; [done|].
      split; [|split; [|split; [|split]]].
      * rewrite Hcalls, Hc, app_assoc. f_equal. symmetry.
        apply seq_range_split. lia.
      * rewrite forest_positions_app, Hperm.
        unfold forest_positions at 1. simpl. rewrite app_nil_r, Hp.
        symmetry. by rewrite (seq_range_split 0 (rindex st2)) by lia.
      * rewrite fmap_app. apply StronglySorted_app_2.
        -- intros x1 x2 H1%Hroots H2. simpl in H2.
           apply list_elem_of_singleton in H2. lia.
        -- done.
        -- simpl. repeat constructor.
      * intros r. rewrite fmap_app, elem_of_app. simpl.
        intros [H1%Hroots | H2%list_elem_of_singleton]; lia.
      * apply Forall_app. split; [done|]. by repeat constructor.
    + exists [], st. assert (rindex st = 0) as H0 by lia.
      rewrite H0, seq_range_nil. simpl.
      split_and!; [done..| apply SSorted_nil | by intros r ?%elem_of_nil
                  | constructor].
Qed.

Lemma recover_trees_spec :
  exists trees st',
    recover_trees block uses = Ok (trees, st') /\
    rcalls st' = seq_range 0 (Z.of_nat (length block)) /\
    forest_positions block trees ≡ₚ seq_range 0 (Z.of_nat (length block)) /\
    StronglySorted Z.lt trees.*1 /\
    Forall (fun p => represents block p.1 p.2) trees.
Proof.
  destruct (recover_loop_spec (length block)
              {| rindex := Z.of_nat (length block); rcalls := [] |} [])
    as (new & st' & Hrun & _ & Hc & Hp & Hs & _ & Hreps); [simpl; lia..|].
  exists new, st'. unfold recover_trees. rewrite Hrun, app_nil_r.
  simpl in Hc, Hp. by rewrite app_nil_r in Hc.
Qed.

End RecoverProofs.

(** ** Slices of a block *)

Lemma slice_nil block lo : slice block lo lo = [].
Proof. unfold slice. by rewrite Z.sub_diag. Qed.

Lemma slice_split block lo mid hi :
  0 <= lo <= mid -> mid <= hi ->
  slice block lo hi = slice block lo mid ++ slice block mid hi.
Proof.
  intros H1 H2. unfold slice.
  replace (Z.to_nat (hi - lo)) with (Z.to_nat (mid - lo) + Z.to_nat (hi - mid))%nat
    by lia.
  rewrite <- take_take_drop, drop_drop.
  by replace (Z.to_nat lo + Z.to_nat (mid - lo))%nat with (Z.to_nat mid) by lia.
Qed.

Lemma slice_one block i ins :
  block_at block i = Some ins -> slice block i (i + 1) = [ins].
Proof.
  intros [H0 Hi]%block_at_Some. unfold slice.
  replace (i + 1 - i) with 1 by lia. simpl.
  rewrite <- (take_drop_middle _ _ _ Hi) at 1.
  rewrite drop_app_length'; [done|].
  rewrite length_take. apply lookup_lt_Some in Hi. lia.
Qed.

Lemma slice_all block : slice block 0 (Z.of_nat (length block)) = block.
Proof.
  unfold slice. rewrite Z.sub_0_r, Nat2Z.id. simpl. apply firstn_all.
Qed.

Lemma slice_snoc block lo i ins :
  0 <= lo <= i -> block_at block i = Some ins ->
  slice block lo (i + 1) = slice block lo i ++ [ins].
Proof.
  intros H Hi. rewrite (slice_split block lo i (i + 1)) by lia.
  by rewrite (slice_one _ _ _ Hi).
Qed.

Lemma const_operands_app v b1 b2 :
  const_operands v (b1 ++ b2) = const_operands v b1 + const_operands v b2.
Proof. induction b1 as [|i b1 IH]; simpl; [done | rewrite IH; lia]. Qed.

Lemma consts_in_app v l1 l2 :
  consts_in v (l1 ++ l2) = consts_in v l1 + consts_in v l2.
Proof. induction l1 as [|a l1 IH]; simpl; [done | rewrite IH; lia]. Qed.

Lemma consts_in_rev v l : consts_in v (rev l) = consts_in v l.
Proof.
  induction l as [|a l IH]; simpl; [done|].
  rewrite consts_in_app, IH. simpl. lia.
Qed.

(** ** Stack emitter: proofs *)

Lemma makeLocal_index arg st : eindex (makeLocal arg st).2 = eindex st.
Proof. unfold makeLocal. by destruct (locals st !! arg). Qed.

Lemma makeLocal_code arg st : wasmCode (makeLocal arg st).2 = wasmCode st.
Proof. unfold makeLocal. by destruct (locals st !! arg). Qed.

Lemma makeLocal_calls arg st : calls (makeLocal arg st).2 = calls st.
Proof. unfold makeLocal. by destruct (locals st !! arg). Qed.

Lemma makeLocal_lookup arg st :
  locals (makeLocal arg st).2 !! arg = Some (makeLocal arg st).1.
Proof.
  unfold makeLocal. destruct (locals st !! arg) eqn:H; simpl; [done|].
  apply lookup_insert_eq.
Qed.

Lemma makeLocal_mono arg st : locals st ⊆ locals (makeLocal arg st).2.
Proof.
  unfold makeLocal. destruct (locals st !! arg) eqn:H; simpl; [done|].
  by apply insert_subseteq.
Qed.

Lemma makeLocal_next arg st : nextLocal st <= nextLocal (makeLocal arg st).2.
Proof. unfold makeLocal. destruct (locals st !! arg); simpl; lia. Qed.

Lemma makeLocal_other arg st k :
  k <> arg -> locals (makeLocal arg st).2 !! k = locals st !! k.
Proof.
  intros Hne. unfold makeLocal. destruct (locals st !! arg); simpl; [done|].
  by apply lookup_insert_ne.
Qed.

Lemma makeLocal_slots base arg st :
  slots_from base st -> slots_from base (makeLocal arg st).2.
Proof.
  intros (Hb & Hran & Hsur & Hinj). unfold makeLocal.
  destruct (locals st !! arg) eqn:Harg; simpl; [done|].
  split_and!; simpl.
  - lia.
  - intros k s. rewrite lookup_insert. case_decide.
    + intros [= <-]. lia.
    + intros H'%Hran. lia.
  - intros s Hs. destruct (decide (s = nextLocal st)) as [->|Hne].
    + exists arg. by rewrite lookup_insert_eq.
    + destruct (Hsur s) as [k Hk]; [lia|]. exists k.
      rewrite lookup_insert_ne; [done|]. intros <-. congruence.
  - intros k1 k2 s. rewrite !lookup_insert. repeat case_decide; subst.
    + done.
    + intros [= <-] H'%Hran. lia.
    + intros H'%Hran [= <-]. lia.
    + apply Hinj.
Qed.

Lemma ref_operands_app k b1 b2 :
  ref_operands k (b1 ++ b2) = ref_operands k b1 + ref_operands k b2.
Proof. induction b1 as [|i b1 IH]; simpl; [done | rewrite IH; lia]. Qed.

Lemma ref_operands_nonneg k b : 0 <= ref_operands k b.
Proof.
  induction b as [|i b IH]; simpl; [done|].
  pose proof (refs_in_nonneg k (emitted_args i)). lia.
Qed.

Lemma within_nil lo k : within lo lo k = 0.
Proof. unfold within. destruct (Z.leb_spec lo k), (Z.ltb_spec k lo); simpl; lia. Qed.

Lemma within_split lo mid hi k :
  lo <= mid <= hi -> within lo hi k = within lo mid k + within mid hi k.
Proof.
  intros H. unfold within.
  destruct (Z.leb_spec lo k), (Z.ltb_spec k hi), (Z.leb_spec mid k),
    (Z.ltb_spec k mid); simpl; lia.
Qed.

Lemma within_one i k : within (i - 1) i k = if i - 1 =? k then 1 else 0.
Proof.
  unfold within.
  destruct (Z.leb_spec (i - 1) k), (Z.ltb_spec k i), (Z.eqb_spec (i - 1) k);
    simpl; lia.
Qed.

Lemma within_spec lo hi k :
  (lo <= k < hi /\ within lo hi k = 1) \/ (~ lo <= k < hi /\ within lo hi k = 0).
Proof.
  unfold within. destruct (Z.leb_spec lo k), (Z.ltb_spec k hi); simpl; lia.
Qed.

Lemma new_slot_refl st k : new_slot st st k = 0.
Proof. unfold new_slot. by destruct (locals st !! k). Qed.

Lemma new_slot_trans st st1 st' k :
  locals st ⊆ locals st1 ->
  new_slot st st' k <= new_slot st st1 k + new_slot st1 st' k.
Proof.
  intros H1. unfold new_slot.
  destruct (locals st !! k) as [s|] eqn:Hs.
  - apply (lookup_weaken _ _ _ _ Hs) in H1. rewrite H1. lia.
  - destruct (locals st1 !! k), (locals st' !! k); lia.
Qed.

Lemma new_slot_makeLocal arg st k :
  new_slot st (makeLocal arg st).2 k <= if arg =? k then 1 else 0.
Proof.
  unfold new_slot. destruct (locals st !! k) eqn:Hk; [by destruct (arg =? k)|].
  destruct (Z.eqb_spec arg k) as [->|Hne].
  - destruct (locals (makeLocal k st).2 !! k); lia.
  - rewrite makeLocal_other by done. by rewrite Hk.
Qed.

Section EmitProofs.
Variable block : list Ins.
Variable uses : list cell.

(** Induction over the calls of [visit], as [recoverTree_ind]; each case
    also has the runs it is about. *)
Lemma visit_ind
    (Q : EmitState -> EmitState -> Prop)
    (P : list Z -> EmitState -> EmitState -> Prop) :
  (forall st, P [] st st) ->
  (forall fuel arg rest st st',
      arg < 0 ->
      visit_args uses (visit block uses fuel) rest
        (unshift (I32Const (bitnot arg)) st) = Ok st' ->
      P rest (unshift (I32Const (bitnot arg)) st) st' ->
      P (arg :: rest) st st') ->
  (forall fuel arg rest st st1 st',
      0 <= arg -> uses_one uses arg = true -> arg = eindex st - 1 ->
      visit block uses fuel (emit_dec st) = Ok st1 ->
      visit_args uses (visit block uses fuel) rest st1 = Ok st' ->
      Q (emit_dec st) st1 -> P rest st1 st' ->
      P (arg :: rest) st st') ->
  (forall fuel arg rest st st',
      0 <= arg -> in_place uses arg st = false ->
      visit_args uses (visit block uses fuel) rest
        (unshift (GetLocal (makeLocal arg st).1) (makeLocal arg st).2) = Ok st' ->
      P rest (unshift (GetLocal (makeLocal arg st).1) (makeLocal arg st).2) st' ->
      P (arg :: rest) st st') ->
  (forall fuel st ins st',
      block_at block (eindex st) = Some ins ->
      visit_args uses (visit block uses fuel)
        (rev (drop (own_op ins).2 (args ins)))
        (unshift (own_op ins).1 (emit_enter st)) = Ok st' ->
      P (rev (drop (own_op ins).2 (args ins)))
        (unshift (own_op ins).1 (emit_enter st)) st' ->
      Q st st') ->
  (forall fuel st st', visit block uses fuel st = Ok st' -> Q st st') /\
  (forall fuel rargs st st',
      visit_args uses (visit block uses fuel) rargs st = Ok st' ->
      P rargs st st').
Proof.
  intros Hnil Hconst Hinl Hload Hvisit.
  assert (forall fuel,
            (forall st st', visit block uses fuel st = Ok st' -> Q st st') ->
            forall rargs st st',
              visit_args uses (visit block uses fuel) rargs st = Ok st' ->
              P rargs st st') as Hargs.
  { intros fuel Hself.
    induction rargs as [|arg rest IHl]; intros st1 st' Hloop; simpl in Hloop.
    - injection Hloop as <-. apply Hnil.
    - destruct (Z.ltb_spec arg 0) as [Hneg|Hpos].
      { by eapply Hconst; [|exact Hloop|apply IHl]. }
      fold (in_place uses arg st1) in Hloop.
      destruct (in_place uses arg st1) eqn:Hok.
      + unfold in_place in Hok. apply andb_true_iff in Hok as [Hu Hadj%Z.eqb_eq].
        destruct (visit block uses fuel (emit_dec st1)) as [st2| | |] eqn:Hrec;
          simpl in Hloop; [|done..].
        eapply (Hinl fuel _ _ _ st2); [done..| by apply Hself | by apply IHl].
      + assert (visit_args uses (visit block uses fuel) rest
                  (unshift (GetLocal (makeLocal arg st1).1) (makeLocal arg st1).2)
                = Ok st') as Hloop' by (by destruct (makeLocal arg st1)).
        eapply Hload; [done..| exact Hloop' | by apply IHl]. }
  assert (forall fuel st st', visit block uses fuel st = Ok st' -> Q st st')
    as Hv.
  { induction fuel as [|fuel IH]; intros st st' Hrun; [done|].
    simpl in Hrun.
    destruct (block_at block (eindex st)) as [ins|] eqn:Hins; [|done].
    assert (visit_args uses (visit block uses fuel)
              (rev (drop (own_op ins).2 (args ins)))
              (unshift (own_op ins).1 (emit_enter st)) = Ok st') as Hrun'
      by (by destruct (own_op ins)).
    eapply (Hvisit fuel _ _ _ Hins); [exact Hrun'|].
    by apply (Hargs fuel IH). }
  split; [done|]. intros fuel. apply Hargs, Hv.
Qed.

Lemma visit_posts :
  (forall fuel st st', visit block uses fuel st = Ok st' -> visit_post st st') /\
  (forall fuel rargs st st',
      visit_args uses (visit block uses fuel) rargs st = Ok st' ->
      visit_args_post rargs st st').
Proof.
  apply (visit_ind visit_post visit_args_post).
  - intros st. unfold visit_args_post. rewrite seq_range_nil.
    split_and!; try done; try lia. by exists [].
  - intros _ arg rest st st' Hneg _ (Hle & Hpos & Hc & [ops Hops] & Hl & Hn & Hs).
    split_and!; try done. exists (ops ++ [I32Const (bitnot arg)]).
    by rewrite <- app_assoc.
  - intros _ arg rest st st1 st' Hpos Hu Hadj _ _
      (Hr1 & Hc1 & (ops1 & Ho1 & _) & Hl1 & Hn1 & Hs1)
      (Hle & Hpos' & Hc & [ops Hops] & Hl & Hn & Hs).
    cbn [emit_dec eindex calls wasmCode locals nextLocal] in *.
    replace (eindex st - 1 + 1) with (eindex st) in * by lia.
    split_and!; try lia.
    + rewrite Hc, Hc1, app_assoc. f_equal. symmetry.
      apply seq_range_split. lia.
    + exists (ops ++ ops1). by rewrite Hops, Ho1, app_assoc.
    + by etrans.
    + intros base Hb. apply Hs, Hs1. done.
  - intros _ arg rest st st' Hpos Hno _
      (Hle & Hpos' & Hc & [ops Hops] & Hl & Hn & Hs).
    cbn [unshift eindex calls wasmCode locals nextLocal] in *.
    rewrite makeLocal_index in *. rewrite makeLocal_calls in *.
    rewrite makeLocal_code in *.
    split_and!; try done.
    + exists (ops ++ [GetLocal (makeLocal arg st).1]).
      by rewrite <- app_assoc.
    + etrans; [apply makeLocal_mono | done].
    + pose proof (makeLocal_next arg st). lia.
    + intros base Hb. apply Hs. by apply makeLocal_slots.
  - intros _ st ins st' Hins _ (Hle & Hpos' & Hc & [ops Hops] & Hl & Hn & Hs).
    cbn [unshift emit_enter eindex calls wasmCode locals nextLocal] in *.
    pose proof (block_at_range _ _ _ Hins) as Hr.
    split_and!; try done; try lia.
    + rewrite Hc, seq_range_snoc by lia. by rewrite <- app_assoc.
    + exists (ops ++ [(own_op ins).1]). rewrite <- app_assoc. split; [done|].
      by destruct ops.
Qed.

Lemma visit_post_holds fuel st st' :
  visit block uses fuel st = Ok st' -> visit_post st st'.
Proof. apply visit_posts. Qed.

Lemma visit_args_post_holds fuel rargs st st' :
  visit_args uses (visit block uses fuel) rargs st = Ok st' ->
  visit_args_post rargs st st'.
Proof. apply visit_posts. Qed.

(** A call at a position of the block returns, given fuel above the
    position. *)
Lemma visit_total fuel st :
  0 <= eindex st < Z.of_nat (length block) -> eindex st < Z.of_nat fuel ->
  exists st', visit block uses fuel st = Ok st'.
Proof.
  revert st. induction fuel as [|fuel IH]; intros st Hr Hf; [lia|].
  simpl. destruct (block_at_is_Some block (eindex st) Hr) as [ins ->].
  destruct (own_op ins) as [op lower].
  assert (forall l st1, eindex st1 <= eindex st ->
            exists st', visit_args uses (visit block uses fuel) l st1 = Ok st')
    as Hloop.
  { induction l as [|arg rest IHl]; intros st1 Hle; simpl; [by eauto|].
    destruct (Z.ltb_spec arg 0) as [Hneg|Hpos]; [by apply IHl|].
    destruct (uses_one uses arg && (arg =? eindex st1 - 1)) eqn:Hok.
    - apply andb_true_iff in Hok as [_ Hadj%Z.eqb_eq].
      destruct (IH (emit_dec st1)) as (st2 & Hrec); [simpl; lia..|].
      rewrite Hrec. simpl.
      apply visit_post_holds in Hrec as [Hle2 _]. simpl in Hle2.
      apply IHl. lia.
    - pose proof (makeLocal_index arg st1) as Hi.
      destruct (makeLocal arg st1) as [local st2]. simpl in Hi.
      apply IHl. simpl. lia. }
  apply Hloop. simpl. lia.
Qed.

Lemma store_local_index st : eindex (store_local st) = eindex st.
Proof.
  unfold store_local. destruct (locals st !! eindex st); [|done].
  destruct (wasmCode st) as [|op code]; [done|]. by case_decide.
Qed.

Lemma store_local_calls st : calls (store_local st) = calls st.
Proof.
  unfold store_local. destruct (locals st !! eindex st); [|done].
  destruct (wasmCode st) as [|op code]; [done|]. by case_decide.
Qed.

Lemma store_local_locals st : locals (store_local st) = locals st.
Proof.
  unfold store_local. destruct (locals st !! eindex st); [|done].
  destruct (wasmCode st) as [|op code]; [done|]. by case_decide.
Qed.

Lemma store_local_next st : nextLocal (store_local st) = nextLocal st.
Proof.
  unfold store_local. destruct (locals st !! eindex st); [|done].
  destruct (wasmCode st) as [|op code]; [done|]. by case_decide.
Qed.

Lemma store_local_slots base st :
  slots_from base st -> slots_from base (store_local st).
Proof.
  unfold slots_from. by rewrite store_local_locals, store_local_next.
Qed.

(** Induction over the iterations of the loop of lines 146-157. *)
Lemma emit_loop_ind (R : EmitState -> EmitState -> Prop) :
  (forall st, eindex st <= 0 -> R st st) ->
  (forall fuel st st1 st',
      0 < eindex st ->
      visit block uses fuel (store_local (emit_dec st)) = Ok st1 ->
      R st1 st' -> R st st') ->
  forall fuel st st', emit_loop block uses fuel st = Ok st' -> R st st'.
Proof.
  intros Hend Hstep. induction fuel as [|fuel IH]; intros st st' Hrun.
  - simpl in Hrun. destruct (Z.ltb_spec 0 (eindex st)); [done|].
    injection Hrun as <-. by apply Hend.
  - cbn [emit_loop] in Hrun. destruct (Z.ltb_spec 0 (eindex st)) as [Hpos|Hz].
    + destruct (visit block uses (S fuel) (store_local (emit_dec st)))
        as [st1| | |] eqn:Hv; [|done..].
      cbn [mbind outcome_bind] in Hrun.
      eapply Hstep; [done | exact Hv | by apply IH].
    + injection Hrun as <-. by apply Hend.
Qed.

(** The loop from any cursor inside the block returns. *)
Lemma emit_loop_total fuel : forall st,
  0 <= eindex st <= Z.of_nat (length block) -> eindex st <= Z.of_nat fuel ->
  exists st', emit_loop block uses fuel st = Ok st'.
Proof.
  induction fuel as [|fuel IH]; intros st Hr Hf.
  - simpl. destruct (Z.ltb_spec 0 (eindex st)); [lia | by eauto].
  - cbn [emit_loop]. destruct (Z.ltb_spec 0 (eindex st)) as [Hpos|Hz];
      [|by eauto].
    destruct (visit_total (S fuel) (store_local (emit_dec st))) as [st1 Hv].
    { rewrite store_local_index. simpl. lia. }
    { rewrite store_local_index. simpl. lia. }
    rewrite Hv. cbn [mbind outcome_bind].
    apply visit_post_holds in Hv as [Hle _].
    rewrite store_local_index in Hle. simpl in Hle.
    apply IH; lia.
Qed.

(** What the loop leaves behind. *)
Lemma emit_loop_post fuel st st' :
  0 <= eindex st ->
  emit_loop block uses fuel st = Ok st' ->
  eindex st' = 0 /\
  calls st' = seq_range 0 (eindex st) ++ calls st /\
  locals st ⊆ locals st' /\
  (forall base, slots_from base st -> slots_from base st').
Proof.
  intros H0 Hrun. revert H0. pattern st, st'. revert fuel st st' Hrun.
  apply emit_loop_ind.
  - intros st Hz H0. assert (eindex st = 0) as -> by lia.
    by rewrite seq_range_nil.
  - intros fuel st st1 st' Hpos Hv IH _.
    apply visit_post_holds in Hv as (Hle & Hc & _ & Hl & _ & Hs).
    rewrite store_local_index, store_local_calls, store_local_locals in *.
    cbn [emit_dec eindex calls locals] in *.
    replace (eindex st - 1 + 1) with (eindex st) in * by lia.
    destruct IH as (Hz & Hc' & Hl' & Hs'); [lia|].
    split_and!; [done| |by etrans|].
    + rewrite Hc', Hc, app_assoc. f_equal. symmetry.
      apply seq_range_split. lia.
    + intros base Hb. apply Hs', Hs, store_local_slots. done.
Qed.

(** The ghost field is only written: two runs from states with the same
    variables return states with the same variables. *)
Lemma visit_ghost fuel : forall st1 st2,
  same_emit st1 st2 ->
  agree same_emit (visit block uses fuel st1) (visit block uses fuel st2).
Proof.
  induction fuel as [|fuel IH]; intros st1 st2 Hst; [done|].
  simpl. destruct Hst as (Hi & Hc & Hl & Hn). rewrite <- Hi.
  destruct (block_at block (eindex st1)) as [ins|]; [|done].
  destruct (own_op ins) as [op lower].
  assert (forall l a b,
            same_emit a b ->
            agree same_emit
              (visit_args uses (visit block uses fuel) l a)
              (visit_args uses (visit block uses fuel) l b)) as Hloop.
  { induction l as [|arg rest IHl]; intros a b Hab; simpl; [done|].
    pose proof Hab as (Hi' & Hc' & Hl' & Hn'). rewrite <- Hi'.
    destruct (arg <? 0).
    { apply IHl. unfold same_emit. simpl. by rewrite Hi', Hc', Hl', Hn'. }
    destruct (uses_one uses arg && (arg =? eindex a - 1)).
    - assert (same_emit (emit_dec a) (emit_dec b)) as Hdec
        by (unfold same_emit; simpl; by rewrite Hi', Hc', Hl', Hn').
      specialize (IH _ _ Hdec).
      destruct (visit block uses fuel (emit_dec a)) as [a1| | |],
               (visit block uses fuel (emit_dec b)) as [b1| | |];
        simpl in *; try done.
      by apply IHl.
    - unfold makeLocal. rewrite <- Hl', <- Hn'.
      destruct (locals a !! arg) as [local|]; apply IHl; unfold same_emit;
        simpl; by rewrite Hi', Hc', ?Hl', ?Hn'. }
  apply Hloop. unfold same_emit. simpl. by rewrite Hi, Hc, Hl, Hn.
Qed.

(** The immediate pushes a call adds are those of the constant operands of
    the instructions it passes. *)
Lemma visit_consts :
  (forall fuel st st',
      visit block uses fuel st = Ok st' ->
      forall v,
        count_op (I32Const v) (wasmCode st') =
        count_op (I32Const v) (wasmCode st) +
        const_operands v (slice block (eindex st') (eindex st + 1))) /\
  (forall fuel rargs st st',
      visit_args uses (visit block uses fuel) rargs st = Ok st' ->
      forall v,
        count_op (I32Const v) (wasmCode st') =
        count_op (I32Const v) (wasmCode st) + consts_in v rargs +
        const_operands v (slice block (eindex st') (eindex st))).
Proof.
  apply (visit_ind
           (fun st st' => forall v,
              count_op (I32Const v) (wasmCode st') =
              count_op (I32Const v) (wasmCode st) +
              const_operands v (slice block (eindex st') (eindex st + 1)))
           (fun rargs st st' => forall v,
              count_op (I32Const v) (wasmCode st') =
              count_op (I32Const v) (wasmCode st) + consts_in v rargs +
              const_operands v (slice block (eindex st') (eindex st)))).
  - intros st v. rewrite slice_nil. simpl. lia.
  - intros fuel arg rest st st' Hneg _ IH v. rewrite IH. simpl.
    destruct (Z.ltb_spec arg 0); [|lia]. simpl.
    case_decide as Hd; destruct (Z.eqb_spec (bitnot arg) v); try lia.
    + congruence.
    + subst. done.
  - intros fuel arg rest st st1 st' Hpos Hu Hadj Hv Ha IH1 IH v.
    apply visit_post_holds in Hv as (Hr1 & _).
    apply visit_args_post_holds in Ha as (Hle & Hpos' & _).
    rewrite IH, IH1. cbn [emit_dec eindex wasmCode] in *.
    replace (eindex st - 1 + 1) with (eindex st) by lia.
    rewrite (slice_split block (eindex st') (eindex st1) (eindex st)) by lia.
    rewrite const_operands_app. simpl.
    destruct (Z.ltb_spec arg 0); [lia|]. simpl. lia.
  - intros fuel arg rest st st' Hpos Hno _ IH v. rewrite IH.
    cbn [unshift eindex wasmCode]. rewrite makeLocal_index, makeLocal_code.
    simpl. destruct (Z.ltb_spec arg 0); [lia|]. simpl. lia.
  - intros fuel st ins st' Hins Ha IH v.
    apply visit_args_post_holds in Ha as (Hle & Hpos' & _).
    pose proof (block_at_range _ _ _ Hins) as Hr.
    cbn [unshift emit_enter eindex wasmCode] in *.
    rewrite IH, (slice_snoc block _ _ ins) by (done || lia).
    rewrite const_operands_app, consts_in_rev. simpl.
    fold (emitted_args ins).
    assert ((own_op ins).1 <> I32Const v) as Hown
      by (unfold own_op; by destruct (kind ins)).
    case_decide; [done|]. lia.
Qed.

(** Slots and positions passed against the references examined: a
    position passed by a nested call is the target of a reference with use
    count 1, a key new to the slot table is the target of a reference that
    was loaded, and these are different references of the instructions
    passed. *)
Lemma visit_accounts :
  (forall fuel st st',
      visit block uses fuel st = Ok st' ->
      (forall k, eindex st' <= k < eindex st -> uses_one uses k = true) /\
      forall k,
        new_slot st st' k + within (eindex st') (eindex st) k <=
        ref_operands k (slice block (eindex st') (eindex st + 1))) /\
  (forall fuel rargs st st',
      visit_args uses (visit block uses fuel) rargs st = Ok st' ->
      (forall k, eindex st' <= k < eindex st -> uses_one uses k = true) /\
      forall k,
        new_slot st st' k + within (eindex st') (eindex st) k <=
        refs_in k rargs +
        ref_operands k (slice block (eindex st') (eindex st))).
Proof.
  apply (visit_ind
           (fun st st' =>
              (forall k, eindex st' <= k < eindex st -> uses_one uses k = true) /\
              forall k,
                new_slot st st' k + within (eindex st') (eindex st) k <=
                ref_operands k (slice block (eindex st') (eindex st + 1)))
           (fun rargs st st' =>
              (forall k, eindex st' <= k < eindex st -> uses_one uses k = true) /\
              forall k,
                new_slot st st' k + within (eindex st') (eindex st) k <=
                refs_in k rargs +
                ref_operands k (slice block (eindex st') (eindex st)))).
  - intros st. split; [lia|]. intros k.
    rewrite new_slot_refl, within_nil, slice_nil. simpl. lia.
  - intros fuel arg rest st st' Hneg _ [IH1 IH2]. split; [done|]. intros k.
    specialize (IH2 k). unfold new_slot in *. simpl in *.
    destruct (arg =? k); lia.
  - intros fuel arg rest st st1 st' Hpos Hu Hadj Hv Ha [Q1 Q2] [P1 P2].
    apply visit_post_holds in Hv as (Hr1 & _ & _ & Hl1 & _).
    apply visit_args_post_holds in Ha as (Hle & Hpos' & _).
    cbn [emit_dec eindex locals] in *.
    replace (eindex st - 1 + 1) with (eindex st) in * by lia.
    split.
    + intros k Hk. destruct (Z.lt_ge_cases k (eindex st1)); [apply P1; lia|].
      destruct (Z.eq_dec k arg) as [->|]; [done|]. apply Q1. lia.
    + intros k. specialize (Q2 k). specialize (P2 k).
      pose proof (new_slot_trans st st1 st' k Hl1) as Ht.
      assert (new_slot (emit_dec st) st1 k = new_slot st st1 k) as He by done.
      rewrite He in Q2.
      rewrite (within_split (eindex st') (eindex st1) (eindex st)) by lia.
      rewrite (within_split (eindex st1) (eindex st - 1) (eindex st)) by lia.
      rewrite within_one.
      rewrite (slice_split block (eindex st') (eindex st1) (eindex st)) by lia.
      rewrite ref_operands_app. simpl. rewrite Hadj.
      destruct (eindex st - 1 =? k); lia.
  - intros fuel arg rest st st' Hpos Hno _ [IH1 IH2].
    cbn [unshift eindex] in *. rewrite makeLocal_index in *.
    split; [done|]. intros k. specialize (IH2 k).
    pose proof (new_slot_trans st (makeLocal arg st).2 st' k
                  (makeLocal_mono arg st)) as Ht.
    pose proof (new_slot_makeLocal arg st k) as Hm.
    assert (new_slot (unshift (GetLocal (makeLocal arg st).1) (makeLocal arg st).2)
              st' k = new_slot (makeLocal arg st).2 st' k) as He by done.
    rewrite He in IH2. simpl. destruct (arg =? k); lia.
  - intros fuel st ins st' Hins Ha [IH1 IH2].
    apply visit_args_post_holds in Ha as (Hle & Hpos' & _).
    pose proof (block_at_range _ _ _ Hins) as Hr.
    cbn [unshift emit_enter eindex] in *. split; [done|]. intros k.
    specialize (IH2 k).
    assert (new_slot (unshift (own_op ins).1 (emit_enter st)) st' k =
            new_slot st st' k) as He by done.
    rewrite He in IH2.
    rewrite (slice_snoc block _ _ ins) by (done || lia).
    rewrite ref_operands_app. simpl. fold (emitted_args ins) in IH2.
    rewrite refs_in_rev in IH2. lia.
Qed.

Lemma store_local_consts st v :
  count_op (I32Const v) (wasmCode (store_local st)) =
  count_op (I32Const v) (wasmCode st).
Proof.
  unfold store_local. destruct (locals st !! eindex st) as [local|]; [|done].
  destruct (wasmCode st) as [|op code] eqn:Hcode; simpl.
  - by rewrite Hcode.
  - destruct (decide (op = GetLocal local)) as [->|Hop]; simpl.
    + done.
    + by rewrite Hcode.
Qed.

Lemma emit_loop_consts fuel st st' :
  0 <= eindex st ->
  emit_loop block uses fuel st = Ok st' ->
  forall v,
    count_op (I32Const v) (wasmCode st') =
    count_op (I32Const v) (wasmCode st) +
    const_operands v (slice block 0 (eindex st)).
Proof.
  intros H0 Hrun. revert H0. pattern st, st'. revert fuel st st' Hrun.
  apply emit_loop_ind.
  - intros st Hz H0 v. assert (eindex st = 0) as -> by lia.
    rewrite slice_nil. simpl. lia.
  - intros fuel st st1 st' Hpos Hv IH _ v.
    pose proof (proj1 visit_consts _ _ _ Hv v) as Hc.
    apply visit_post_holds in Hv as (Hle & _).
    rewrite store_local_index, store_local_consts in *.
    cbn [emit_dec eindex wasmCode] in *.
    replace (eindex st - 1 + 1) with (eindex st) in * by lia.
    rewrite IH, Hc by lia.
    rewrite (slice_split block 0 (eindex st1) (eindex st)) by lia.
    rewrite const_operands_app. lia.
Qed.

(** Only references get a slot: the keys of the slot table are not
    negative. *)
Lemma visit_keys :
  (forall fuel st st',
      visit block uses fuel st = Ok st' ->
      (forall k, is_Some (locals st !! k) -> 0 <= k) ->
      forall k, is_Some (locals st' !! k) -> 0 <= k) /\
  (forall fuel rargs st st',
      visit_args uses (visit block uses fuel) rargs st = Ok st' ->
      (forall k, is_Some (locals st !! k) -> 0 <= k) ->
      forall k, is_Some (locals st' !! k) -> 0 <= k).
Proof.
  apply (visit_ind
           (fun st st' =>
              (forall k, is_Some (locals st !! k) -> 0 <= k) ->
              forall k, is_Some (locals st' !! k) -> 0 <= k)
           (fun rargs st st' =>
              (forall k, is_Some (locals st !! k) -> 0 <= k) ->
              forall k, is_Some (locals st' !! k) -> 0 <= k)); try done.
  - intros fuel arg rest st st1 st' _ _ _ _ _ Q P H. by apply P, Q.
  - intros fuel arg rest st st' Hpos _ _ IH H. apply IH. simpl.
    intros k Hk. destruct (decide (k = arg)) as [->|Hne]; [done|].
    rewrite makeLocal_other in Hk by done. by apply H.
Qed.

(** The loop over [l1 ++ l2] is the loop over [l1] followed by the loop
    over [l2]. *)
Lemma visit_args_app self l1 l2 st :
  visit_args uses self (l1 ++ l2) st =
  visit_args uses self l1 st ≫= visit_args uses self l2.
Proof.
  revert st. induction l1 as [|arg l1 IH]; intros st; simpl; [done|].
  destruct (arg <? 0); [apply IH|].
  destruct (uses_one uses arg && (arg =? eindex st - 1)).
  - destruct (self (emit_dec st)) as [st2| | |]; simpl; [apply IH|done..].
  - destruct (makeLocal arg st). apply IH.
Qed.

(** A reference that is not compiled in place has its slot when the call
    returns: the one it had, or else the value of the counter. *)
Lemma visit_load_slot fuel st st' ins left arg right :
  visit block uses (S fuel) st = Ok st' ->
  block_at block (eindex st) = Some ins ->
  emitted_args ins = left ++ arg :: right ->
  0 <= arg ->
  exists str,
    visit_args uses (visit block uses fuel) (rev right)
      (unshift (own_op ins).1 (emit_enter st)) = Ok str /\
    (in_place uses arg str = false ->
     locals st' !! arg = Some (makeLocal arg str).1).
Proof.
  intros Hrun Hins Hargs Hpos. simpl in Hrun. rewrite Hins in Hrun.
  unfold emitted_args in Hargs.
  destruct (own_op ins) as [op lower]. simpl in *.
  rewrite Hargs, rev_app_distr in Hrun. simpl in Hrun.
  rewrite <- app_assoc, visit_args_app in Hrun.
  destruct (visit_args uses (visit block uses fuel) (rev right)
              (unshift op (emit_enter st))) as [str| | |] eqn:Hright;
    simpl in Hrun; [|done..].
  exists str. split; [done|]. intros Hno. unfold in_place in Hno.
  destruct (Z.ltb_spec arg 0); [lia|]. rewrite Hno in Hrun.
  pose proof (makeLocal_lookup arg str) as Hl.
  destruct (makeLocal arg str) as [local st2]. simpl in *.
  apply visit_args_post_holds in Hrun as (_ & _ & _ & _ & Hsub & _).
  by apply (lookup_weaken _ _ _ _ Hl) in Hsub.
Qed.

(** What [store_local] does to [wasmCode]. *)
Lemma store_local_code st :
  (locals st !! eindex st = None /\
   wasmCode (store_local st) = wasmCode st) \/
  exists l, locals st !! eindex st = Some l /\
    ((exists tl, wasmCode st = GetLocal l :: tl /\
                 wasmCode (store_local st) = TeeLocal l :: tl) \/
     (head (wasmCode st) <> Some (GetLocal l) /\
      wasmCode (store_local st) = SetLocal l :: wasmCode st)).
Proof.
  unfold store_local. destruct (locals st !! eindex st) as [l|]; [|by left].
  right. exists l. split; [done|].
  destruct (wasmCode st) as [|op code] eqn:Hcode.
  - right. simpl. by rewrite Hcode.
  - destruct (decide (op = GetLocal l)) as [->|Hne].
    + left. by exists code.
    + right. simpl. rewrite Hcode. split; [|done]. congruence.
Qed.

Lemma emit_loop_reach fuel st st' :
  emit_loop block uses fuel st = Ok st' ->
  rtc (loop_step block uses) st st'.
Proof.
  revert fuel st st'. apply emit_loop_ind.
  - intros st _. apply rtc_refl.
  - intros fuel st st1 st' Hpos Hv IH.
    eapply rtc_l; [|exact IH]. split; [done|]. by exists fuel.
Qed.

Lemma reach_locals st st' :
  rtc (loop_step block uses) st st' -> locals st ⊆ locals st'.
Proof.
  induction 1 as [st|st st1 st' [_ [fuel Hv]] _ IH]; [done|].
  apply visit_post_holds in Hv as (_ & _ & _ & Hl & _).
  rewrite store_local_locals in Hl. etrans; [exact Hl | exact IH].
Qed.

(** Later iterations leave the operation sequence in place behind what they
    add, but for a load at its head, which the next store may fuse. *)
Lemma reach_code st st' :
  rtc (loop_step block uses) st st' ->
  exists pre c', wasmCode st' = pre ++ c' /\ fused (wasmCode st) c'.
Proof.
  revert st'. apply rtc_ind_r.
  - exists [], (wasmCode st). split; [done | by left].
  - intros st1 st2 _ [_ [fuel Hv]] (pre & c' & Hcode & Hf).
    apply visit_post_holds in Hv as (_ & _ & (ops & Hops & _) & _).
    destruct (store_local_code (emit_dec st1))
      as [[_ Hs] | (l & _ & [(tl & Hget & Hs) | (_ & Hs)])];
      rewrite Hs in Hops; simpl in *.
    + exists (ops ++ pre), c'. by rewrite Hops, Hcode, app_assoc.
    + rewrite Hcode in Hget. destruct pre as [|x pre]; simpl in Hget.
      * exists ops, (TeeLocal l :: tl). split; [done|].
        destruct Hf as [Hf | (l' & tl' & _ & Hf)]; [|congruence].
        right. exists l, tl. by rewrite <- Hf.
      * injection Hget as -> <-.
        exists (ops ++ TeeLocal l :: pre), c'. by rewrite Hops, <- app_assoc.
    + exists (ops ++ SetLocal l :: pre), c'.
      by rewrite Hops, Hcode, <- app_assoc.
Qed.

End EmitProofs.

(** ** The slot table on a block with strictly backward references *)

Lemma refs_in_drop_le k n l : refs_in k (drop n l) <= refs_in k l.
Proof.
  rewrite <- (take_drop n l) at 2. rewrite refs_in_app.
  pose proof (refs_in_nonneg k (take n l)). lia.
Qed.

Lemma ref_operands_le_count k b : ref_operands k b <= ref_count k b.
Proof.
  induction b as [|ins b IH]; simpl; [done|].
  pose proof (refs_in_drop_le k (own_op ins).2 (args ins)).
  unfold emitted_args. lia.
Qed.

Lemma ref_operands_slice_le k block lo hi :
  0 <= lo <= hi -> hi <= Z.of_nat (length block) ->
  ref_operands k (slice block lo hi) <= ref_operands k block.
Proof.
  intros H1 H2.
  assert (block = slice block 0 lo ++ slice block lo hi ++
                  slice block hi (Z.of_nat (length block))) as Hb.
  { rewrite <- (slice_split block lo hi) by lia.
    rewrite <- (slice_split block 0 lo) by lia. by rewrite slice_all. }
  rewrite Hb at 2. rewrite !ref_operands_app.
  pose proof (ref_operands_nonneg k (slice block 0 lo)).
  pose proof (ref_operands_nonneg k (slice block hi (Z.of_nat (length block)))).
  lia.
Qed.

Lemma refs_in_pos_elem k l : 1 <= refs_in k l -> k ∈ l.
Proof.
  induction l as [|a l IH]; simpl; [lia|].
  destruct (Z.eqb_spec a k) as [->|_]; [by left|].
  intros H. right. apply IH. lia.
Qed.

Lemma ref_operands_pos k b :
  1 <= ref_operands k b ->
  exists j ins, b !! j = Some ins /\ k ∈ emitted_args ins.
Proof.
  induction b as [|ins b IH]; simpl; [lia|]. intros H.
  destruct (Z.le_gt_cases 1 (refs_in k (emitted_args ins))) as [Hi|Hi].
  - exists 0%nat, ins. split; [done|]. by apply refs_in_pos_elem.
  - destruct IH as (j & ins' & Hj & Hk); [lia|]. by exists (S j), ins'.
Qed.

Lemma slice_lookup block lo hi j ins :
  0 <= lo -> slice block lo hi !! j = Some ins ->
  block_at block (lo + Z.of_nat j) = Some ins /\ lo + Z.of_nat j < hi.
Proof.
  intros H0 Hj. unfold slice in Hj.
  apply lookup_take_Some in Hj as [Hj Hlt]. rewrite lookup_drop in Hj.
  split; [|lia]. apply block_at_Some. split; [lia|].
  by replace (Z.to_nat (lo + Z.of_nat j)) with (Z.to_nat lo + j)%nat by lia.
Qed.

Lemma emitted_args_subset ins k : k ∈ emitted_args ins -> k ∈ args ins.
Proof.
  unfold emitted_args. intros H.
  rewrite <- (take_drop (own_op ins).2 (args ins)). apply elem_of_app. by right.
Qed.

Section WellFormed.
Variable block : list Ins.
Hypothesis Hwf : strictly_backward block = true.

(** The target of a reference examined in a slice lies below the top of the
    slice, strictly below the instruction that holds the reference. *)
Lemma ref_operands_backward k lo hi :
  0 <= lo -> 1 <= ref_operands k (slice block lo hi) -> k < hi - 1.
Proof.
  intros H0 (j & ins & Hj & Hk)%ref_operands_pos.
  apply slice_lookup in Hj as [[_ Hp]%block_at_Some Hlt]; [|done].
  apply emitted_args_subset in Hk.
  pose proof (refs_below_lookup 0 0 block _ ins k Hwf Hp Hk). lia.
Qed.

Lemma loop_inv_step st st1 :
  rtc (loop_step block (use_table block)) (emit_init block) st ->
  loop_inv block (use_table block) st ->
  loop_step block (use_table block) st st1 ->
  loop_inv block (use_table block) st1.
Proof.
  intros Hreach [Hr Hinv] Hstep. pose proof Hstep as [Hpos [fuel Hv]].
  pose proof (visit_post_holds _ _ _ _ _ Hv) as (Hr1 & _ & _ & Hl & _).
  pose proof (proj1 (visit_accounts block (use_table block)) _ _ _ Hv)
    as [A1 A2].
  rewrite store_local_index, ?store_local_locals in *.
  cbn [emit_dec eindex locals] in *.
  replace (eindex st - 1 + 1) with (eindex st) in * by lia.
  split; [lia|]. intros k Hk.
  assert (ref_operands k (slice block (eindex st1) (Z.of_nat (length block))) =
          ref_operands k (slice block (eindex st1) (eindex st)) +
          ref_operands k (slice block (eindex st) (Z.of_nat (length block))))
    as Hsplit.
  { rewrite (slice_split block (eindex st1) (eindex st)
               (Z.of_nat (length block))) by lia.
    apply ref_operands_app. }
  pose proof (ref_operands_nonneg k (slice block (eindex st1) (eindex st))) as Hn1.
  pose proof (ref_operands_nonneg k
                (slice block (eindex st) (Z.of_nat (length block)))) as Hn2.
  pose proof (ref_operands_slice_le k block (eindex st1)
                (Z.of_nat (length block)) ltac:(lia) ltac:(lia)) as Hle.
  pose proof (ref_operands_le_count k block) as Hcnt.
  specialize (A2 k).
  assert (new_slot (store_local (emit_dec st)) st1 k =
          match locals st !! k with None => 1 | Some _ => 0 end) as Hnew.
  { unfold new_slot. rewrite store_local_locals. simpl.
    destruct Hk as [s Hs]. rewrite Hs. by destruct (locals st !! k). }
  rewrite Hnew in A2.
  assert (0 <= k) as Hk0.
  { apply (proj1 (visit_keys block (use_table block)) _ _ _ Hv); [|done].
    intros k' Hk'. rewrite store_local_locals in Hk'. by apply Hinv. }
  split; [done|].
  destruct (within_spec (eindex st1) (eindex st - 1) k) as [[Hin Hw]|[Hout Hw]];
    rewrite Hw in A2.
  - (* [k] was passed by a nested call: it is referenced once *)
    exfalso. pose proof (uses_one_count block k ltac:(lia) (A1 k Hin)) as Hone.
    destruct (locals st !! k) as [s|] eqn:Hs.
    + destruct (Hinv k) as (_ & Hold & _); [by eexists|]. lia.
    + lia.
  - destruct (locals st !! k) as [s|] eqn:Hs.
    + destruct (Hinv k) as (_ & Hold & Hcase); [by eexists|]. split; [lia|].
      destruct Hcase as [Hlt | (stk & stk1 & (H1 & H2 & H3) & H4 & H5)].
      * destruct (Z.eq_dec k (eindex st - 1)) as [Heq|Hne].
        -- right. exists st, st1. unfold iteration.
           split_and!; first [done | lia | by eexists].
        -- left. lia.
      * right. exists stk, stk1. unfold iteration. split_and!; try done.
        eapply rtc_r; [exact H3 | exact Hstep].
    + split; [lia|]. left.
      pose proof (ref_operands_backward k (eindex st1) (eindex st)
                    ltac:(lia) ltac:(lia)). lia.
Qed.

Lemma loop_inv_reach st :
  rtc (loop_step block (use_table block)) (emit_init block) st ->
  loop_inv block (use_table block) st.
Proof.
  revert st. apply rtc_ind_r.
  - split; [simpl; lia|]. intros k [s Hs]. simpl in Hs.
    by rewrite lookup_empty in Hs.
  - intros st st1 Hreach Hstep IH. by eapply loop_inv_step.
Qed.

End WellFormed.

(** ** Slots and positions compiled in place, on any block *)

Lemma has_slot_step st st' k :
  locals st ⊆ locals st' -> has_slot st' k <= has_slot st k + new_slot st st' k.
Proof.
  intros Hsub. unfold has_slot, new_slot.
  destruct (locals st !! k) as [s|] eqn:Hs.
  - apply (lookup_weaken _ _ _ _ Hs) in Hsub. rewrite Hsub. lia.
  - destruct (locals st' !! k); lia.
Qed.

(** One iteration, for the count of the references examined. *)
Lemma loop_step_accounts block uses st st1 k :
  0 <= eindex st <= Z.of_nat (length block) ->
  loop_step block uses st st1 ->
  0 <= eindex st1 < eindex st /\
  (forall j, eindex st1 <= j < eindex st - 1 -> uses_one uses j = true) /\
  has_slot st1 k + within (eindex st1) (eindex st - 1) k +
  ref_operands k (slice block (eindex st) (Z.of_nat (length block))) <=
  has_slot st k +
  ref_operands k (slice block (eindex st1) (Z.of_nat (length block))).
Proof.
  intros Hr [Hpos [fuel Hv]].
  pose proof (visit_post_holds _ _ _ _ _ Hv) as (Hr1 & _ & _ & Hl & _).
  pose proof (proj1 (visit_accounts block uses) _ _ _ Hv) as [A1 A2].
  rewrite store_local_index, ?store_local_locals in *.
  cbn [emit_dec eindex locals] in *.
  replace (eindex st - 1 + 1) with (eindex st) in * by lia.
  split; [lia|]. split; [done|]. specialize (A2 k).
  pose proof (has_slot_step (store_local (emit_dec st)) st1 k) as Hs.
  rewrite store_local_locals in Hs. specialize (Hs Hl).
  assert (has_slot (store_local (emit_dec st)) k = has_slot st k) as He
    by (unfold has_slot; by rewrite store_local_locals).
  rewrite He in Hs.
  rewrite (slice_split block (eindex st1) (eindex st)
             (Z.of_nat (length block))) by lia.
  rewrite ref_operands_app. lia.
Qed.

(** Every key of the slot table is the target of a reference examined so
    far. *)
Lemma reach_slot_refs block uses st k :
  rtc (loop_step block uses) (emit_init block) st ->
  0 <= eindex st <= Z.of_nat (length block) /\
  has_slot st k <=
  ref_operands k (slice block (eindex st) (Z.of_nat (length block))).
Proof.
  revert st. apply rtc_ind_r.
  - split; [simpl; lia|]. unfold has_slot. simpl. rewrite lookup_empty.
    apply ref_operands_nonneg.
  - intros st st1 _ Hstep [Hr IH].
    destruct (loop_step_accounts block uses st st1 k Hr Hstep) as (Hr1 & _ & Hacc).
    split; [lia|].
    destruct (within_spec (eindex st1) (eindex st - 1) k) as [[_ Hw]|[_ Hw]];
      rewrite Hw in Hacc; lia.
Qed.

(** A position compiled in place, passed by a nested call of [visit], never
    has a slot: the one reference to it is the one compiled in place. *)
Lemma in_place_no_slot block est st st1 k :
  iteration block (use_table block) est st st1 ->
  eindex est = 0 ->
  eindex st1 <= k < eindex st - 1 ->
  locals est !! k = None.
Proof.
  intros (Hreach & Hstep & Hrest) Hz Hk.
  destruct (reach_slot_refs block (use_table block) st k Hreach) as [Hr Hs].
  destruct (loop_step_accounts block (use_table block) st st1 k Hr Hstep)
    as (Hr1 & Hone & Hacc).
  pose proof (uses_one_count block k ltac:(lia) (Hone k Hk)) as Hcount.
  assert (forall st',
            rtc (loop_step block (use_table block)) st1 st' ->
            0 <= eindex st' <= Z.of_nat (length block) /\
            has_slot st' k + 1 <=
            ref_operands k (slice block (eindex st') (Z.of_nat (length block))))
    as Hinv.
  { apply rtc_ind_r.
    - split; [lia|].
      destruct (within_spec (eindex st1) (eindex st - 1) k) as [[_ Hw]|[Hw _]];
        [rewrite Hw in Hacc; lia | lia].
    - intros sa sb _ Hab [Hra IH].
      destruct (loop_step_accounts block (use_table block) sa sb k Hra Hab)
        as (Hrb & _ & Hacc').
      split; [lia|].
      destruct (within_spec (eindex sb) (eindex sa - 1) k) as [[_ Hw]|[_ Hw]];
        rewrite Hw in Hacc'; lia. }
  destruct (Hinv est Hrest) as [_ Hfinal]. rewrite Hz in Hfinal.
  rewrite slice_all in Hfinal.
  pose proof (ref_operands_le_count k block) as Hle.
  unfold has_slot in Hfinal. destruct (locals est !! k); [lia | done].
Qed.

(** Every position at or above the cursor has been passed by an iteration
    of the loop. *)
Lemma reach_covers block uses st i :
  rtc (loop_step block uses) (emit_init block) st ->
  eindex st <= i < Z.of_nat (length block) ->
  exists sa sb,
    iteration block uses st sa sb /\ eindex sb <= i < eindex sa.
Proof.
  intros Hreach. revert st Hreach i. apply (rtc_ind_r (fun st =>
    forall i, eindex st <= i < Z.of_nat (length block) ->
      exists sa sb, iteration block uses st sa sb /\ eindex sb <= i < eindex sa)).
  - intros i Hi. simpl in Hi. lia.
  - intros st st1 Hreach Hstep IH i Hi.
    destruct (Z.lt_ge_cases i (eindex st)) as [Hlt|Hge].
    + exists st, st1. split; [|lia]. split_and!; [done | done | apply rtc_refl].
    + destruct (IH i ltac:(lia)) as (sa & sb & (H1 & H2 & H3) & Hab).
      exists sa, sb. split; [|done]. split_and!; [done | done |].
      eapply rtc_r; [exact H3 | exact Hstep].
Qed.

(** The keys of the slot table are not negative. *)
Lemma reach_keys block uses st k :
  rtc (loop_step block uses) (emit_init block) st ->
  is_Some (locals st !! k) -> 0 <= k.
Proof.
  intros Hreach. revert st Hreach k. apply (rtc_ind_r (fun st =>
    forall k, is_Some (locals st !! k) -> 0 <= k)).
  - intros k [s Hs]. simpl in Hs. by rewrite lookup_empty in Hs.
  - intros st st1 _ [_ [fuel Hv]] IH k Hk.
    apply (proj1 (visit_keys block uses) _ _ _ Hv); [|done].
    intros k' Hk'. rewrite store_local_locals in Hk'. by apply IH.
Qed.

(** The loop starts with an empty table and the counter at 100. *)
Lemma emit_init_slots block : slots_from 100 (emit_init block).
Proof.
  split_and!; simpl.
  - done.
  - intros k s Hk. by rewrite lookup_empty in Hk.
  - intros s Hs. lia.
  - intros k1 k2 s Hk. by rewrite lookup_empty in Hk.
Qed.

(** ** The transform returns when its use counter does *)

Lemma stackify_total block :
  count_uses block = Ok (use_table block) -> exists r, stackify block = Ok r.
Proof.
  intros Hu. unfold stackify. rewrite Hu. simpl.
  destruct (recover_trees_spec block (use_table block))
    as (trees & rst & -> & _).
  destruct (emit_loop_total block (use_table block) (length block)
              (emit_init block)) as [est Hest]; [simpl; lia..|].
  unfold emit_code. rewrite Hest. simpl. eauto.
Qed.

(** [stackify] returns what the two passes return. *)
Lemma stackify_Ok block r :
  stackify block = Ok r ->
  exists rst est,
    recover_trees block (use_table block) = Ok (s_trees r, rst) /\
    emit_code block (use_table block) = Ok est /\
    s_uses r = use_table block /\
    s_code r = wasmCode est /\ s_locals r = locals est.
Proof.
  unfold stackify, use_table.
  destruct (count_uses block) as [uses| | |]; simpl; [|done..].
  destruct (recover_trees block uses) as [[trees rst]| | |];
    simpl; [|done..].
  destruct (emit_code block uses) as [est| | |]; simpl; [|done..].
  intros [= <-]. by exists rst, est.
Qed.

(** The use counter raises nothing but the error of [push], and [stackify]
    raises nothing but what its use counter raises. *)
Lemma count_loop_outcome block : forall uses,
  (exists uses', count_loop block uses = Ok uses') \/
  count_loop block uses = RangeError.
Proof.
  induction block as [|ins block IH]; intros uses; simpl; [by eauto|].
  unfold count_ins, uses_push.
  destruct (Z.of_nat (length uses) <? array_max); simpl; [apply IH | by right].
Qed.

Lemma stackify_outcome block :
  (exists uses r, count_uses block = Ok uses /\ stackify block = Ok r) \/
  (count_uses block = RangeError /\ stackify block = RangeError).
Proof.
  destruct (count_loop_outcome block []) as [[uses Hu] | Hu].
  - left. pose proof (use_table_Ok _ _ Hu) as <-.
    destruct (stackify_total block Hu) as [r Hr]. by exists (use_table block), r.
  - right. split; [done|]. unfold stackify, count_uses. by rewrite Hu.
Qed.

(** On a block whose references are strictly backward, and which is no
    longer than an array can be, the use counter returns. *)
Lemma count_uses_returns block :
  strictly_backward block = true -> Z.of_nat (length block) <= array_max ->
  exists uses, count_uses block = Ok uses.
Proof.
  intros Hwf Hmax.
  destruct (count_uses_no_forward block) as (uses & Hu & _); [|done|by eauto].
  by apply refs_below_weaken.
Qed.

(** From the table [uses] of a counter that returned to [use_table], with
    the result [r] of [stackify]. *)
Tactic Notation "with_table" hyp(Huses) "as" ident(r) ident(Hr) :=
  pose proof (use_table_Ok _ _ Huses) as <-;
  destruct (stackify_total _ Huses) as [r Hr].

(** ** The properties of the transform *)

(** C1, on the block [v0 = LocalGet 0; v1 = LocalGet 1; v2 = Add v1 v0].
    The right operand [Ref(0)] of the [Add] is not adjacent and fails to
    inline in both passes.  The Tree Recoverer then leaves the left operand
    [Ref(1)] as the back-reference [tree1] and makes instruction 1 a root of
    its own; the Stack Emitter compiles [Ref(1)] in place: [get_local 1]
    stands inside the code of the [Add], instruction 1 gets no slot and no
    load, and the one call of the loop for position 2 passes positions 2
    and 1. *)
Theorem emitter_inlines_after_failure :
  let block := [mkIns LocalGet [bitnot 0]; mkIns LocalGet [bitnot 1];
                mkIns Add [1; 0]] in
  exists r,
    stackify block = Ok r /\
    s_trees r = [(0, Node LocalGet [CNum 0]); (1, Node LocalGet [CNum 1]);
                 (2, Node Add [CStr 1; CStr 0])] /\
    s_code r = [GetLocal 0; SetLocal 100; GetLocal 1; GetLocal 100; I32Add] /\
    s_locals r !! 1 = None /\ s_locals r !! 0 = Some 100 /\
    exists st,
      visit block (s_uses r) 3
        (mkEmit 2 [] ∅ 100 []) = Ok st /\
      eindex st = 1 /\
      wasmCode st = [GetLocal 1; GetLocal 100; I32Add].
Proof.
  eexists. split; [reflexivity|]. split_and!; try reflexivity.
  eexists. split; [reflexivity|]. split; reflexivity.
Qed.

(** C2, as the code has it.  In a call of [recoverTree] on instruction
    [ins], take an operand [Ref(arg)] of [ins], with the operands [left]
    before it and [right] after it.  The loop has examined [right] when it
    comes to the operand:
    that run leaves the children [cr], the flag [sr] and the cursor
    [rindex str], and [sr] tells whether an operand examined so far in this
    call (an operand to the right, or one inside a tree inlined to the
    right) became a back-reference.  The operand is inlined as a nested tree
    (the tree [recoverTree] returns for the position before the cursor)
    exactly when its use count is 1, [arg] is the cursor minus 1 and [sr] is
    not set.  Otherwise its child is the back-reference leaf naming [arg],
    and the flag stays set for the rest of the call: no operand to the left
    is inlined and the call returns [stopped = true]. *)
Theorem inline_rule (block : list Ins) (uses : list cell) (fuel : nat)
    (st st' : RecState) (tree : Tree) (stopped : bool) (ins : Ins)
    (left right : list Z) (arg : Z) :
  recoverTree block uses (S fuel) st = Ok (tree, stopped, st') ->
  block_at block (rindex st) = Some ins ->
  args ins = left ++ arg :: right ->
  0 <= arg ->
  exists cr sr str cl child,
    recover_args uses (recoverTree block uses fuel) (rev right) [] false
      (rec_enter st) = Ok (cr, sr, str) /\
    sr = existsb child_has_str cr /\
    tree = Node (kind ins) (cl ++ child :: cr) /\
    length cl = length left /\ length cr = length right /\
    (is_tree child = true <->
       uses_one uses arg = true /\ arg = rindex str - 1 /\ sr = false) /\
    (is_tree child = true ->
       exists t s2 st2,
         child = CTree t /\
         recoverTree block uses fuel (rec_dec str) = Ok (t, s2, st2)) /\
    (is_tree child = false ->
       child = CStr arg /\ stopped = true /\
       Forall (fun c => is_tree c = false) cl).
Proof.
  intros Hrun Hins Hargs Hpos. simpl in Hrun. rewrite Hins in Hrun.
  rewrite Hargs, rev_app_distr in Hrun. simpl in Hrun.
  rewrite <- app_assoc, recover_args_app in Hrun. simpl in Hrun.
  destruct (recover_args uses (recoverTree block uses fuel) (rev right) []
              false (rec_enter st)) as [[[cr sr] str]| | |] eqn:Hright;
    simpl in Hrun; [|done..].
  pose proof (recover_args_post _ _ _ _ _ _ _ _ _ _ Hright)
    as (_ & _ & _ & new & Hcr & Hlen & _ & Hsr & _).
  rewrite app_nil_r in Hcr. subst new. simpl in Hsr.
  rewrite length_rev in Hlen.
  destruct (Z.ltb_spec arg 0) as [?|_]; [lia|].
  destruct (uses_one uses arg && (arg =? rindex str - 1) && negb sr) eqn:Hok.
  - apply andb_true_iff in Hok as [[Hu Hadj%Z.eqb_eq]%andb_true_iff Hs%negb_true_iff].
    destruct (recoverTree block uses fuel (rec_dec str))
      as [[[t cs] st2]| | |] eqn:Hrec; simpl in Hrun; [|done..].
    destruct (recover_args uses (recoverTree block uses fuel) (rev left)
                (CTree t :: cr) (if cs then true else sr) st2)
      as [[[c' s'] st3]| | |] eqn:Hleft; simpl in Hrun; [|done..].
    injection Hrun as <- <- <-.
    pose proof (recover_args_post _ _ _ _ _ _ _ _ _ _ Hleft)
      as (_ & _ & _ & cl & -> & Hlen' & _).
    rewrite length_rev in Hlen'.
    exists cr, sr, str, cl, (CTree t). split_and!; try done.
    intros _. by exists t, cs, st2.
  - destruct (recover_args uses (recoverTree block uses fuel) (rev left)
                (CStr arg :: cr) true str)
      as [[[c' s'] st3]| | |] eqn:Hleft; simpl in Hrun; [|done..].
    injection Hrun as <- <- <-.
    apply recover_args_stopped in Hleft as (-> & -> & cl & -> & Hlen' & Hall).
    rewrite length_rev in Hlen'.
    exists cr, sr, str, cl, (CStr arg). split_and!; try done.
    split; [done|]. intros (Hu & Hadj & Hs). subst sr. rewrite Hs in Hok.
    rewrite Hu, Hadj, Z.eqb_refl in Hok. done.
Qed.

(** Instruction 3 of [demo2] is [Add [1; 2]].  Its operand [Ref(1)] has use
    count 1 and is the position before the cursor once instruction 2 has
    been inlined, but the tree inlined for [Ref(2)] holds the back-reference
    [tree0], so the flag is set and [Ref(1)] stays a back-reference. *)
Lemma inline_rule_witness :
  exists cr sr str cl child,
    recover_args (use_table demo2)
      (recoverTree demo2 (use_table demo2) 3) (rev [2]) [] false
      (rec_enter (mkRec 3 [])) = Ok (cr, sr, str) /\
    sr = existsb child_has_str cr /\
    Node Add [CStr 1; CTree (Node Add [CStr 0; CNum 2])] =
      Node (kind (mkIns Add [1; 2])) (cl ++ child :: cr) /\
    length cl = length (@nil Z) /\ length cr = length [2] /\
    (is_tree child = true <->
       uses_one (use_table demo2) 1 = true /\ 1 = rindex str - 1 /\
       sr = false) /\
    (is_tree child = true ->
       exists t s2 st2,
         child = CTree t /\
         recoverTree demo2 (use_table demo2) 3 (rec_dec str) =
           Ok (t, s2, st2)) /\
    (is_tree child = false ->
       child = CStr 1 /\ true = true /\
       Forall (fun c => is_tree c = false) cl).
Proof.
  apply (inline_rule demo2 (use_table demo2) 3 (mkRec 3 []) (mkRec 2 [2; 3])
           (Node Add [CStr 1; CTree (Node Add [CStr 0; CNum 2])]) true
           (mkIns Add [1; 2]) [] [2] 1).
  - reflexivity.
  - reflexivity.
  - reflexivity.
  - lia.
Defined.

(** C2, counterexample.  In the call of [recoverTree] on instruction 3 of
    [demo2], [Add [1; 2]], the operand [Ref(1)] has use count 1 and names
    the position before the cursor, and the only operand to its right,
    [Ref(2)], has been inlined as a nested tree: no operand to its right has
    failed to inline.  Yet [Ref(1)] is not inlined: the call returns the
    tree with the back-reference leaf [tree1].  The tree inlined for
    [Ref(2)] holds the back-reference [tree0], and the flag its call
    returns is taken over (line 64). *)
Lemma nested_failure_stops_inlining :
  exists uses cr sr str st',
    count_uses demo2 = Ok uses /\
    recover_args uses (recoverTree demo2 uses 3) (rev [2]) [] false
      (rec_enter (mkRec 3 [])) = Ok (cr, sr, str) /\
    uses_one uses 1 = true /\ 1 = rindex str - 1 /\
    Forall (fun c => is_tree c = true) cr /\
    recoverTree demo2 uses 4 (mkRec 3 []) =
      Ok (Node Add [CStr 1; CTree (Node Add [CStr 0; CNum 2])], true, st').
Proof.
  do 5 eexists. split; [reflexivity|]. split; [reflexivity|].
  split; [reflexivity|]. split; [reflexivity|].
  split; [by repeat constructor | reflexivity].
Qed.

(** C4, as the code has it.  For every block on which the use counter
    returns and every value [v], the operation sequence holds one
    [i32.const v] for each [Const(v)] operand among the arguments the loop of
    [visit] runs over: every operand of an [Add], and every operand but the
    first of a [LocalGet] or [LocalSet].
    The first operand of a [LocalGet] or [LocalSet] is not pushed: its
    complement is the local index of the [get_local] or [set_local] of the
    instruction ([own_op]). *)
Theorem const_operands_pushed (block : list Ins) (uses : list cell) (v : Z) :
  count_uses block = Ok uses ->
  exists r, stackify block = Ok r /\
    count_op (I32Const v) (s_code r) = const_operands v block.
Proof.
  intros Huses. with_table Huses as r Hr. exists r. split; [done|].
  apply stackify_Ok in Hr as (rst & est & _ & Hemit & _ & -> & _).
  unfold emit_code in Hemit.
  rewrite (emit_loop_consts _ _ _ _ _
             (Nat2Z.is_nonneg (length block) : 0 <= eindex (emit_init block))
             Hemit).
  simpl. by rewrite slice_all.
Qed.

(** Instruction 2 of [demo1] is [Add [~2; ~3]], the only instruction with
    the operand [Const(2)]: one [i32.const 2] is emitted.  The first operand
    of the [LocalGet] and of the [LocalSet] is [Const(0)], and no
    [i32.const 0] is emitted. *)
Lemma const_operands_pushed_witness :
  exists uses r,
    count_uses demo1 = Ok uses /\ stackify demo1 = Ok r /\
    count_op (I32Const 2) (s_code r) = const_operands 2 demo1 /\
    const_operands 2 demo1 = 1 /\
    count_op (I32Const 0) (s_code r) = const_operands 0 demo1 /\
    const_operands 0 demo1 = 0.
Proof.
  exists (use_table demo1).
  destruct (const_operands_pushed demo1 (use_table demo1) 2 eq_refl)
    as (r & Hr & H2).
  destruct (const_operands_pushed demo1 (use_table demo1) 0 eq_refl)
    as (r' & Hr' & H0).
  exists r. split; [reflexivity|]. split; [exact Hr|].
  split; [exact H2|]. split; [reflexivity|]. split; [|reflexivity].
  rewrite Hr in Hr'. injection Hr' as <-. exact H0.
Defined.

(** C4, counterexample.  The only operand of this [LocalGet] is [Const(7)];
    the operation sequence is [get_local 7] and holds no [i32.const 7]. *)
Lemma local_index_not_pushed :
  let block := [mkIns LocalGet [bitnot 7]] in
  exists r, stackify block = Ok r /\
    s_code r = [GetLocal 7] /\ ~ I32Const 7 ∈ s_code r.
Proof.
  eexists. split; [reflexivity|]. split; [reflexivity|].
  simpl. intros H. apply list_elem_of_singleton in H. discriminate.
Qed.

(** C5. On a block on which the use counter returns, take an iteration of
    the emitter's loop ([st] to [st1], on the way to the final state) for a
    position [i] that has a slot [s] when the iteration begins.  The
    iteration first places the store: when the
    operation at the head of [wasmCode], the one emitted last, is the load
    [get_local s], that load is replaced by the single [tee_local s], and
    otherwise [set_local s] is put in front.  Then [visit] puts the
    operations [ops] computing instruction [i] in front, so the store
    follows them immediately; and the final sequence holds these operations
    and the store side by side, at most with the load at the head of [ops]
    fused by the store of the next position.  Every instruction position
    that has a slot in the final table has an iteration of the loop: a
    position compiled in place by a nested call never has a slot.  And on a
    block whose references are strictly backward the position has its slot
    when its iteration begins. *)
Theorem store_follows_definition (block : list Ins) (uses : list cell) :
  count_uses block = Ok uses ->
  exists r est,
    stackify block = Ok r /\
    emit_code block uses = Ok est /\
    s_code r = wasmCode est /\ s_locals r = locals est /\
    (forall st st1 i s,
        iteration block uses est st st1 ->
        eindex st = i + 1 ->
        locals st !! i = Some s ->
        wasmCode (store_local (emit_dec st)) =
          match wasmCode st with
          | op :: code =>
              if decide (op = GetLocal s) then TeeLocal s :: code
              else SetLocal s :: op :: code
          | [] => [SetLocal s]
          end /\
        exists ops,
          wasmCode st1 = ops ++ wasmCode (store_local (emit_dec st)) /\
          ops <> [] /\
          exists pre ops',
            s_code r = pre ++ ops' ++ wasmCode (store_local (emit_dec st)) /\
            fused ops ops') /\
    (forall st st1 k,
        iteration block uses est st st1 ->
        eindex st1 <= k < eindex st - 1 ->
        s_locals r !! k = None) /\
    (forall i s,
        s_locals r !! i = Some s -> i < Z.of_nat (length block) ->
        exists st st1,
          iteration block uses est st st1 /\
          eindex st = i + 1 /\
          (strictly_backward block = true -> locals st !! i = Some s)).
Proof.
  intros Huses. with_table Huses as r Hr. exists r.
  pose proof Hr as (rst & est & _ & Hemit & _ & Hcode & Hlocals)%stackify_Ok.
  pose proof (emit_loop_reach _ _ _ _ _ Hemit) as Hreach.
  pose proof (emit_loop_post _ _ _ _ _
                (Nat2Z.is_nonneg _ : 0 <= eindex (emit_init block)) Hemit)
    as (Hz & _).
  exists est. split_and!; try done.
  - intros st st1 i s (H1 & H2 & H3) H4 H5. split.
    + unfold store_local. cbn [emit_dec eindex locals wasmCode].
      replace (eindex st - 1) with i by lia. rewrite H5.
      destruct (wasmCode st) as [|op code] eqn:Hc; simpl; [by rewrite Hc|].
      destruct (decide (op = GetLocal s)); simpl; [done | by rewrite Hc].
    + pose proof H2 as [Hpos [fuel Hv]].
      apply visit_post_holds in Hv as (_ & _ & (ops & Hops & Hne) & _).
      exists ops. split_and!; try done.
      destruct (reach_code _ _ _ _ H3) as (pre & c' & Hc' & Hf).
      rewrite Hops in Hf. rewrite Hcode. exists pre.
      destruct Hf as [-> | (l & tl & Hget & ->)].
      * exists ops. split; [done | by left].
      * destruct ops as [|x ops]; [done|]. simpl in Hget.
        injection Hget as -> <-. exists (TeeLocal l :: ops).
        split; [done|]. right. by exists l, ops.
  - intros st st1 k Hit Hk. rewrite Hlocals.
    by apply (in_place_no_slot block est st st1).
  - intros i s His HiN. rewrite Hlocals in His.
    destruct (strictly_backward block) eqn:Hwf.
    + destruct (loop_inv_reach block Hwf est Hreach) as [_ Hinv].
      destruct (Hinv i) as (Hi0 & _ & [Hlt | (st & st1 & Hit & H4 & [s' H5])]);
        [by eexists | lia |].
      exists st, st1. split_and!; try done. intros _.
      destruct Hit as (_ & H2 & H3).
      pose proof (reach_locals _ _ _ _ (rtc_l _ _ _ _ H2 H3)) as Hsub.
      apply (lookup_weaken _ _ _ _ H5) in Hsub. congruence.
    + assert (0 <= i) as Hi0 by (eapply reach_keys; [exact Hreach | by eexists]).
      destruct (reach_covers block (use_table block) est i Hreach ltac:(lia))
        as (st & st1 & Hit & Hi).
      exists st, st1. split_and!; [done | | done].
      destruct (Z.eq_dec i (eindex st - 1)) as [->|Hne]; [lia|].
      pose proof (in_place_no_slot block est st st1 i Hit Hz ltac:(lia)).
      congruence.
Qed.

Lemma store_follows_definition_witness :
  strictly_backward demo3 = true /\
  exists uses r est,
    count_uses demo3 = Ok uses /\
    stackify demo3 = Ok r /\
    emit_code demo3 uses = Ok est /\
    s_locals r !! 3 = Some 100 /\
    exists st st1,
      iteration demo3 uses est st st1 /\
      eindex st = 3 + 1 /\ locals st !! 3 = Some 100.
Proof.
  split; [reflexivity|].
  destruct (store_follows_definition demo3 (use_table demo3) eq_refl)
    as (r & est & Hr & Hest & _ & _ & _ & _ & HB).
  exists (use_table demo3), r, est. split; [reflexivity|].
  split; [done|]. split; [done|].
  assert (s_locals r !! 3 = Some 100) as H3.
  { unfold stackify in Hr. vm_compute in Hr. injection Hr as <-. reflexivity. }
  split; [done|].
  destruct (HB 3 100 H3) as (st & st1 & Hit & Hi & Hs); [simpl; lia|].
  exists st, st1. split_and!; [done | done | by apply Hs].
Defined.

(** C6. For every block whose references are strictly backward, the forest
    [stackify] returns covers every instruction index exactly once: each
    tree represents the instruction at its root index, a nested tree the
    instruction its operand names, and the positions of the trees, roots and
    nested nodes together, are a permutation of [0 .. N-1].  The roots come
    in increasing order.  (A block is an array: it has at most [2^32 - 1]
    instructions.) *)
Theorem forest_coverage (block : list Ins) :
  strictly_backward block = true ->
  Z.of_nat (length block) <= array_max ->
  exists r, stackify block = Ok r /\
    Forall (fun p => represents block p.1 p.2) (s_trees r) /\
    forest_positions block (s_trees r) ≡ₚ seqZ 0 (Z.of_nat (length block)) /\
    StronglySorted Z.lt (s_trees r).*1.
Proof.
  intros Hwf Hmax.
  destruct (count_uses_returns block Hwf Hmax) as [uses Huses].
  with_table Huses as r Hr. exists r.
  split; [done|]. apply stackify_Ok in Hr as (rst & est & Hrec & _).
  destruct (recover_trees_spec block (use_table block))
    as (trees & rst' & Hrec' & _ & Hp & Hs & Hreps).
  rewrite Hrec in Hrec'. injection Hrec' as <- <-.
  unfold seq_range in Hp. by rewrite Z.sub_0_r in Hp.
Qed.

Lemma forest_coverage_witness :
  exists r, stackify demo2 = Ok r /\
    Forall (fun p => represents demo2 p.1 p.2) (s_trees r) /\
    forest_positions demo2 (s_trees r) ≡ₚ seqZ 0 (Z.of_nat (length demo2)) /\
    StronglySorted Z.lt (s_trees r).*1.
Proof. apply (forest_coverage demo2); [reflexivity | by vm_compute]. Defined.

(** C7, as the code has it.  For every block in which no operand names a
    later position (so for every block whose references are strictly
    backward), the use counter returns, the use table has one cell per
    instruction and the cell of index [k] is the number of [Ref(k)] operands
    in the whole block.  (A block is an array: it has at most [2^32 - 1]
    instructions.)  The table is a function of the block alone:
    [count_uses] reads the block and builds the array it returns, nothing
    else. *)
Theorem use_count_correct (block : list Ins) :
  no_forward block = true ->
  Z.of_nat (length block) <= array_max ->
  exists uses,
    count_uses block = Ok uses /\
    length uses = length block /\
    forall k, (k < length block)%nat ->
      uses !! k = Some (Num (ref_count (Z.of_nat k) block)).
Proof. apply count_uses_no_forward. Qed.

Lemma use_count_correct_witness :
  exists uses,
    count_uses demo2 = Ok uses /\
    length uses = length demo2 /\
    forall k, (k < length demo2)%nat ->
      uses !! k = Some (Num (ref_count (Z.of_nat k) demo2)).
Proof. apply (use_count_correct demo2); [reflexivity | by vm_compute]. Defined.

(** C7, counterexample.  The first instruction of this block names the
    second one: [uses[1]++] runs before the cell of index 1 exists and leaves
    [NaN] there, and the [push] for the second instruction lands behind it. *)
Lemma use_count_forward_reference :
  let block := [mkIns Add [1]; mkIns Add []] in
  exists uses,
    count_uses block = Ok uses /\
    uses = [Num 0; NaN; Num 0] /\
    ref_count 1 block = 1 /\
    uses !! 1%nat <> Some (Num (ref_count 1 block)).
Proof.
  eexists. split; [reflexivity|]. split; [reflexivity|].
  split; [reflexivity|]. discriminate.
Qed.

(** C8, as the code has it, on a block on which the use counter returns.
    [makeLocal] assigns lazily: it returns the slot an index has, or else gives it the value of the counter and steps the
    counter by one, and it keeps every entry of the table.  A reference
    that is not compiled in place when [visit] examines it has its slot when
    the call returns.  No call of [visit] and no iteration of the loop
    changes or drops an entry.  In the final table no two indices share a
    slot, and the slots are exactly the numbers from 100 up to the final
    value of the counter: consecutive values, all at least 100, the value
    the counter starts from whatever locals the block itself names.  Every
    key of the final table is the target of a reference [visit] examines,
    and no position compiled in place by a nested call is a key. *)
Theorem slot_table (block : list Ins) (uses : list cell) :
  count_uses block = Ok uses ->
  (forall arg st,
      locals (makeLocal arg st).2 !! arg = Some (makeLocal arg st).1 /\
      locals st ⊆ locals (makeLocal arg st).2 /\
      (forall s, locals st !! arg = Some s -> makeLocal arg st = (s, st)) /\
      (locals st !! arg = None ->
       (makeLocal arg st).1 = nextLocal st /\
       nextLocal (makeLocal arg st).2 = nextLocal st + 1 /\
       locals (makeLocal arg st).2 = <[arg := nextLocal st]> (locals st))) /\
  (forall fuel st st' ins left arg right,
      visit block uses (S fuel) st = Ok st' ->
      block_at block (eindex st) = Some ins ->
      emitted_args ins = left ++ arg :: right ->
      0 <= arg ->
      exists str,
        visit_args uses (visit block uses fuel)
          (rev right) (unshift (own_op ins).1 (emit_enter st)) = Ok str /\
        (in_place uses arg str = false ->
         locals st' !! arg = Some (makeLocal arg str).1)) /\
  (forall fuel st st',
      visit block uses fuel st = Ok st' ->
      locals st ⊆ locals st') /\
  (forall st st',
      rtc (loop_step block uses) st st' ->
      locals st ⊆ locals st') /\
  exists r est,
    stackify block = Ok r /\
    emit_code block uses = Ok est /\
    s_locals r = locals est /\
    100 <= nextLocal est /\
    (forall k s, s_locals r !! k = Some s -> 100 <= s < nextLocal est) /\
    (forall s, 100 <= s < nextLocal est -> exists k, s_locals r !! k = Some s) /\
    (forall k1 k2 s,
        s_locals r !! k1 = Some s -> s_locals r !! k2 = Some s -> k1 = k2) /\
    (forall k s,
        s_locals r !! k = Some s -> 0 <= k /\ 1 <= ref_operands k block) /\
    (forall st st1 k,
        iteration block uses est st st1 ->
        eindex st1 <= k < eindex st - 1 ->
        s_locals r !! k = None).
Proof.
  intros Huses. with_table Huses as r Hr. split_and!.
  - intros arg st. split_and!.
    + apply makeLocal_lookup.
    + apply makeLocal_mono.
    + intros s Hs. unfold makeLocal. by rewrite Hs.
    + intros Hs. unfold makeLocal. by rewrite Hs.
  - apply visit_load_slot.
  - intros fuel st st' Hv. by apply visit_post_holds in Hv as (_ & _ & _ & Hl & _).
  - apply reach_locals.
  - exists r.
    pose proof Hr as (rst & est & _ & Hemit & _ & _ & Hl)%stackify_Ok.
    exists est. rewrite Hl.
    pose proof (emit_loop_post _ _ _ _ _
                  (Nat2Z.is_nonneg _ : 0 <= eindex (emit_init block)) Hemit)
      as (_ & _ & _ & Hs).
    destruct (Hs 100 (emit_init_slots block)) as (H1 & H2 & H3 & H4).
    pose proof (emit_loop_reach _ _ _ _ _ Hemit) as Hreach.
    pose proof (emit_loop_post _ _ _ _ _
                  (Nat2Z.is_nonneg _ : 0 <= eindex (emit_init block)) Hemit)
      as (Hz & _).
    split_and!; try done.
    + intros k s Hk. split.
      * eapply reach_keys; [exact Hreach | by eexists].
      * destruct (reach_slot_refs block (use_table block) est k Hreach)
          as [_ Hrefs].
        rewrite Hz, slice_all in Hrefs. unfold has_slot in Hrefs.
        by rewrite Hk in Hrefs.
    + intros st st1 k Hit Hk. by apply (in_place_no_slot block est st st1).
Qed.

(** Instruction 2 of [demo2] is [Add [0; ~2]]: its operand [Ref(0)] has use
    count 2, is not compiled in place, and gets the first slot, 100. *)
Lemma slot_table_witness :
  exists str,
    visit_args (use_table demo2) (visit demo2 (use_table demo2) 2)
      (rev [bitnot 2]) (unshift I32Add (emit_enter (mkEmit 2 [] ∅ 100 []))) =
      Ok str /\
    in_place (use_table demo2) 0 str = false /\
    (makeLocal 0 str).1 = 100 /\
    locals (mkEmit 2 [GetLocal 100; I32Const 2; I32Add] {[ 0 := 100 ]} 101 [2])
      !! 0 = Some (makeLocal 0 str).1.
Proof.
  destruct (slot_table demo2 (use_table demo2) eq_refl) as (_ & HB & _).
  destruct (HB 2%nat (mkEmit 2 [] ∅ 100 [])
              (mkEmit 2 [GetLocal 100; I32Const 2; I32Add] {[ 0 := 100 ]} 101 [2])
              (mkIns Add [0; bitnot 2]) [] 0 [bitnot 2])
    as (str & Hstr & Hslot); [reflexivity | reflexivity | reflexivity | lia |].
  exists str. split; [exact Hstr|].
  assert (str = mkEmit 2 [I32Const 2; I32Add] ∅ 100 [2]) as ->.
  { vm_compute in Hstr. by injection Hstr as <-. }
  split; [reflexivity|]. split; [reflexivity|]. by apply Hslot.
Defined.

(** C8, counterexample.  Instruction 1 of this block reads local 100 of the
    source program, and the slot assigned to instruction 0 is 100 as well:
    not a number above the locals the program names.  The two cannot be
    told apart: the store for instruction 0 takes the [get_local 100] of
    instruction 1 for a load of its slot and turns it into a tee. *)
Lemma slot_collides_with_source_local :
  let block := [mkIns Add [bitnot 1; bitnot 2]; mkIns LocalGet [bitnot 100];
                mkIns Add [1; 0]] in
  own_op (mkIns LocalGet [bitnot 100]) = (GetLocal 100, 1%nat) /\
  exists r, stackify block = Ok r /\
    s_locals r !! 0 = Some 100 /\
    ~ (forall k s, s_locals r !! k = Some s -> 100 < s) /\
    s_code r = [I32Const 1; I32Const 2; I32Add; TeeLocal 100; GetLocal 100;
                I32Add].
Proof.
  split; [reflexivity|]. eexists. split; [reflexivity|].
  split; [reflexivity|]. split; [|reflexivity].
  intros H. specialize (H 0 100 eq_refl). lia.
Qed.

(** C9. For every block whose references are strictly backward the transform
    terminates, and the cursor values at the entries of the calls of
    [recoverTree], and of the calls of [visit], are [N-1, N-2, ..., 0]: the
    cursor only decreases and every position is entered by exactly one call
    of each.  ([rcalls] and [calls] list the entries latest first; a block
    is an array: it has at most [2^32 - 1] instructions.) *)
Theorem each_position_visited_once (block : list Ins) :
  strictly_backward block = true ->
  Z.of_nat (length block) <= array_max ->
  exists r uses trees rst est,
    stackify block = Ok r /\
    count_uses block = Ok uses /\
    recover_trees block uses = Ok (trees, rst) /\
    emit_code block uses = Ok est /\
    rcalls rst = seqZ 0 (Z.of_nat (length block)) /\
    calls est = seqZ 0 (Z.of_nat (length block)).
Proof.
  intros Hwf Hmax.
  destruct (count_uses_returns block Hwf Hmax) as [uses Huses].
  with_table Huses as r Hr. exists r.
  pose proof Hr as (rst & est & Hrec & Hemit & _)%stackify_Ok.
  exists (use_table block), (s_trees r), rst, est. split_and!; try done.
  - destruct (recover_trees_spec block (use_table block))
      as (trees & rst' & Hrec' & Hc & _).
    rewrite Hrec in Hrec'. injection Hrec' as <- <-.
    unfold seq_range in Hc. by rewrite Z.sub_0_r in Hc.
  - apply emit_loop_post in Hemit as (_ & Hc & _); [|simpl; lia].
    simpl in Hc. unfold seq_range in Hc.
    by rewrite Z.sub_0_r, app_nil_r in Hc.
Qed.

Lemma each_position_visited_once_witness :
  exists r uses trees rst est,
    stackify demo3 = Ok r /\
    count_uses demo3 = Ok uses /\
    recover_trees demo3 uses = Ok (trees, rst) /\
    emit_code demo3 uses = Ok est /\
    rcalls rst = seqZ 0 (Z.of_nat (length demo3)) /\
    calls est = seqZ 0 (Z.of_nat (length demo3)).
Proof.
  apply (each_position_visited_once demo3); [reflexivity | by vm_compute].
Defined.

(** C10. On the empty block [stackify] returns without an error, with an
    empty forest and an empty operation sequence (and an empty use table and
    slot table). *)
Theorem stackify_empty_block :
  stackify [] =
  Ok {| s_uses := []; s_trees := []; s_code := []; s_locals := ∅ |}.
Proof. reflexivity. Qed.

(** ** Further properties of the passes *)

(** *** The use table on any block *)

Lemma uses_incr_length uses arg :
  (length uses <= length (uses_incr uses arg))%nat.
Proof.
  unfold uses_incr. destruct (arg <? array_max); [|done].
  destruct (uses !! Z.to_nat arg) as [[| |n]|];
    rewrite ?length_insert, ?length_app; lia.
Qed.

Lemma count_args_length l : forall uses,
  (length uses <= length (count_args uses l))%nat.
Proof.
  induction l as [|a l IH]; intros uses; simpl; [done|].
  etrans; [|apply IH]. destruct (0 <=? a); [apply uses_incr_length | done].
Qed.

Lemma count_loop_length_ge block : forall uses uses',
  count_loop block uses = Ok uses' ->
  (length uses + length block <= length uses')%nat.
Proof.
  induction block as [|ins block IH]; intros uses uses' Hrun; simpl in Hrun.
  - injection Hrun as <-. simpl. lia.
  - unfold count_ins in Hrun.
    destruct (uses_push uses) as [u| | |] eqn:Hpush; simpl in Hrun; [|done..].
    apply uses_push_inv in Hpush as [_ ->]. apply IH in Hrun.
    pose proof (count_args_length (args ins) (uses ++ [Num 0])) as H.
    rewrite length_app in H. simpl in *. lia.
Qed.

(** X1. The use table on any block on which the counter returns, forward
    references included: it has at least one cell for every instruction; a
    cell that holds a number holds the number of references to its index in
    the whole block; and the test [uses[arg] === 1] succeeds only on the
    index of an instruction that exactly one operand of the block
    references. *)
Theorem use_count_sound (block : list Ins) (uses : list cell) :
  count_uses block = Ok uses ->
  (length block <= length uses)%nat /\
  (forall (k : nat) n,
      uses !! k = Some (Num n) ->
      n = ref_count (Z.of_nat k) block) /\
  (forall arg,
      0 <= arg -> uses_one uses arg = true ->
      ref_count arg block = 1).
Proof.
  intros Huses. split_and!.
  - apply (count_loop_length_ge block [] uses Huses).
  - intros k n. by apply count_uses_num.
  - pose proof (use_table_Ok _ _ Huses) as <-. apply uses_one_count.
Qed.

Lemma use_count_sound_witness :
  count_uses [mkIns Add [1; 0]; mkIns Add [0]] = Ok [Num 2; NaN; Num 0] /\
  2 = ref_count (Z.of_nat 0) [mkIns Add [1; 0]; mkIns Add [0]].
Proof.
  split; [reflexivity|].
  destruct (use_count_sound [mkIns Add [1; 0]; mkIns Add [0]]
              [Num 2; NaN; Num 0] eq_refl) as (_ & H & _).
  apply (H 0%nat 2). reflexivity.
Defined.

(** *** The forest against the references of the block *)

Lemma tree_strs_node k kd cs : tree_strs k (Node kd cs) = children_strs k cs.
Proof. reflexivity. Qed.

Lemma children_strs_app k cs1 cs2 :
  children_strs k (cs1 ++ cs2) = children_strs k cs1 + children_strs k cs2.
Proof. induction cs1 as [|c cs1 IH]; simpl; [done | rewrite IH; lia]. Qed.

Lemma forest_strs_app k f1 f2 :
  forest_strs k (f1 ++ f2) = forest_strs k f1 + forest_strs k f2.
Proof. induction f1 as [|p f1 IH]; simpl; [done | rewrite IH; lia]. Qed.

Lemma root_count_app k f1 f2 :
  root_count k (f1 ++ f2) = root_count k f1 + root_count k f2.
Proof. induction f1 as [|p f1 IH]; simpl; [done | rewrite IH; lia]. Qed.

Lemma root_count_nonneg k f : 0 <= root_count k f.
Proof. induction f as [|p f IH]; simpl; [done|]. destruct (p.1 =? k); lia. Qed.

Lemma root_count_pos k f : 1 <= root_count k f <-> k ∈ f.*1.
Proof.
  induction f as [|p f IH]; simpl.
  - split; [lia | by intros ?%elem_of_nil].
  - pose proof (root_count_nonneg k f). rewrite elem_of_cons, <- IH.
    destruct (Z.eqb_spec p.1 k); split; try lia; intros [?|?]; try lia;
      congruence.
Qed.

Section RecoverAccounts.
Variable block : list Ins.
Variable uses : list cell.

(** Every reference a call examines becomes a back-reference leaf or the
    nested tree of the position below the cursor; a position passed by a
    nested call has use count 1. *)
Lemma recover_accounts :
  (forall fuel st t s st',
      recoverTree block uses fuel st = Ok (t, s, st') ->
      0 <= rindex st' <= rindex st /\
      (forall j, rindex st' <= j < rindex st -> uses_one uses j = true) /\
      forall k, 0 <= k ->
        tree_strs k t + within (rindex st') (rindex st) k =
        ref_count k (slice block (rindex st') (rindex st + 1))) /\
  (forall fuel rargs c s st c' s' st',
      recover_args uses (recoverTree block uses fuel) rargs c s st =
        Ok (c', s', st') ->
      rindex st' <= rindex st /\ (0 <= rindex st -> 0 <= rindex st') /\
      (forall j, rindex st' <= j < rindex st -> uses_one uses j = true) /\
      exists new, c' = new ++ c /\
      forall k, 0 <= k ->
        children_strs k new + within (rindex st') (rindex st) k =
        refs_in k rargs + ref_count k (slice block (rindex st') (rindex st))).
Proof.
  apply (recoverTree_ind block uses
           (fun st t s st' =>
              0 <= rindex st' <= rindex st /\
              (forall j, rindex st' <= j < rindex st -> uses_one uses j = true) /\
              forall k, 0 <= k ->
                tree_strs k t + within (rindex st') (rindex st) k =
                ref_count k (slice block (rindex st') (rindex st + 1)))
           (fun rargs c s st c' s' st' =>
              rindex st' <= rindex st /\ (0 <= rindex st -> 0 <= rindex st') /\
              (forall j, rindex st' <= j < rindex st -> uses_one uses j = true) /\
              exists new, c' = new ++ c /\
              forall k, 0 <= k ->
                children_strs k new + within (rindex st') (rindex st) k =
                refs_in k rargs +
                ref_count k (slice block (rindex st') (rindex st)))).
  - intros c s st. split_and!; [lia | done | lia |]. exists []. split; [done|].
    intros k _. rewrite within_nil, slice_nil. simpl. lia.
  - intros arg rest c s st c' s' st' Hneg (Hle & Hpos & Hone & new & -> & Hk).
    split_and!; [done..|]. exists (new ++ [CNum (bitnot arg)]).
    rewrite <- app_assoc. split; [done|]. intros k H0.
    specialize (Hk k H0). rewrite children_strs_app. simpl.
    destruct (Z.eqb_spec arg k); lia.
  - intros arg rest c st t cs st1 c' s' st' Hpos Hu Hadj
      (Hr1 & Hone1 & Hk1) (Hle & Hpos' & Hone & new & -> & Hk).
    cbn [rec_dec rindex] in *.
    replace (rindex st - 1 + 1) with (rindex st) in * by lia.
    split_and!; [lia | lia | |].
    + intros j Hj. destruct (Z.lt_ge_cases j (rindex st1)); [apply Hone; lia|].
      destruct (Z.eq_dec j arg) as [->|]; [done|]. apply Hone1. lia.
    + exists (new ++ [CTree t]). rewrite <- app_assoc. split; [done|].
      intros k H0. specialize (Hk k H0). specialize (Hk1 k H0).
      rewrite children_strs_app. simpl.
      rewrite (within_split (rindex st') (rindex st1) (rindex st)) by lia.
      rewrite (within_split (rindex st1) (rindex st - 1) (rindex st)) by lia.
      rewrite within_one.
      rewrite (slice_split block (rindex st') (rindex st1) (rindex st)) by lia.
      rewrite ref_count_app. rewrite Hadj.
      destruct (rindex st - 1 =? k); lia.
  - intros arg rest c s st c' s' st' Hpos Hno
      (Hle & Hpos' & Hone & new & -> & Hk).
    split_and!; [done..|]. exists (new ++ [CStr arg]).
    rewrite <- app_assoc. split; [done|]. intros k H0.
    specialize (Hk k H0). rewrite children_strs_app. simpl. lia.
  - intros st ins c s st' Hins (Hle & Hpos' & Hone & new & Hc & Hk).
    rewrite app_nil_r in Hc. subst c. cbn [rec_enter rindex] in *.
    pose proof (block_at_range _ _ _ Hins) as Hr.
    split_and!; [lia | lia | done |]. intros k H0.
    rewrite tree_strs_node, (Hk k H0), refs_in_rev.
    rewrite (slice_snoc block _ _ ins) by (done || lia).
    rewrite ref_count_app. simpl. lia.
Qed.

(** The loop of lines 79-83: the references of the instructions below the
    cursor against the leaves, the roots and the nested positions of the
    trees it adds. *)
Lemma recover_loop_accounts fuel : forall st trees res st',
  0 <= rindex st <= Z.of_nat (length block) ->
  recover_loop block uses fuel st trees = Ok (res, st') ->
  exists new, res = new ++ trees /\
    (forall j, 0 <= j < rindex st -> j ∈ new.*1 \/ uses_one uses j = true) /\
    forall k, 0 <= k ->
      forest_strs k new + within 0 (rindex st) k =
      ref_count k (slice block 0 (rindex st)) + root_count k new.
Proof.
  induction fuel as [|fuel IH]; intros st trees res st' Hr Hrun.
  - simpl in Hrun. destruct (Z.ltb_spec 0 (rindex st)); [done|].
    injection Hrun as <- <-. exists []. split; [done|]. split; [lia|].
    intros k _. assert (rindex st = 0) as -> by lia.
    rewrite within_nil, slice_nil. done.
  - cbn [recover_loop] in Hrun. destruct (Z.ltb_spec 0 (rindex st)) as [Hpos|Hz].
    + destruct (recoverTree block uses (S fuel) (rec_dec st))
        as [[[t s] st2]| | |] eqn:Hrec; [|done..].
      cbn [mbind outcome_bind] in Hrun.
      apply (proj1 recover_accounts) in Hrec as (Hle & Hone & Hk).
      cbn [rec_dec rindex] in *.
      replace (rindex st - 1 + 1) with (rindex st) in * by lia.
      apply IH in Hrun as (new & -> & Hcov & Hacc); [|lia].
      exists (new ++ [(rindex st - 1, t)]). rewrite <- app_assoc.
      split; [done|]. split.
      * intros j Hj. rewrite fmap_app, elem_of_app. simpl.
        destruct (Z.lt_ge_cases j (rindex st2)) as [Hlt|Hge].
        { destruct (Hcov j) as [?|?]; [lia | by left; left | by right]. }
        destruct (Z.eq_dec j (rindex st - 1)) as [->|Hne].
        { left. right. by left. }
        right. apply Hone. lia.
      * intros k H0. specialize (Hacc k H0). specialize (Hk k H0).
        rewrite forest_strs_app, root_count_app. simpl.
        rewrite (within_split 0 (rindex st2) (rindex st)) by lia.
        rewrite (within_split (rindex st2) (rindex st - 1) (rindex st)) by lia.
        rewrite within_one.
        rewrite (slice_split block 0 (rindex st2) (rindex st)) by lia.
        rewrite ref_count_app. destruct (rindex st - 1 =? k); lia.
    + injection Hrun as <- <-. exists []. split; [done|]. split; [lia|].
      intros k _. assert (rindex st = 0) as -> by lia.
      rewrite within_nil, slice_nil. done.
Qed.

End RecoverAccounts.

Lemma root_count_sorted k f :
  StronglySorted Z.lt f.*1 -> root_count k f <= 1.
Proof.
  induction f as [|p f IH]; simpl; [lia|]. intros Hs.
  apply StronglySorted_inv in Hs as [Hs Hall]. specialize (IH Hs).
  destruct (Z.eqb_spec p.1 k) as [<-|]; [|lia].
  assert (root_count p.1 f = 0); [|lia].
  pose proof (root_count_nonneg p.1 f).
  destruct (Z.le_gt_cases 1 (root_count p.1 f)) as [H1|]; [|lia].
  apply root_count_pos in H1. rewrite Forall_forall in Hall.
  specialize (Hall _ H1). lia.
Qed.

Lemma tree_positions_root block i t : i ∈ tree_positions block i t.
Proof. destruct t. rewrite tree_positions_node. by left. Qed.

(** The forest against the references of the block. *)
Lemma forest_accounts block r :
  stackify block = Ok r ->
  (forall k, k ∈ (s_trees r).*1 -> 0 <= k < Z.of_nat (length block)) /\
  (forall k, root_count k (s_trees r) <= 1) /\
  (forall k, 0 <= k < Z.of_nat (length block) ->
     k ∈ (s_trees r).*1 \/ uses_one (use_table block) k = true) /\
  (forall k, 0 <= k ->
     forest_strs k (s_trees r) + within 0 (Z.of_nat (length block)) k =
     ref_count k block + root_count k (s_trees r)).
Proof.
  intros (rst & est & Hrec & _)%stackify_Ok.
  destruct (recover_trees_spec block (use_table block))
    as (trees & rst' & Hrec' & _ & Hperm & Hsort & _).
  rewrite Hrec in Hrec'. injection Hrec' as <- <-.
  unfold recover_trees in Hrec.
  apply recover_loop_accounts in Hrec as (new & Hnew & Hcov & Hacc);
    [|simpl; lia].
  rewrite app_nil_r in Hnew. subst new. cbn [rindex] in *.
  rewrite slice_all in Hacc.
  split_and!; [|by intros; apply root_count_sorted|done..].
  intros k (p & -> & Hp)%list_elem_of_fmap.
  assert (p.1 ∈ forest_positions block (s_trees r)) as Hin.
  { unfold forest_positions. apply list_elem_of_bind. exists p.
    split; [apply tree_positions_root | done]. }
  rewrite Hperm in Hin. unfold seq_range in Hin.
  apply elem_of_seqZ in Hin. lia.
Qed.

(** X2. An instruction is nested in a tree only when it is used exactly
    once (the comment of lines 28-29): on every block, an instruction that
    is not the root of a tree of the forest has use count 1 and is the
    target of exactly one operand of the block.  So every instruction whose
    use count is not 1 is a root.
    (The block is one on which the use counter returns.) *)
Theorem nested_used_once (block : list Ins) (uses : list cell) :
  count_uses block = Ok uses ->
  exists r, stackify block = Ok r /\
    forall k, 0 <= k < Z.of_nat (length block) ->
      k ∉ (s_trees r).*1 ->
      uses_one (s_uses r) k = true /\ ref_count k block = 1.
Proof.
  intros Huses. with_table Huses as r Hr. exists r. split; [done|].
  destruct (forest_accounts block r Hr) as (_ & _ & Hcov & _).
  apply stackify_Ok in Hr as (_ & _ & _ & _ & -> & _).
  intros k Hk Hroot. destruct (Hcov k Hk) as [?|Hu]; [done|].
  split; [done|]. apply uses_one_count; [lia | done].
Qed.

Lemma nested_used_once_witness :
  exists r, stackify demo3 = Ok r /\
    3 ∈ (s_trees r).*1 /\ (2 ∉ (s_trees r).*1) /\
    uses_one (s_uses r) 2 = true /\ ref_count 2 demo3 = 1.
Proof.
  destruct (nested_used_once demo3 (use_table demo3) eq_refl) as (r & Hr & H). exists r.
  split; [done|].
  assert ((s_trees r).*1 = [3; 4; 6]) as Hroots.
  { unfold stackify in Hr. vm_compute in Hr. injection Hr as <-. reflexivity. }
  assert (2 ∉ (s_trees r).*1) as Hn
    by (rewrite Hroots, !elem_of_cons, elem_of_nil; lia).
  split; [rewrite Hroots; by left|].
  split; [done|]. apply (H 2); [simpl; lia | done].
Defined.

(** The leaves of the forest that name [k], for a root, for a nested
    instruction, and for an index past the end. *)
Lemma forest_strs_spec block r k :
  stackify block = Ok r -> 0 <= k ->
  (k ∈ (s_trees r).*1 -> forest_strs k (s_trees r) = ref_count k block) /\
  (k < Z.of_nat (length block) -> k ∉ (s_trees r).*1 ->
     forest_strs k (s_trees r) = 0) /\
  (Z.of_nat (length block) <= k ->
     forest_strs k (s_trees r) = ref_count k block).
Proof.
  intros Hr Hk0.
  destruct (forest_accounts block r Hr) as (Hrange & Hone & Hcov & Hacc).
  specialize (Hacc k Hk0). specialize (Hone k).
  pose proof (root_count_pos k (s_trees r)) as Hpos.
  pose proof (root_count_nonneg k (s_trees r)) as Hnn.
  destruct (within_spec 0 (Z.of_nat (length block)) k) as [[Hin Hw]|[Hout Hw]];
    rewrite Hw in Hacc.
  - split_and!; [| |lia].
    + intros Hroot. apply Hpos in Hroot. lia.
    + intros _ Hroot.
      assert (root_count k (s_trees r) = 0) as H0
        by (rewrite <- Hpos in Hroot; lia).
      destruct (Hcov k Hin) as [?|Hu]; [done|].
      pose proof (uses_one_count block k Hk0 Hu). lia.
  - split_and!; [|lia|].
    + intros Hroot. specialize (Hrange k Hroot). lia.
    + intros _. assert (root_count k (s_trees r) = 0) as H0; [|lia].
      destruct (Z.le_gt_cases 1 (root_count k (s_trees r))) as [H1|]; [|lia].
      apply Hpos, Hrange in H1. lia.
Qed.

(** X3. Every reference operand of the block is accounted for in the
    forest.  The back-reference leaves that name a root [k] are as many as
    the operands that reference [k]; an instruction of the block that is not a
    root is named by no leaf: its one reference is the place where its tree
    is nested; and an index past the end of the block is named by one leaf
    for each operand that references it.
    (The block is one on which the use counter returns.) *)
Theorem forest_references (block : list Ins) (uses : list cell) :
  count_uses block = Ok uses ->
  exists r, stackify block = Ok r /\
    forall k, 0 <= k ->
      (k ∈ (s_trees r).*1 -> forest_strs k (s_trees r) = ref_count k block) /\
      (k < Z.of_nat (length block) -> k ∉ (s_trees r).*1 ->
         forest_strs k (s_trees r) = 0) /\
      (Z.of_nat (length block) <= k ->
         forest_strs k (s_trees r) = ref_count k block).
Proof.
  intros Huses. with_table Huses as r Hr. exists r. split; [done|].
  intros k Hk0. by apply forest_strs_spec.
Qed.

Lemma forest_references_witness :
  exists r, stackify demo2 = Ok r /\
    0 ∈ (s_trees r).*1 /\ forest_strs 0 (s_trees r) = ref_count 0 demo2 /\
    ref_count 0 demo2 = 2.
Proof.
  destruct (forest_references demo2 (use_table demo2) eq_refl) as (r & Hr & H). exists r.
  split; [done|].
  assert ((s_trees r).*1 = [0; 1; 4]) as Hroots.
  { unfold stackify in Hr. vm_compute in Hr. injection Hr as <-. reflexivity. }
  assert (0 ∈ (s_trees r).*1) as Hin by (rewrite Hroots; by left).
  split; [done|]. split; [|reflexivity].
  destruct (H 0 ltac:(lia)) as (H1 & _). by apply H1.
Defined.

(** Only references become back-reference leaves: no leaf names a negative
    index. *)
Lemma recover_strs_neg block uses k :
  k < 0 ->
  (forall fuel st t s st',
      recoverTree block uses fuel st = Ok (t, s, st') -> tree_strs k t = 0) /\
  (forall fuel rargs c s st c' s' st',
      recover_args uses (recoverTree block uses fuel) rargs c s st =
        Ok (c', s', st') ->
      exists new, c' = new ++ c /\ children_strs k new = 0).
Proof.
  intros Hk.
  apply (recoverTree_ind block uses
           (fun _ t _ _ => tree_strs k t = 0)
           (fun _ c _ _ c' _ _ =>
              exists new, c' = new ++ c /\ children_strs k new = 0)).
  - intros c _ _. by exists [].
  - intros arg rest c _ _ c' _ _ _ (new & -> & Hn).
    exists (new ++ [CNum (bitnot arg)]). rewrite <- app_assoc.
    split; [done|]. rewrite children_strs_app, Hn. done.
  - intros arg rest c _ t _ _ c' _ _ _ _ _ Ht (new & -> & Hn).
    exists (new ++ [CTree t]). rewrite <- app_assoc.
    split; [done|]. rewrite children_strs_app, Hn. simpl. lia.
  - intros arg rest c _ _ c' _ _ Hpos _ (new & -> & Hn).
    exists (new ++ [CStr arg]). rewrite <- app_assoc.
    split; [done|]. rewrite children_strs_app, Hn. simpl.
    destruct (Z.eqb_spec arg k); lia.
  - intros _ ins c _ _ _ (new & -> & Hn). by rewrite app_nil_r, tree_strs_node.
Qed.

Lemma recover_loop_strs_neg block uses k fuel : forall st trees res st',
  k < 0 ->
  recover_loop block uses fuel st trees = Ok (res, st') ->
  exists new, res = new ++ trees /\ forest_strs k new = 0.
Proof.
  induction fuel as [|fuel IH]; intros st trees res st' Hk Hrun.
  - simpl in Hrun. destruct (0 <? rindex st); [done|].
    injection Hrun as <- <-. by exists [].
  - cbn [recover_loop] in Hrun. destruct (0 <? rindex st).
    + destruct (recoverTree block uses (S fuel) (rec_dec st))
        as [[[t s] st2]| | |] eqn:Hrec; [|done..].
      cbn [mbind outcome_bind] in Hrun.
      apply (proj1 (recover_strs_neg block uses k Hk)) in Hrec.
      apply IH in Hrun as (new & -> & Hn); [|done].
      exists (new ++ [(rindex (rec_dec st), t)]). rewrite <- app_assoc.
      split; [done|]. rewrite forest_strs_app, Hn. simpl. lia.
    + injection Hrun as <- <-. by exists [].
Qed.

(** X4. On a block whose references are strictly backward every
    back-reference leaf of the forest names the root of a tree of the
    forest (the comment of lines 67-69: the tree referenced from the leaf is
    generated).
    (The block is one on which the use counter returns.) *)
Theorem back_references_name_roots (block : list Ins) (uses : list cell) :
  count_uses block = Ok uses ->
  strictly_backward block = true ->
  exists r, stackify block = Ok r /\
    forall k, 1 <= forest_strs k (s_trees r) -> k ∈ (s_trees r).*1.
Proof.
  intros Huses Hwf. with_table Huses as r Hr.
  exists r. split; [done|]. intros k Hk.
  destruct (Z.lt_ge_cases k 0) as [Hneg|Hk0].
  { pose proof Hr as (rst & est & Hrec & _)%stackify_Ok.
    apply recover_loop_strs_neg with (k := k) in Hrec as (new & Hnew & Hn);
      [|done].
    rewrite app_nil_r in Hnew. rewrite Hnew in Hk. lia. }
  destruct (forest_strs_spec block r k Hr Hk0) as (_ & H2 & H3).
  destruct (Z.lt_ge_cases k (Z.of_nat (length block))) as [Hlt|Hge].
  - destruct (decide (k ∈ (s_trees r).*1)) as [|Hn]; [done|].
    specialize (H2 Hlt Hn). lia.
  - rewrite (H3 Hge) in Hk.
    rewrite (ref_count_beyond block k) in Hk; [lia | | done].
    by apply refs_below_weaken.
Qed.

Lemma back_references_name_roots_witness :
  exists r, stackify demo2 = Ok r /\
    forest_strs 1 (s_trees r) = 1 /\ 1 ∈ (s_trees r).*1.
Proof.
  destruct (back_references_name_roots demo2 (use_table demo2) eq_refl) as (r & Hr & H); [reflexivity|].
  exists r. split; [done|].
  assert (forest_strs 1 (s_trees r) = 1) as H1.
  { unfold stackify in Hr. vm_compute in Hr. injection Hr as <-. reflexivity. }
  split; [done|]. apply H. lia.
Defined.

(** *** The operations of the sequence *)

Lemma own_ops_app o b1 b2 : own_ops o (b1 ++ b2) = own_ops o b1 + own_ops o b2.
Proof. induction b1 as [|i b1 IH]; simpl; [done | rewrite IH; lia]. Qed.

Lemma kind_count_app kd b1 b2 :
  kind_count kd (b1 ++ b2) = kind_count kd b1 + kind_count kd b2.
Proof. induction b1 as [|i b1 IH]; simpl; [done | rewrite IH; lia]. Qed.

Lemma own_ops_add b : own_ops I32Add b = kind_count Add b.
Proof.
  induction b as [|ins b IH]; simpl; [done|]. rewrite IH. unfold own_op.
  destruct (kind ins); simpl; reflexivity.
Qed.

Lemma own_ops_tee s b : own_ops (TeeLocal s) b = 0.
Proof.
  induction b as [|ins b IH]; simpl; [done|]. rewrite IH. unfold own_op.
  destruct (kind ins); simpl; reflexivity.
Qed.

Lemma count_op_cons o o' code :
  count_op o (o' :: code) = (if decide (o' = o) then 1 else 0) + count_op o code.
Proof. done. Qed.

Lemma count_op_nonneg o code : 0 <= count_op o code.
Proof. induction code as [|x code IH]; simpl; [done|]. case_decide; lia. Qed.

Section EmitCounts.
Variable block : list Ins.
Variable uses : list cell.

(** An operation that is neither a load nor an immediate push is put in the
    sequence by a call only as the own operation of an instruction passed. *)
Lemma visit_own_ops o :
  (forall n, o <> GetLocal n) -> (forall n, o <> I32Const n) ->
  (forall fuel st st',
      visit block uses fuel st = Ok st' ->
      count_op o (wasmCode st') =
      count_op o (wasmCode st) +
      own_ops o (slice block (eindex st') (eindex st + 1))) /\
  (forall fuel rargs st st',
      visit_args uses (visit block uses fuel) rargs st = Ok st' ->
      count_op o (wasmCode st') =
      count_op o (wasmCode st) +
      own_ops o (slice block (eindex st') (eindex st))).
Proof.
  intros Hget Hconst.
  apply (visit_ind block uses
           (fun st st' =>
              count_op o (wasmCode st') =
              count_op o (wasmCode st) +
              own_ops o (slice block (eindex st') (eindex st + 1)))
           (fun rargs st st' =>
              count_op o (wasmCode st') =
              count_op o (wasmCode st) +
              own_ops o (slice block (eindex st') (eindex st)))).
  - intros st. rewrite slice_nil. simpl. lia.
  - intros fuel arg rest st st' Hneg _ IH. rewrite IH. simpl.
    case_decide as Hd; [by destruct (Hconst _ (eq_sym Hd)) | lia].
  - intros fuel arg rest st st1 st' Hpos Hu Hadj Hv Ha IH1 IH.
    apply visit_post_holds in Hv as (Hr1 & _).
    apply visit_args_post_holds in Ha as (Hle & Hpos' & _).
    rewrite IH, IH1. cbn [emit_dec eindex wasmCode] in *.
    replace (eindex st - 1 + 1) with (eindex st) by lia.
    rewrite (slice_split block (eindex st') (eindex st1) (eindex st)) by lia.
    rewrite own_ops_app. lia.
  - intros fuel arg rest st st' Hpos Hno _ IH. rewrite IH.
    cbn [unshift eindex wasmCode]. rewrite makeLocal_index, makeLocal_code.
    simpl. case_decide as Hd; [by destruct (Hget _ (eq_sym Hd)) | lia].
  - intros fuel st ins st' Hins Ha IH.
    apply visit_args_post_holds in Ha as (Hle & Hpos' & _).
    pose proof (block_at_range _ _ _ Hins) as Hr.
    cbn [unshift emit_enter eindex wasmCode] in *.
    rewrite IH, (slice_snoc block _ _ ins) by (done || lia).
    rewrite own_ops_app, count_op_cons. simpl. lia.
Qed.

Section Loads.
Variable L : gmap Z Z.
Variable s : Z.
Hypothesis Hinj : forall k1 k2 s',
  L !! k1 = Some s' -> L !! k2 = Some s' -> k1 = k2.

Lemma loads_cons o code :
  loads s (o :: code) =
  (if decide (o = GetLocal s) then 1 else 0) +
  (if decide (o = TeeLocal s) then 1 else 0) + loads s code.
Proof. unfold loads. simpl. lia. Qed.

(** The loads of the slot of [k] a call adds: one for every reference to [k]
    it examines and does not compile in place, and the [get_local] of the
    [LocalGet] instructions that name the same local. *)
Lemma visit_loads k :
  0 <= k -> L !! k = Some s ->
  (forall fuel st st',
      visit block uses fuel st = Ok st' ->
      locals st' ⊆ L ->
      loads s (wasmCode st') + within (eindex st') (eindex st) k =
      loads s (wasmCode st) +
      own_ops (GetLocal s) (slice block (eindex st') (eindex st + 1)) +
      ref_operands k (slice block (eindex st') (eindex st + 1))) /\
  (forall fuel rargs st st',
      visit_args uses (visit block uses fuel) rargs st = Ok st' ->
      locals st' ⊆ L ->
      loads s (wasmCode st') + within (eindex st') (eindex st) k =
      loads s (wasmCode st) + refs_in k rargs +
      own_ops (GetLocal s) (slice block (eindex st') (eindex st)) +
      ref_operands k (slice block (eindex st') (eindex st))).
Proof.
  intros Hk0 HLk.
  apply (visit_ind block uses
           (fun st st' =>
              locals st' ⊆ L ->
              loads s (wasmCode st') + within (eindex st') (eindex st) k =
              loads s (wasmCode st) +
              own_ops (GetLocal s) (slice block (eindex st') (eindex st + 1)) +
              ref_operands k (slice block (eindex st') (eindex st + 1)))
           (fun rargs st st' =>
              locals st' ⊆ L ->
              loads s (wasmCode st') + within (eindex st') (eindex st) k =
              loads s (wasmCode st) + refs_in k rargs +
              own_ops (GetLocal s) (slice block (eindex st') (eindex st)) +
              ref_operands k (slice block (eindex st') (eindex st)))).
  - intros st _. rewrite within_nil, slice_nil. simpl. lia.
  - intros fuel arg rest st st' Hneg _ IH HL. specialize (IH HL).
    cbn [unshift eindex wasmCode] in IH. rewrite loads_cons in IH.
    simpl. repeat case_decide; try done.
    destruct (Z.eqb_spec arg k); lia.
  - intros fuel arg rest st st1 st' Hpos Hu Hadj Hv Ha IH1 IH HL.
    pose proof (visit_args_post_holds _ _ _ _ _ _ Ha)
      as (Hle & Hpos' & _ & _ & Hl & _).
    apply visit_post_holds in Hv as (Hr1 & _).
    specialize (IH HL). specialize (IH1 (transitivity Hl HL)).
    cbn [emit_dec eindex wasmCode] in *.
    replace (eindex st - 1 + 1) with (eindex st) in * by lia.
    rewrite (within_split (eindex st') (eindex st1) (eindex st)) by lia.
    rewrite (within_split (eindex st1) (eindex st - 1) (eindex st)) by lia.
    rewrite within_one.
    rewrite (slice_split block (eindex st') (eindex st1) (eindex st)) by lia.
    rewrite own_ops_app, ref_operands_app. simpl. rewrite Hadj.
    destruct (eindex st - 1 =? k); lia.
  - intros fuel arg rest st st' Hpos Hno Ha IH HL. specialize (IH HL).
    apply visit_args_post_holds in Ha as (_ & _ & _ & _ & Hl & _).
    cbn [unshift eindex wasmCode locals] in *.
    rewrite makeLocal_index, makeLocal_code in *. rewrite loads_cons in IH.
    pose proof (makeLocal_lookup arg st) as Hm.
    apply (lookup_weaken _ _ _ _ Hm) in Hl.
    apply (lookup_weaken _ _ _ _ Hl) in HL.
    assert ((if decide (GetLocal (makeLocal arg st).1 = GetLocal s)
             then 1 else 0) = (if arg =? k then 1 else 0)) as He.
    { destruct (decide _) as [[= Hs]|Hne], (Z.eqb_spec arg k) as [->|Hak];
        try done.
      - destruct Hak. eapply Hinj; [exact HL | by rewrite Hs].
      - destruct Hne. congruence. }
    rewrite He in IH. simpl.
    destruct (decide (GetLocal (makeLocal arg st).1 = TeeLocal s)); [done|].
    lia.
  - intros fuel st ins st' Hins Ha IH HL. specialize (IH HL).
    apply visit_args_post_holds in Ha as (Hle & Hpos' & _).
    pose proof (block_at_range _ _ _ Hins) as Hr.
    cbn [unshift emit_enter eindex wasmCode] in *.
    rewrite loads_cons in IH.
    rewrite (slice_snoc block _ _ ins) by (done || lia).
    rewrite own_ops_app, ref_operands_app. simpl.
    fold (emitted_args ins) in IH. rewrite refs_in_rev in IH.
    assert ((own_op ins).1 <> TeeLocal s) as Hown
      by (unfold own_op; by destruct (kind ins)).
    repeat case_decide; try done; lia.
Qed.

End Loads.
End EmitCounts.

Section EmitCounts2.
Variable block : list Ins.
Variable uses : list cell.

(** A local that is the slot of no key is loaded by a call only through
    the [get_local] of the [LocalGet] instructions that name it. *)
Lemma visit_loads_none (L : gmap Z Z) s :
  (forall k, L !! k <> Some s) ->
  (forall fuel st st',
      visit block uses fuel st = Ok st' ->
      locals st' ⊆ L ->
      loads s (wasmCode st') =
      loads s (wasmCode st) +
      own_ops (GetLocal s) (slice block (eindex st') (eindex st + 1))) /\
  (forall fuel rargs st st',
      visit_args uses (visit block uses fuel) rargs st = Ok st' ->
      locals st' ⊆ L ->
      loads s (wasmCode st') =
      loads s (wasmCode st) +
      own_ops (GetLocal s) (slice block (eindex st') (eindex st))).
Proof.
  intros Hnone.
  apply (visit_ind block uses
           (fun st st' =>
              locals st' ⊆ L ->
              loads s (wasmCode st') =
              loads s (wasmCode st) +
              own_ops (GetLocal s) (slice block (eindex st') (eindex st + 1)))
           (fun rargs st st' =>
              locals st' ⊆ L ->
              loads s (wasmCode st') =
              loads s (wasmCode st) +
              own_ops (GetLocal s) (slice block (eindex st') (eindex st)))).
  - intros st _. rewrite slice_nil. simpl. lia.
  - intros fuel arg rest st st' Hneg _ IH HL. rewrite (IH HL).
    cbn [unshift eindex wasmCode]. rewrite loads_cons.
    repeat case_decide; try done; try lia.
  - intros fuel arg rest st st1 st' Hpos Hu Hadj Hv Ha IH1 IH HL.
    pose proof (visit_args_post_holds _ _ _ _ _ _ Ha)
      as (Hle & Hpos' & _ & _ & Hl & _).
    apply visit_post_holds in Hv as (Hr1 & _).
    rewrite (IH HL), (IH1 (transitivity Hl HL)).
    cbn [emit_dec eindex wasmCode] in *.
    replace (eindex st - 1 + 1) with (eindex st) in * by lia.
    rewrite (slice_split block (eindex st') (eindex st1) (eindex st)) by lia.
    rewrite own_ops_app. lia.
  - intros fuel arg rest st st' Hpos Hno Ha IH HL. rewrite (IH HL).
    apply visit_args_post_holds in Ha as (_ & _ & _ & _ & Hl & _).
    cbn [unshift eindex wasmCode locals] in *.
    rewrite makeLocal_index, makeLocal_code in *. rewrite loads_cons.
    pose proof (makeLocal_lookup arg st) as Hm.
    apply (lookup_weaken _ _ _ _ Hm) in Hl.
    apply (lookup_weaken _ _ _ _ Hl) in HL.
    destruct (decide (GetLocal (makeLocal arg st).1 = GetLocal s))
      as [[= Hs]|_]; [rewrite Hs in HL; by destruct (Hnone arg)|].
    destruct (decide (GetLocal (makeLocal arg st).1 = TeeLocal s)); [done|].
    lia.
  - intros fuel st ins st' Hins Ha IH HL. rewrite (IH HL).
    apply visit_args_post_holds in Ha as (Hle & Hpos' & _).
    pose proof (block_at_range _ _ _ Hins) as Hr.
    cbn [unshift emit_enter eindex wasmCode] in *.
    rewrite loads_cons.
    rewrite (slice_snoc block _ _ ins) by (done || lia).
    rewrite own_ops_app. simpl.
    assert ((own_op ins).1 <> TeeLocal s) as Hown
      by (unfold own_op; by destruct (kind ins)).
    destruct (decide ((own_op ins).1 = TeeLocal s)); [done|]. lia.
Qed.

(** A reference a call examines has a slot when the call returns, or its
    target was passed by a nested call. *)
Lemma visit_referenced k :
  0 <= k ->
  (forall fuel st st',
      visit block uses fuel st = Ok st' ->
      1 <= ref_operands k (slice block (eindex st') (eindex st + 1)) ->
      is_Some (locals st' !! k) \/ eindex st' <= k < eindex st) /\
  (forall fuel rargs st st',
      visit_args uses (visit block uses fuel) rargs st = Ok st' ->
      1 <= refs_in k rargs +
           ref_operands k (slice block (eindex st') (eindex st)) ->
      is_Some (locals st' !! k) \/ eindex st' <= k < eindex st).
Proof.
  intros Hk0.
  apply (visit_ind block uses
           (fun st st' =>
              1 <= ref_operands k (slice block (eindex st') (eindex st + 1)) ->
              is_Some (locals st' !! k) \/ eindex st' <= k < eindex st)
           (fun rargs st st' =>
              1 <= refs_in k rargs +
                   ref_operands k (slice block (eindex st') (eindex st)) ->
              is_Some (locals st' !! k) \/ eindex st' <= k < eindex st)).
  - intros st. rewrite slice_nil. simpl. lia.
  - intros fuel arg rest st st' Hneg _ IH H. apply IH. simpl in *.
    destruct (Z.eqb_spec arg k); lia.
  - intros fuel arg rest st st1 st' Hpos Hu Hadj Hv Ha IH1 IH H.
    pose proof (visit_args_post_holds _ _ _ _ _ _ Ha)
      as (Hle & Hpos' & _ & _ & Hl & _).
    apply visit_post_holds in Hv as (Hr1 & _).
    cbn [emit_dec eindex wasmCode] in *.
    replace (eindex st - 1 + 1) with (eindex st) in * by lia.
    rewrite (slice_split block (eindex st') (eindex st1) (eindex st)) in H
      by lia.
    rewrite ref_operands_app in H. simpl in H.
    destruct (Z.eqb_spec arg k) as [->|Hne]; [right; lia|].
    destruct (Z.le_gt_cases 1 (ref_operands k
                (slice block (eindex st1) (eindex st)))) as [H1|H1].
    + destruct (IH1 H1) as [[s Hs]|?]; [|right; lia].
      left. exists s. by apply (lookup_weaken _ _ _ _ Hs).
    + destruct IH as [?|?]; [lia | by left | right; lia].
  - intros fuel arg rest st st' Hpos Hno Ha IH H.
    apply visit_args_post_holds in Ha as (_ & _ & _ & _ & Hl & _).
    cbn [unshift eindex wasmCode locals] in *.
    rewrite makeLocal_index in *. simpl in H.
    destruct (Z.eqb_spec arg k) as [->|Hne]; [|apply IH; lia].
    left. exists (makeLocal k st).1.
    apply (lookup_weaken _ _ _ _ (makeLocal_lookup k st) Hl).
  - intros fuel st ins st' Hins Ha IH H.
    apply visit_args_post_holds in Ha as (Hle & Hpos' & _).
    pose proof (block_at_range _ _ _ Hins) as Hr.
    cbn [unshift emit_enter eindex wasmCode] in *.
    rewrite (slice_snoc block _ _ ins) in H by (done || lia).
    rewrite ref_operands_app in H. simpl in H.
    apply IH. fold (emitted_args ins). rewrite refs_in_rev. lia.
Qed.

Lemma store_local_loads st s :
  loads s (wasmCode (store_local st)) = loads s (wasmCode st).
Proof.
  destruct (store_local_code st)
    as [[_ ->] | (l & _ & [(tl & -> & ->) | (_ & ->)])]; [done| |].
  - rewrite !loads_cons. repeat case_decide; simplify_eq; lia.
  - rewrite loads_cons. repeat case_decide; simplify_eq; lia.
Qed.

Lemma stores_cons s o code :
  stores s (o :: code) =
  (if decide (o = SetLocal s) then 1 else 0) +
  (if decide (o = TeeLocal s) then 1 else 0) + stores s code.
Proof. unfold stores. simpl. lia. Qed.

Lemma store_local_stores st s :
  stores s (wasmCode (store_local st)) =
  stores s (wasmCode st) +
  (if decide (locals st !! eindex st = Some s) then 1 else 0).
Proof.
  destruct (store_local_code st)
    as [[Hn ->] | (l & Hl & [(tl & -> & ->) | (_ & ->)])].
  - rewrite Hn. case_decide; [done | lia].
  - rewrite Hl, !stores_cons. repeat case_decide; simplify_eq; lia.
  - rewrite Hl, stores_cons. repeat case_decide; simplify_eq; lia.
Qed.

Lemma visit_stores s fuel st st' :
  visit block uses fuel st = Ok st' ->
  stores s (wasmCode st') =
  stores s (wasmCode st) +
  own_ops (SetLocal s) (slice block (eindex st') (eindex st + 1)).
Proof.
  intros Hv. unfold stores.
  rewrite (proj1 (visit_own_ops block uses (SetLocal s)
                    ltac:(done) ltac:(done)) _ _ _ Hv).
  rewrite (proj1 (visit_own_ops block uses (TeeLocal s)
                    ltac:(done) ltac:(done)) _ _ _ Hv).
  rewrite own_ops_tee. lia.
Qed.

(** Between the iterations of the loop the slots are drawn from the
    counter, which starts at 100. *)
Lemma reach_slots st :
  rtc (loop_step block uses) (emit_init block) st -> slots_from 100 st.
Proof.
  revert st. apply rtc_ind_r; [apply emit_init_slots|].
  intros st st1 _ [_ [fuel Hv]] IH.
  apply visit_post_holds in Hv as (_ & _ & _ & _ & _ & Hs).
  by apply Hs, store_local_slots.
Qed.

(** The loop puts one own operation in the sequence for every instruction
    it passes, for the operations that are neither loads, stores nor
    pushes. *)
Lemma reach_own_ops o st :
  (forall n, o <> GetLocal n) -> (forall n, o <> I32Const n) ->
  (forall n, o <> SetLocal n) -> (forall n, o <> TeeLocal n) ->
  rtc (loop_step block uses) (emit_init block) st ->
  count_op o (wasmCode st) =
  own_ops o (slice block (eindex st) (Z.of_nat (length block))).
Proof.
  intros Hg Hc Hs Ht. revert st. apply rtc_ind_r.
  - simpl. by rewrite slice_nil.
  - intros st st1 Hreach Hstep IH.
    destruct (reach_slot_refs block uses st 0 Hreach) as [Hr _].
    pose proof Hstep as [Hpos [fuel Hv]].
    pose proof (visit_post_holds _ _ _ _ _ Hv) as (Hr1 & _).
    rewrite (proj1 (visit_own_ops block uses o Hg Hc) _ _ _ Hv).
    rewrite store_local_index in *. cbn [emit_dec eindex] in *.
    replace (eindex st - 1 + 1) with (eindex st) in * by lia.
    rewrite (slice_split block (eindex st1) (eindex st)
               (Z.of_nat (length block))) by lia.
    rewrite own_ops_app, <- IH.
    assert (count_op o (wasmCode (store_local (emit_dec st))) =
            count_op o (wasmCode st)) as ->; [|lia].
    destruct (store_local_code (emit_dec st))
      as [[_ ->] | (l & _ & [(tl & Hget & ->) | (_ & ->)])]; [done| |].
    + simpl in Hget. rewrite Hget. simpl.
      repeat case_decide; simplify_eq; try done.
      * by destruct (Ht l). 
      * by destruct (Hg l).
    + simpl. case_decide; [by destruct (Hs l)|done].
Qed.

End EmitCounts2.

Section Reach.
Variable block : list Ins.
Variable est : EmitState.
Hypothesis Hz : eindex est = 0.

(** The loads in the sequence between the iterations of the loop, for the
    slots of the final table. *)
Lemma reach_loads st :
  rtc (loop_step block (use_table block)) (emit_init block) st ->
  rtc (loop_step block (use_table block)) st est ->
  (forall k s, locals est !! k = Some s ->
     loads s (wasmCode st) =
     own_ops (GetLocal s) (slice block (eindex st) (Z.of_nat (length block))) +
     ref_operands k (slice block (eindex st) (Z.of_nat (length block)))) /\
  (forall s, (forall k, locals est !! k <> Some s) ->
     loads s (wasmCode st) =
     own_ops (GetLocal s) (slice block (eindex st) (Z.of_nat (length block)))).
Proof.
  intros Hreach. revert st Hreach.
  pose proof (reach_slots block (use_table block)) as Hslots.
  apply (rtc_ind_r (fun st =>
    rtc (loop_step block (use_table block)) st est -> _ /\ _)).
  - intros _. simpl. rewrite slice_nil. split; intros; simpl; done.
  - intros st st1 Hreach Hstep IH Hrest.
    destruct IH as [IHa IHb]; [by eapply rtc_l|].
    destruct (reach_slot_refs block (use_table block) st 0 Hreach) as [Hr _].
    pose proof Hstep as [Hpos [fuel Hv]].
    pose proof (visit_post_holds _ _ _ _ _ Hv) as (Hr1 & _).
    pose proof (reach_locals _ _ _ _ Hrest) as Hsub.
    assert (rtc (loop_step block (use_table block)) (emit_init block) est)
      as Hall by (etrans; [exact Hreach | by eapply rtc_l]).
    destruct (Hslots est Hall) as (_ & _ & _ & Hinj).
    rewrite store_local_index in Hr1. cbn [emit_dec eindex] in Hr1.
    split.
    + intros k s Hks.
      assert (0 <= k) as Hk0 by (eapply reach_keys; [exact Hall | by eexists]).
      pose proof (proj1 (visit_loads block (use_table block) (locals est) s
                           Hinj k Hk0 Hks) _ _ _ Hv Hsub) as Hl.
      rewrite store_local_loads, store_local_index in Hl.
      cbn [emit_dec eindex wasmCode] in Hl.
      replace (eindex st - 1 + 1) with (eindex st) in * by lia.
      destruct (within_spec (eindex st1) (eindex st - 1) k) as [[Hin _]|[_ Hw]].
      { pose proof (in_place_no_slot block est st st1 k
                      ltac:(by split_and!) Hz Hin). congruence. }
      rewrite (slice_split block (eindex st1) (eindex st)
                 (Z.of_nat (length block))) by lia.
      rewrite own_ops_app, ref_operands_app. specialize (IHa k s Hks). lia.
    + intros s Hnone.
      pose proof (proj1 (visit_loads_none block (use_table block) (locals est) s
                           Hnone) _ _ _ Hv Hsub) as Hl.
      rewrite store_local_loads, store_local_index in Hl.
      cbn [emit_dec eindex wasmCode] in Hl.
      replace (eindex st - 1 + 1) with (eindex st) in * by lia.
      rewrite (slice_split block (eindex st1) (eindex st)
                 (Z.of_nat (length block))) by lia.
      rewrite own_ops_app. specialize (IHb s Hnone). lia.
Qed.

(** A local that is the slot of no key of the final table is written only by
    the [set_local] of the [LocalSet] instructions that name it. *)
Lemma reach_stores_none st s :
  (forall k, locals est !! k <> Some s) ->
  rtc (loop_step block (use_table block)) (emit_init block) st ->
  rtc (loop_step block (use_table block)) st est ->
  stores s (wasmCode st) =
  own_ops (SetLocal s) (slice block (eindex st) (Z.of_nat (length block))).
Proof.
  intros Hnone Hreach. revert st Hreach.
  apply (rtc_ind_r (fun st =>
    rtc (loop_step block (use_table block)) st est -> _)).
  - intros _. simpl. by rewrite slice_nil.
  - intros st st1 Hreach Hstep IH Hrest.
    specialize (IH ltac:(by eapply rtc_l)).
    destruct (reach_slot_refs block (use_table block) st 0 Hreach) as [Hr _].
    pose proof Hstep as [Hpos [fuel Hv]].
    pose proof (visit_post_holds _ _ _ _ _ Hv) as (Hr1 & _).
    pose proof (reach_locals _ _ _ _ (rtc_l _ _ _ _ Hstep Hrest)) as Hsub.
    rewrite (visit_stores block (use_table block) s _ _ _ Hv).
    rewrite store_local_stores, store_local_index in *.
    cbn [emit_dec eindex wasmCode locals] in *.
    replace (eindex st - 1 + 1) with (eindex st) in * by lia.
    rewrite (slice_split block (eindex st1) (eindex st)
               (Z.of_nat (length block))) by lia.
    rewrite own_ops_app, IH.
    case_decide as Hd; [|lia].
    apply (lookup_weaken _ _ _ _ Hd) in Hsub. by destruct (Hnone _ Hsub).
Qed.

(** A reference examined so far has a slot, or its target was passed by a
    nested call. *)
Lemma reach_referenced st k :
  0 <= k ->
  rtc (loop_step block (use_table block)) (emit_init block) st ->
  1 <= ref_operands k (slice block (eindex st) (Z.of_nat (length block))) ->
  is_Some (locals st !! k) \/
  exists sa sb, iteration block (use_table block) st sa sb /\
                eindex sb <= k < eindex sa - 1.
Proof.
  intros Hk0 Hreach. revert st Hreach.
  apply (rtc_ind_r (fun st =>
    1 <= ref_operands k (slice block (eindex st) (Z.of_nat (length block))) ->
    _ \/ _)).
  - simpl. rewrite slice_nil. simpl. lia.
  - intros st st1 Hreach Hstep IH H.
    destruct (reach_slot_refs block (use_table block) st 0 Hreach) as [Hr _].
    pose proof Hstep as [Hpos [fuel Hv]].
    pose proof (visit_post_holds _ _ _ _ _ Hv) as (Hr1 & _ & _ & Hl & _).
    rewrite store_local_index, ?store_local_locals in *.
    cbn [emit_dec eindex locals] in *.
    replace (eindex st - 1 + 1) with (eindex st) in * by lia.
    rewrite (slice_split block (eindex st1) (eindex st)
               (Z.of_nat (length block))) in H by lia.
    rewrite ref_operands_app in H.
    destruct (Z.le_gt_cases 1 (ref_operands k
                (slice block (eindex st) (Z.of_nat (length block))))) as [H1|H1].
    + destruct (IH H1) as [[s Hs]|(sa & sb & (A1 & A2 & A3) & Hab)].
      * left. exists s. by apply (lookup_weaken _ _ _ _ Hs).
      * right. exists sa, sb. split; [|done]. split_and!; [done..|].
        eapply rtc_r; [exact A3 | exact Hstep].
    + pose proof (proj1 (visit_referenced block (use_table block) k Hk0)
                    _ _ _ Hv) as Hv'.
      rewrite store_local_index in Hv'. cbn [emit_dec eindex] in Hv'.
      replace (eindex st - 1 + 1) with (eindex st) in * by lia.
      destruct Hv' as [?|?]; [lia | by left |].
      right. exists st, st1. split; [|done].
      split_and!; [done | done | apply rtc_refl].
Qed.

End Reach.

Section Stores.
Variable block : list Ins.
Hypothesis Hwf : strictly_backward block = true.

(** On a block with strictly backward references an iteration of the loop
    gives slots only to positions below the cursor it ends at, and passes no
    position that had a slot. *)
Lemma loop_step_keys st st1 k :
  rtc (loop_step block (use_table block)) (emit_init block) st ->
  loop_step block (use_table block) st st1 ->
  is_Some (locals st1 !! k) ->
  (locals st !! k = None -> k < eindex st1) /\
  ~ eindex st1 <= k < eindex st - 1.
Proof.
  intros Hreach Hstep [s Hs].
  destruct (reach_slot_refs block (use_table block) st k Hreach) as [Hr Hrefs].
  destruct (loop_step_accounts block (use_table block) st st1 k Hr Hstep)
    as (Hr1 & Hone & Hacc).
  pose proof Hstep as [Hpos [fuel Hv]].
  pose proof (proj1 (visit_accounts block (use_table block)) _ _ _ Hv)
    as [_ A2]. specialize (A2 k).
  rewrite store_local_index in A2. cbn [emit_dec eindex] in A2.
  replace (eindex st - 1 + 1) with (eindex st) in * by lia.
  assert (has_slot st1 k = 1) as H1 by (unfold has_slot; by rewrite Hs).
  pose proof (ref_operands_slice_le k block (eindex st1)
                (Z.of_nat (length block)) ltac:(lia) ltac:(lia)) as Hle.
  pose proof (ref_operands_le_count k block) as Hle'.
  pose proof (ref_operands_nonneg k
                (slice block (eindex st) (Z.of_nat (length block)))) as Hnn.
  assert (~ eindex st1 <= k < eindex st - 1) as Hout.
  { intros Hin. pose proof (uses_one_count block k ltac:(lia) (Hone k Hin)).
    destruct (within_spec (eindex st1) (eindex st - 1) k) as [[_ Hw]|[Hw _]];
      [|lia].
    unfold has_slot in Hacc, Hrefs. rewrite Hs in Hacc.
    destruct (locals st !! k) eqn:Hk; [lia|].
    assert (new_slot (store_local (emit_dec st)) st1 k = 1) as Hn.
    { unfold new_slot. rewrite store_local_locals. simpl. by rewrite Hk, Hs. }
    pose proof (ref_operands_slice_le k block (eindex st1) (eindex st)
                  ltac:(lia) ltac:(lia)). lia. }
  split; [|done]. intros Hnone.
  assert (new_slot (store_local (emit_dec st)) st1 k = 1) as Hn.
  { unfold new_slot. rewrite store_local_locals. simpl. by rewrite Hnone, Hs. }
  destruct (within_spec (eindex st1) (eindex st - 1) k) as [[Hin _]|[_ Hw]];
    [done|].
  pose proof (ref_operands_backward block Hwf k (eindex st1) (eindex st)
                ltac:(lia) ltac:(lia)). lia.
Qed.

(** The stores in the sequence between the iterations of the loop: one for
    every slot whose position the loop has been through, none for the
    others, beside the [set_local] of the [LocalSet] instructions. *)
Lemma reach_stores st :
  rtc (loop_step block (use_table block)) (emit_init block) st ->
  (forall k s, locals st !! k = Some s -> eindex st <= k ->
     stores s (wasmCode st) =
     own_ops (SetLocal s) (slice block (eindex st) (Z.of_nat (length block)))
     + 1) /\
  (forall s, (forall k, locals st !! k = Some s -> k < eindex st) ->
     stores s (wasmCode st) =
     own_ops (SetLocal s) (slice block (eindex st) (Z.of_nat (length block)))).
Proof.
  revert st. apply rtc_ind_r.
  - split.
    + intros k s Hk. simpl in Hk. by rewrite lookup_empty in Hk.
    + intros s _. simpl. by rewrite slice_nil.
  - intros st st1 Hreach Hstep [J1 J2].
    destruct (reach_slot_refs block (use_table block) st 0 Hreach) as [Hr _].
    destruct (reach_slots block (use_table block) st Hreach)
      as (_ & _ & _ & Hinj).
    pose proof Hstep as [Hpos [fuel Hv]].
    pose proof (visit_post_holds _ _ _ _ _ Hv) as (Hr1 & _ & _ & Hl & _).
    assert (forall s,
              stores s (wasmCode st1) =
              stores s (wasmCode st) +
              (if decide (locals st !! (eindex st - 1) = Some s) then 1 else 0) +
              own_ops (SetLocal s) (slice block (eindex st1) (eindex st)))
      as Hst.
    { intros s. rewrite (visit_stores block (use_table block) s _ _ _ Hv).
      rewrite store_local_stores, store_local_index.
      cbn [emit_dec eindex wasmCode locals].
      by replace (eindex st - 1 + 1) with (eindex st) by lia. }
    rewrite store_local_index, ?store_local_locals in *.
    cbn [emit_dec eindex locals] in *.
    assert (forall s,
              own_ops (SetLocal s)
                (slice block (eindex st1) (Z.of_nat (length block))) =
              own_ops (SetLocal s) (slice block (eindex st1) (eindex st)) +
              own_ops (SetLocal s)
                (slice block (eindex st) (Z.of_nat (length block)))) as Hown.
    { intros s. rewrite (slice_split block (eindex st1) (eindex st)
                           (Z.of_nat (length block))) by lia.
      apply own_ops_app. }
    split.
    + intros k s Hk Hge. rewrite Hst, Hown.
      destruct (loop_step_keys st st1 k Hreach Hstep ltac:(by eexists))
        as [Hnew Hout].
      destruct (locals st !! k) as [s'|] eqn:Hk';
        [|specialize (Hnew eq_refl); lia].
      pose proof (lookup_weaken _ _ _ _ Hk' Hl) as Hk''.
      assert (s' = s) as -> by congruence.
      destruct (Z.eq_dec k (eindex st - 1)) as [->|Hne].
      * rewrite Hk'. rewrite decide_True by done.
        rewrite J2; [lia|]. intros k' Hk2.
        rewrite (Hinj _ _ _ Hk2 Hk'). lia.
      * rewrite (J1 k s Hk') by lia.
        rewrite decide_False; [lia|]. intros Hi. destruct Hne.
        by apply (Hinj _ _ _ Hk' Hi).
    + intros s Hlow. rewrite Hst, Hown.
      rewrite J2.
      * rewrite decide_False; [lia|]. intros Hi.
        pose proof (Hlow _ (lookup_weaken _ _ _ _ Hi Hl)). lia.
      * intros k Hk. pose proof (Hlow _ (lookup_weaken _ _ _ _ Hk Hl)). lia.
Qed.

End Stores.

(** What [stackify] returns: the final state of the emitter's loop. *)
Lemma stackify_emit block r :
  stackify block = Ok r ->
  exists est,
    emit_code block (use_table block) = Ok est /\
    s_code r = wasmCode est /\ s_locals r = locals est /\
    eindex est = 0 /\
    rtc (loop_step block (use_table block)) (emit_init block) est.
Proof.
  intros (rst & est & _ & Hemit & _ & Hc & Hl)%stackify_Ok.
  exists est. split_and!; try done.
  - by apply emit_loop_post in Hemit as (Hz & _); [|simpl; lia].
  - by apply emit_loop_reach in Hemit.
Qed.

(** X5. Every [Add] instruction of the block gives exactly one [i32.add],
    and the operation sequence holds no other.
    (The block is one on which the use counter returns.) *)
Theorem add_emitted_once (block : list Ins) (uses : list cell) :
  count_uses block = Ok uses ->
  exists r, stackify block = Ok r /\
    count_op I32Add (s_code r) = kind_count Add block.
Proof.
  intros Huses. with_table Huses as r Hr. exists r. split; [done|].
  apply stackify_emit in Hr as (est & _ & -> & _ & Hz & Hreach).
  rewrite (reach_own_ops block (use_table block) I32Add est) by done.
  by rewrite Hz, slice_all, own_ops_add.
Qed.

Lemma add_emitted_once_witness :
  exists r, stackify demo1 = Ok r /\
    count_op I32Add (s_code r) = kind_count Add demo1 /\
    kind_count Add demo1 = 3.
Proof.
  destruct (add_emitted_once demo1 (use_table demo1) eq_refl) as (r & Hr & H).
  exists r. split; [exact Hr|]. split; [exact H | reflexivity].
Defined.

(** X6. The slot of an instruction is read once for every operand that
    references the instruction: for a key [k] of the final slot table with
    slot [s], the operations that read local [s] ([get_local s] and
    [tee_local s]) are as many as the [Ref(k)] operands among the arguments
    [visit] examines, beside the [get_local s] of the [LocalGet]
    instructions that name local [s] themselves.
    (The block is one on which the use counter returns.) *)
Theorem slot_loads (block : list Ins) (uses : list cell) :
  count_uses block = Ok uses ->
  exists r, stackify block = Ok r /\
    forall k s, s_locals r !! k = Some s ->
      loads s (s_code r) =
      ref_operands k block + own_ops (GetLocal s) block.
Proof.
  intros Huses. with_table Huses as r Hr. exists r. split; [done|].
  apply stackify_emit in Hr as (est & _ & -> & -> & Hz & Hreach).
  intros k s Hk.
  destruct (reach_loads block est Hz est Hreach (rtc_refl _ _)) as [Ha _].
  rewrite (Ha k s Hk), Hz, slice_all. lia.
Qed.

Lemma slot_loads_witness :
  exists r, stackify demo2 = Ok r /\
    s_locals r !! 0 = Some 100 /\
    loads 100 (s_code r) = ref_operands 0 demo2 + own_ops (GetLocal 100) demo2 /\
    ref_operands 0 demo2 = 2.
Proof.
  destruct (slot_loads demo2 (use_table demo2) eq_refl) as (r & Hr & H). exists r. split; [done|].
  assert (s_locals r !! 0 = Some 100) as H0.
  { unfold stackify in Hr. vm_compute in Hr. injection Hr as <-. reflexivity. }
  split; [done|]. split; [by apply H | reflexivity].
Defined.

(** X7. On a block whose references are strictly backward the slot of an
    instruction is written exactly once: for a key [k] of the final slot
    table with slot [s], the operation sequence holds one store to local
    [s] ([set_local s] or [tee_local s]) beside the [set_local s] of the
    [LocalSet] instructions that name local [s] themselves.
    (The block is one on which the use counter returns.) *)
Theorem slot_stored_once (block : list Ins) (uses : list cell) :
  count_uses block = Ok uses ->
  strictly_backward block = true ->
  exists r, stackify block = Ok r /\
    forall k s, s_locals r !! k = Some s ->
      stores s (s_code r) = 1 + own_ops (SetLocal s) block.
Proof.
  intros Huses Hwf. with_table Huses as r Hr. exists r.
  split; [done|].
  apply stackify_emit in Hr as (est & _ & -> & -> & Hz & Hreach).
  intros k s Hk. destruct (reach_stores block Hwf est Hreach) as [J1 _].
  rewrite (J1 k s Hk), Hz, slice_all; [lia|].
  rewrite Hz. apply (reach_keys block (use_table block) est k Hreach).
  by eexists.
Qed.

Lemma slot_stored_once_witness :
  exists r, stackify demo3 = Ok r /\
    s_locals r !! 3 = Some 100 /\
    stores 100 (s_code r) = 1 + own_ops (SetLocal 100) demo3.
Proof.
  destruct (slot_stored_once demo3 (use_table demo3) eq_refl) as (r & Hr & H); [reflexivity|].
  exists r. split; [done|].
  assert (s_locals r !! 3 = Some 100) as H0.
  { unfold stackify in Hr. vm_compute in Hr. injection Hr as <-. reflexivity. }
  split; [done|]. by apply (H 3).
Defined.

(** X8. The emitter touches no local of its own making beside the slots of
    its table: a local [s] that is the slot of no key is read only by the
    [get_local s] and written only by the [set_local s] of the [LocalGet]
    and [LocalSet] instructions of the block that name it.
    (The block is one on which the use counter returns.) *)
Theorem other_locals_untouched (block : list Ins) (uses : list cell) :
  count_uses block = Ok uses ->
  exists r, stackify block = Ok r /\
    forall s, (forall k, s_locals r !! k <> Some s) ->
      loads s (s_code r) = own_ops (GetLocal s) block /\
      stores s (s_code r) = own_ops (SetLocal s) block.
Proof.
  intros Huses. with_table Huses as r Hr. exists r. split; [done|].
  apply stackify_emit in Hr as (est & _ & -> & -> & Hz & Hreach).
  intros s Hs. split.
  - destruct (reach_loads block est Hz est Hreach (rtc_refl _ _)) as [_ Hb].
    by rewrite (Hb s Hs), Hz, slice_all.
  - rewrite (reach_stores_none block est est s Hs Hreach (rtc_refl _ _)).
    by rewrite Hz, slice_all.
Qed.

Lemma other_locals_untouched_witness :
  exists r, stackify demo3 = Ok r /\
    loads 1 (s_code r) = own_ops (GetLocal 1) demo3 /\
    stores 1 (s_code r) = own_ops (SetLocal 1) demo3 /\
    own_ops (SetLocal 1) demo3 = 1.
Proof.
  destruct (other_locals_untouched demo3 (use_table demo3) eq_refl) as (r & Hr & H). exists r.
  split; [done|].
  assert (forall k, s_locals r !! k <> Some 1) as Hn.
  { assert (s_locals r = {[3 := 100]}) as ->.
    { unfold stackify in Hr. vm_compute in Hr. injection Hr as <-.
      reflexivity. }
    intros k Hk%lookup_singleton_Some. lia. }
  destruct (H 1 Hn) as [H1 H2]. split_and!; [done | done | reflexivity].
Defined.

(** X9. The keys of the final slot table are exactly the instructions that
    are referenced and not compiled in place: an index [k] has a slot if and
    only if it is not negative, some operand that [visit] examines
    references it, and no iteration of the loop passes position [k] inside
    a nested call.
    (The block is one on which the use counter returns.) *)
Theorem slot_keys (block : list Ins) (uses : list cell) :
  count_uses block = Ok uses ->
  exists r est,
    stackify block = Ok r /\
    emit_code block uses = Ok est /\
    forall k,
      is_Some (s_locals r !! k) <->
      0 <= k /\ 1 <= ref_operands k block /\
      ~ exists st st1,
          iteration block uses est st st1 /\
          eindex st1 <= k < eindex st - 1.
Proof.
  intros Huses. with_table Huses as r Hr. exists r.
  apply stackify_emit in Hr as Hr'.
  destruct Hr' as (est & He & _ & Hl & Hz & Hreach).
  exists est. split_and!; [done..|]. intros k. rewrite Hl. split.
  - intros Hk. split_and!.
    + by eapply reach_keys.
    + destruct (reach_slot_refs block (use_table block) est k Hreach)
        as [_ Hrefs].
      rewrite Hz, slice_all in Hrefs. unfold has_slot in Hrefs.
      destruct Hk as [s Hs]. by rewrite Hs in Hrefs.
    + intros (st & st1 & Hit & Hin).
      rewrite (in_place_no_slot block est st st1 k Hit Hz Hin) in Hk.
      by destruct Hk.
  - intros (Hk0 & Hrefs & Hnot).
    destruct (reach_referenced block est k Hk0 Hreach) as [?|?]; [|done|done].
    by rewrite Hz, slice_all.
Qed.

Lemma slot_keys_witness :
  exists r, stackify demo2 = Ok r /\ is_Some (s_locals r !! 0) /\
    0 <= 0 /\ 1 <= ref_operands 0 demo2.
Proof.
  destruct (slot_keys demo2 (use_table demo2) eq_refl) as (r & est & Hr & _ & H). exists r.
  split; [done|].
  assert (is_Some (s_locals r !! 0)) as H0.
  { unfold stackify in Hr. vm_compute in Hr. injection Hr as <-. by eexists. }
  split; [done|]. apply H in H0 as (? & ? & _). done.
Defined.

(** X10. The emitter compiles an instruction in place only when it is used
    exactly once (the comment of lines 28-29): on every block, a position
    that an iteration of the loop passes inside a nested call of [visit] is
    a position of the block with use count 1, the target of exactly one
    operand of the block.
    (The block is one on which the use counter returns.) *)
Theorem in_place_used_once (block : list Ins) (uses : list cell) :
  count_uses block = Ok uses ->
  exists r est,
    stackify block = Ok r /\
    emit_code block uses = Ok est /\
    forall st st1 k,
      iteration block uses est st st1 ->
      eindex st1 <= k < eindex st - 1 ->
      0 <= k < Z.of_nat (length block) /\
      uses_one (s_uses r) k = true /\ ref_count k block = 1.
Proof.
  intros Huses. with_table Huses as r Hr. exists r.
  pose proof Hr as (rst & est & _ & Hemit & Hu & _)%stackify_Ok.
  exists est. split_and!; [done..|]. intros st st1 k (Hreach & Hstep & _) Hk.
  destruct (reach_slot_refs block (use_table block) st k Hreach) as [Hr0 _].
  destruct (loop_step_accounts block (use_table block) st st1 k Hr0 Hstep)
    as (Hr1 & Hone & _).
  rewrite Hu. split_and!; [lia | lia | by apply Hone |].
  apply uses_one_count; [lia | by apply Hone].
Qed.

Lemma in_place_used_once_witness :
  exists r est st1,
    stackify demo3 = Ok r /\
    iteration demo3 (use_table demo3) est (emit_init demo3) st1 /\
    eindex st1 = 5 /\
    uses_one (s_uses r) 5 = true /\ ref_count 5 demo3 = 1.
Proof.
  destruct (in_place_used_once demo3 (use_table demo3) eq_refl) as (r & est & Hr & Hest & H).
  exists r, est.
  destruct (visit demo3 (use_table demo3) 7
              (store_local (emit_dec (emit_init demo3)))) as [st1| | |] eqn:Hv;
    [|by vm_compute in Hv..].
  exists st1.
  assert (eindex st1 = 5) as H5 by (vm_compute in Hv; by injection Hv as <-).
  assert (iteration demo3 (use_table demo3) est (emit_init demo3) st1) as Hit.
  { split_and!.
    - apply rtc_refl.
    - split; [simpl; lia | by exists 7%nat].
    - change (emit_code demo3 (use_table demo3))
        with (visit demo3 (use_table demo3) 7
                (store_local (emit_dec (emit_init demo3))) ≫=
              emit_loop demo3 (use_table demo3) 6) in Hest.
      rewrite Hv in Hest. by apply emit_loop_reach in Hest. }
  split_and!; [done | done | done | |]; apply (H _ _ 5 Hit); rewrite H5;
    simpl; lia.
Defined.

Lemma count_op_app o l1 l2 :
  count_op o (l1 ++ l2) = count_op o l1 + count_op o l2.
Proof. induction l1 as [|x l1 IH]; simpl; [done | rewrite IH; lia]. Qed.

Lemma loads_app s l1 l2 : loads s (l1 ++ l2) = loads s l1 + loads s l2.
Proof. unfold loads. rewrite !count_op_app. lia. Qed.

Lemma stores_app s l1 l2 : stores s (l1 ++ l2) = stores s l1 + stores s l2.
Proof. unfold stores. rewrite !count_op_app. lia. Qed.

(** X11. On a block whose references are strictly backward a slot is
    written before it is read.  For a key [k] of the final slot table with slot
    [s], the operation sequence is [before ++ op :: after] where [op] is the
    store to local [s] ([set_local s], or [tee_local s] when the first load
    follows at once), and [before] reads and writes local [s] only through
    the [LocalGet] and [LocalSet] instructions of positions [0] to [k] that
    name it: no load of the slot stands before its store.
    (The block is one on which the use counter returns.) *)
Theorem slot_stored_before_loaded (block : list Ins) (uses : list cell) :
  count_uses block = Ok uses ->
  strictly_backward block = true ->
  exists r, stackify block = Ok r /\
    forall k s, s_locals r !! k = Some s ->
      exists before op after,
        s_code r = before ++ op :: after /\
        (op = SetLocal s \/ op = TeeLocal s) /\
        loads s before = own_ops (GetLocal s) (slice block 0 (k + 1)) /\
        stores s before = own_ops (SetLocal s) (slice block 0 (k + 1)).
Proof.
  intros Huses Hwf. with_table Huses as r Hr. exists r.
  split; [done|].
  apply stackify_emit in Hr as (est & _ & -> & -> & Hz & Hreach).
  intros k s Hk.
  destruct (loop_inv_reach block Hwf est Hreach) as [_ Hinv].
  destruct (Hinv k ltac:(by eexists))
    as (Hk0 & _ & [Hlt | (stk & st1 & Hit & Hik & [s' Hs'])]); [lia|].
  pose proof Hit as (Hreach_k & Hstep & Hrest).
  pose proof (reach_locals _ _ _ _ (rtc_l _ _ _ _ Hstep Hrest)) as Hsub.
  assert (s' = s) as -> by (apply (lookup_weaken _ _ _ _ Hs') in Hsub; congruence).
  destruct (reach_slot_refs block (use_table block) stk 0 Hreach_k) as [Hr0 _].
  pose proof Hstep as [Hpos [fuel Hv]].
  pose proof (visit_post_holds _ _ _ _ _ Hv) as (_ & _ & (ops & Hops & Hne) & _).
  assert (exists op rest,
            wasmCode (store_local (emit_dec stk)) = op :: rest /\
            (op = SetLocal s \/ op = TeeLocal s)) as (op & rest & Hsl & Hop).
  { destruct (store_local_code (emit_dec stk))
      as [[Hn _] | (l & Hl & [(tl & _ & ->) | (_ & ->)])];
      cbn [emit_dec eindex locals] in *;
      replace (eindex stk - 1) with k in * by lia.
    - congruence.
    - assert (l = s) as -> by congruence. eauto.
    - assert (l = s) as -> by congruence. eauto. }
  destruct (reach_code _ _ _ _ Hrest) as (pre & c' & Hfinal & Hf).
  rewrite Hops, Hsl in Hf.
  assert (exists before,
            wasmCode est = before ++ op :: rest /\
            loads s before + loads s (op :: rest) = loads s (wasmCode est) /\
            stores s before + stores s (op :: rest) =
              stores s (wasmCode est)) as (before & Hcode & Hl & Hst).
  { destruct Hf as [-> | (l & tl & Hget & ->)].
    - exists (pre ++ ops). rewrite Hfinal, <- app_assoc. split; [done|].
      rewrite !loads_app, !stores_app. lia.
    - destruct ops as [|x ops]; [done|]. simpl in Hget. injection Hget as -> <-.
      exists (pre ++ TeeLocal l :: ops). rewrite Hfinal.
      change (TeeLocal l :: ops ++ op :: rest)
        with ((TeeLocal l :: ops) ++ op :: rest).
      rewrite app_assoc. split; [done|].
      rewrite !loads_app, !stores_app. lia. }
  exists before, op, rest. split_and!; [done | done | |].
  - destruct (reach_loads block est Hz est Hreach (rtc_refl _ _)) as [Ha _].
    destruct (reach_loads block est Hz stk Hreach_k
                (rtc_l _ _ _ _ Hstep Hrest)) as [Hb _].
    specialize (Ha k s Hk). specialize (Hb k s Hk).
    rewrite <- Hsl, store_local_loads in Hl. cbn [emit_dec wasmCode] in Hl.
    rewrite Hz, slice_all in Ha. rewrite Hik in Hb.
    assert (block = slice block 0 (k + 1) ++
                    slice block (k + 1) (Z.of_nat (length block))) as Hb'.
    { rewrite <- (slice_split block 0 (k + 1)) by lia. by rewrite slice_all. }
    rewrite Hb' in Ha at 1 2. rewrite own_ops_app, ref_operands_app in Ha.
    assert (ref_operands k (slice block 0 (k + 1)) = 0) as H0.
    { pose proof (ref_operands_nonneg k (slice block 0 (k + 1))).
      destruct (Z.le_gt_cases 1 (ref_operands k (slice block 0 (k + 1))))
        as [H1|]; [|lia].
      pose proof (ref_operands_backward block Hwf k 0 (k + 1) ltac:(lia) H1).
      lia. }
    lia.
  - destruct (reach_stores block Hwf est Hreach) as [J1 _].
    destruct (reach_stores block Hwf stk Hreach_k) as [_ J2].
    destruct (reach_slots block (use_table block) stk Hreach_k)
      as (_ & _ & _ & Hinj).
    specialize (J1 k s Hk ltac:(lia)).
    assert (stores s (wasmCode stk) =
            own_ops (SetLocal s)
              (slice block (eindex stk) (Z.of_nat (length block)))) as Hstk.
    { apply J2. intros k' Hk'. rewrite (Hinj _ _ _ Hk' Hs'). lia. }
    rewrite <- Hsl, store_local_stores in Hst.
    cbn [emit_dec eindex wasmCode locals] in Hst.
    replace (eindex stk - 1) with k in Hst by lia.
    rewrite Hs', decide_True in Hst by done.
    rewrite Hz, slice_all in J1. rewrite Hik in Hstk.
    assert (block = slice block 0 (k + 1) ++
                    slice block (k + 1) (Z.of_nat (length block))) as Hb'.
    { rewrite <- (slice_split block 0 (k + 1)) by lia. by rewrite slice_all. }
    rewrite Hb' in J1 at 1. rewrite own_ops_app in J1. lia.
Qed.

Lemma slot_stored_before_loaded_witness :
  exists r before op after,
    stackify demo2 = Ok r /\ s_locals r !! 0 = Some 100 /\
    s_code r = before ++ op :: after /\
    (op = SetLocal 100 \/ op = TeeLocal 100) /\
    loads 100 before = own_ops (GetLocal 100) (slice demo2 0 (0 + 1)).
Proof.
  destruct (slot_stored_before_loaded demo2 (use_table demo2) eq_refl) as (r & Hr & H); [reflexivity|].
  assert (s_locals r !! 0 = Some 100) as H0.
  { unfold stackify in Hr. vm_compute in Hr. injection Hr as <-. reflexivity. }
  destruct (H 0 100 H0) as (before & op & after & Hc & Hop & Hl & _).
  by exists r, before, op, after.
Defined.

(** *** References that are not backward *)

Lemma invalid_leaves_node block i k cs :
  invalid_leaves block i (Node k cs) =
  children_leaves block i
    (match block_at block i with Some ins => args ins | None => [] end) cs.
Proof.
  cbn [invalid_leaves].
  generalize (match block_at block i with
              | Some ins => args ins | None => [] end).
  induction cs as [|c cs IH]; intros l; [by destruct l|].
  destruct l as [|a l]; [done|]. cbn [children_leaves]. rewrite IH.
  by destruct c.
Qed.

Lemma children_leaves_app block i l1 l2 cs1 cs2 :
  length l1 = length cs1 ->
  children_leaves block i (l1 ++ l2) (cs1 ++ cs2) =
  children_leaves block i l1 cs1 && children_leaves block i l2 cs2.
Proof.
  revert l1. induction cs1 as [|c cs1 IH]; intros [|a l1] Hlen; try done.
  simpl in *. rewrite IH by lia. by rewrite andb_assoc.
Qed.

Section RecoverInvalid.
Variable block : list Ins.
Variable uses : list cell.

(** A call of [recoverTree] leaves every operand that names the position of
    its instruction, or a later one, as a leaf. *)
Lemma recover_invalid_leaves :
  (forall fuel st t s st',
      recoverTree block uses fuel st = Ok (t, s, st') ->
      rindex st' <= rindex st /\ invalid_leaves block (rindex st) t = true) /\
  (forall fuel rargs c s st c' s' st',
      recover_args uses (recoverTree block uses fuel) rargs c s st =
        Ok (c', s', st') ->
      rindex st' <= rindex st /\
      forall i, 0 <= i -> rindex st <= i ->
        exists new, c' = new ++ c /\ length new = length rargs /\
          children_leaves block i (rev rargs) new = true).
Proof.
  apply (recoverTree_ind block uses
           (fun st t _ st' =>
              rindex st' <= rindex st /\
              invalid_leaves block (rindex st) t = true)
           (fun rargs c _ st c' _ st' =>
              rindex st' <= rindex st /\
              forall i, 0 <= i -> rindex st <= i ->
                exists new, c' = new ++ c /\ length new = length rargs /\
                  children_leaves block i (rev rargs) new = true)).
  - intros c _ st. split; [lia|]. intros i _ _. by exists [].
  - intros arg rest c _ st c' _ st' Hneg [Hle IH]. split; [done|].
    intros i Hi0 Hi. destruct (IH i Hi0 Hi) as (new & -> & Hlen & Hall).
    exists (new ++ [CNum (bitnot arg)]). rewrite <- app_assoc.
    split; [done|]. rewrite length_app. simpl. split; [lia|].
    rewrite children_leaves_app by (by rewrite length_rev).
    rewrite Hall. simpl. rewrite andb_true_r. apply Z.ltb_lt. lia.
  - intros arg rest c st t cs st1 c' s' st' Hpos Hu Hadj [Hle1 Ht] [Hle IH].
    simpl in Hle1. split; [lia|].
    intros i Hi0 Hi. destruct (IH i Hi0 ltac:(lia)) as (new & -> & Hlen & Hall).
    exists (new ++ [CTree t]). rewrite <- app_assoc.
    split; [done|]. rewrite length_app. simpl. split; [lia|].
    rewrite children_leaves_app by (by rewrite length_rev).
    rewrite Hall. simpl in *. rewrite andb_true_r. subst arg. rewrite Ht.
    rewrite andb_true_r. apply Z.ltb_lt. lia.
  - intros arg rest c s st c' s' st' Hpos _ [Hle IH]. split; [done|].
    intros i Hi0 Hi. destruct (IH i Hi0 Hi) as (new & -> & Hlen & Hall).
    exists (new ++ [CStr arg]). rewrite <- app_assoc.
    split; [done|]. rewrite length_app. simpl. split; [lia|].
    rewrite children_leaves_app by (by rewrite length_rev).
    rewrite Hall. simpl. by rewrite Z.eqb_refl, orb_true_r.
  - intros st ins c s st' Hins [Hle IH]. simpl in Hle. split; [done|].
    pose proof (block_at_range _ _ _ Hins) as Hr.
    destruct (IH (rindex st)) as (new & Hc & _ & Hall); [lia | simpl; lia |].
    rewrite app_nil_r in Hc. subst new.
    rewrite invalid_leaves_node, Hins. by rewrite rev_involutive in Hall.
Qed.

Lemma recover_loop_invalid fuel : forall st trees res st',
  recover_loop block uses fuel st trees = Ok (res, st') ->
  Forall (fun p => invalid_leaves block p.1 p.2 = true) trees ->
  Forall (fun p => invalid_leaves block p.1 p.2 = true) res.
Proof.
  induction fuel as [|fuel IH]; intros st trees res st' Hrun Hall.
  - simpl in Hrun. destruct (0 <? rindex st); [done|]. by injection Hrun as <- <-.
  - cbn [recover_loop] in Hrun. destruct (0 <? rindex st).
    + destruct (recoverTree block uses (S fuel) (rec_dec st))
        as [[[t s] st2]| | |] eqn:Hrec; [|done..].
      cbn [mbind outcome_bind] in Hrun.
      apply (proj1 recover_invalid_leaves) in Hrec as [_ Ht].
      apply IH in Hrun; [done|]. by constructor.
    + by injection Hrun as <- <-.
Qed.

End RecoverInvalid.

Lemma invalid_refs_nonneg k b : forall i, 0 <= invalid_refs k i b.
Proof.
  induction b as [|ins b IH]; intros i; simpl; [done|].
  specialize (IH (i + 1)). pose proof (refs_in_nonneg k (emitted_args ins)).
  destruct (i <=? k); lia.
Qed.

Lemma invalid_refs_app k b1 b2 : forall i,
  invalid_refs k i (b1 ++ b2) =
  invalid_refs k i b1 + invalid_refs k (i + Z.of_nat (length b1)) b2.
Proof.
  induction b1 as [|ins b1 IH]; intros i; cbn [app invalid_refs length].
  - by rewrite Z.add_0_r.
  - rewrite IH, Nat2Z.inj_succ.
    replace (i + 1 + Z.of_nat (length b1))
      with (i + Z.succ (Z.of_nat (length b1))) by lia. lia.
Qed.

Lemma invalid_refs_le k b : forall i, invalid_refs k i b <= ref_operands k b.
Proof.
  induction b as [|ins b IH]; intros i; simpl; [done|].
  specialize (IH (i + 1)). pose proof (refs_in_nonneg k (emitted_args ins)).
  destruct (i <=? k); lia.
Qed.

Lemma refs_in_elem k l : k ∈ l -> 1 <= refs_in k l.
Proof.
  induction 1 as [k l|k a l _ IH]; simpl.
  - rewrite Z.eqb_refl. pose proof (refs_in_nonneg k l). lia.
  - destruct (a =? k); lia.
Qed.

(** An operand of the instruction at position [p] that names [p] or a later
    position is counted. *)
Lemma invalid_refs_elem k block : forall i (p : nat) ins,
  block !! p = Some ins -> k ∈ emitted_args ins -> i + Z.of_nat p <= k ->
  1 <= invalid_refs k i block.
Proof.
  induction block as [|x block IH]; intros i p ins Hp Hk Hle; [done|].
  simpl. destruct p as [|p]; simpl in Hp.
  - injection Hp as ->. destruct (Z.leb_spec i k); [|lia].
    pose proof (refs_in_elem _ _ Hk).
    pose proof (invalid_refs_nonneg k block (i + 1)). lia.
  - pose proof (IH (i + 1) p ins Hp Hk ltac:(lia)).
    pose proof (refs_in_nonneg k (emitted_args x)).
    destruct (i <=? k); lia.
Qed.

Lemma slice_length block lo hi :
  0 <= lo <= hi -> hi <= Z.of_nat (length block) ->
  Z.of_nat (length (slice block lo hi)) = hi - lo.
Proof.
  intros H1 H2. unfold slice. rewrite length_take, length_drop. lia.
Qed.

Section EmitInvalid.
Variable block : list Ins.
Variable uses : list cell.

(** A call of [visit] leaves with a slot every index named by an operand it
    examines in an instruction at that index or before it. *)
Lemma visit_invalid k :
  0 <= k ->
  (forall fuel st st',
      visit block uses fuel st = Ok st' ->
      1 <= invalid_refs k (eindex st')
             (slice block (eindex st') (eindex st + 1)) ->
      is_Some (locals st' !! k)) /\
  (forall fuel rargs st st',
      visit_args uses (visit block uses fuel) rargs st = Ok st' ->
      forall q, eindex st <= q < Z.of_nat (length block) ->
        1 <= (if q <=? k then refs_in k rargs else 0) +
             invalid_refs k (eindex st')
               (slice block (eindex st') (eindex st)) ->
        is_Some (locals st' !! k)).
Proof.
  intros Hk0.
  apply (visit_ind block uses
           (fun st st' =>
              1 <= invalid_refs k (eindex st')
                     (slice block (eindex st') (eindex st + 1)) ->
              is_Some (locals st' !! k))
           (fun rargs st st' =>
              forall q, eindex st <= q < Z.of_nat (length block) ->
                1 <= (if q <=? k then refs_in k rargs else 0) +
                     invalid_refs k (eindex st')
                       (slice block (eindex st') (eindex st)) ->
                is_Some (locals st' !! k))).
  - intros st q _. rewrite slice_nil. simpl. destruct (q <=? k); lia.
  - intros fuel arg rest st st' Hneg _ IH q Hq H. apply (IH q); [done|].
    simpl in *. destruct (Z.eqb_spec arg k); [lia|]. done.
  - intros fuel arg rest st st1 st' Hpos Hu Hadj Hv Ha IH1 IH q Hq H.
    pose proof (visit_args_post_holds _ _ _ _ _ _ Ha)
      as (Hle & Hpos' & _ & _ & Hl & _).
    apply visit_post_holds in Hv as (Hr1 & _).
    cbn [emit_dec eindex wasmCode] in *.
    replace (eindex st - 1 + 1) with (eindex st) in * by lia.
    rewrite (slice_split block (eindex st') (eindex st1) (eindex st)) in H
      by lia.
    rewrite invalid_refs_app, slice_length in H by lia.
    replace (eindex st' + (eindex st1 - eindex st')) with (eindex st1) in H
      by lia.
    simpl in H.
    destruct (Z.le_gt_cases 1 (invalid_refs k (eindex st1)
                (slice block (eindex st1) (eindex st)))) as [H1|H1].
    + destruct (IH1 H1) as [s Hs].
      exists s. by apply (lookup_weaken _ _ _ _ Hs).
    + apply (IH q); [lia|].
      destruct (Z.leb_spec q k); [|lia].
      destruct (Z.eqb_spec arg k); lia.
  - intros fuel arg rest st st' Hpos Hno Ha IH q Hq H.
    apply visit_args_post_holds in Ha as (_ & _ & _ & _ & Hl & _).
    cbn [unshift eindex wasmCode locals] in *.
    rewrite makeLocal_index in *. simpl in H.
    destruct (Z.eqb_spec arg k) as [->|Hne]; [|by apply (IH q)].
    destruct (Z.le_gt_cases q k) as [Hqk|Hqk].
    + exists (makeLocal k st).1.
      apply (lookup_weaken _ _ _ _ (makeLocal_lookup k st) Hl).
    + apply (IH q); [done|]. revert H.
      destruct (Z.leb_spec q k); [lia|]. done.
  - intros fuel st ins st' Hins Ha IH H.
    apply visit_args_post_holds in Ha as (Hle & Hpos' & _).
    pose proof (block_at_range _ _ _ Hins) as Hr.
    cbn [unshift emit_enter eindex wasmCode] in *.
    rewrite (slice_snoc block _ _ ins) in H by (done || lia).
    rewrite invalid_refs_app, slice_length in H by lia.
    replace (eindex st' + (eindex st - eindex st')) with (eindex st) in H
      by lia.
    simpl in H. apply (IH (eindex st)); [lia|].
    fold (emitted_args ins). rewrite refs_in_rev. lia.
Qed.

(** The loop: every index named by an operand of an instruction at that
    index or before it, among the instructions passed, has its slot. *)
Lemma reach_invalid st k :
  0 <= k ->
  rtc (loop_step block uses) (emit_init block) st ->
  1 <= invalid_refs k (eindex st)
         (slice block (eindex st) (Z.of_nat (length block))) ->
  is_Some (locals st !! k).
Proof.
  intros Hk0 Hreach. revert st Hreach.
  apply (rtc_ind_r (fun st =>
    1 <= invalid_refs k (eindex st)
           (slice block (eindex st) (Z.of_nat (length block))) ->
    is_Some (locals st !! k))).
  - simpl. rewrite slice_nil. simpl. lia.
  - intros st st1 Hreach Hstep IH H.
    destruct (reach_slot_refs block uses st 0 Hreach) as [Hr _].
    pose proof Hstep as [Hpos [fuel Hv]].
    pose proof (visit_post_holds _ _ _ _ _ Hv) as (Hr1 & _ & _ & Hl & _).
    rewrite store_local_index, ?store_local_locals in *.
    cbn [emit_dec eindex locals] in *.
    replace (eindex st - 1 + 1) with (eindex st) in * by lia.
    rewrite (slice_split block (eindex st1) (eindex st)
               (Z.of_nat (length block))) in H by lia.
    rewrite invalid_refs_app, slice_length in H by lia.
    replace (eindex st1 + (eindex st - eindex st1)) with (eindex st) in H
      by lia.
    destruct (Z.le_gt_cases 1 (invalid_refs k (eindex st)
                (slice block (eindex st) (Z.of_nat (length block)))))
      as [H1|H1].
    + destruct (IH H1) as [s Hs].
      exists s. by apply (lookup_weaken _ _ _ _ Hs).
    + pose proof (proj1 (visit_invalid k Hk0) _ _ _ Hv) as Hv'.
      rewrite store_local_index in Hv'. cbn [emit_dec eindex] in Hv'.
      replace (eindex st - 1 + 1) with (eindex st) in * by lia.
      apply Hv'. lia.
Qed.

End EmitInvalid.

(** [uses[arg]++] past the end leaves the array with [arg + 1] elements. *)
Lemma uses_incr_extend uses arg :
  0 <= arg < array_max -> Z.of_nat (length uses) <= arg ->
  Z.of_nat (length (uses_incr uses arg)) = arg + 1.
Proof.
  intros Ha Hlen. unfold uses_incr.
  destruct (Z.ltb_spec arg array_max); [|lia].
  rewrite (lookup_ge_None_2 uses (Z.to_nat arg)) by lia.
  rewrite !length_app, length_replicate. simpl. lia.
Qed.

(** A reference to the last index an array can have fills the array: the
    [push] for the next instruction raises. *)
Lemma push_after_last_index a :
  a = array_max - 1 -> stackify [mkIns Add [a]; mkIns Add []] = RangeError.
Proof.
  intros Ha.
  assert (count_uses [mkIns Add [a]; mkIns Add []] = RangeError) as Hc.
  { unfold count_uses. cbn [count_loop]. unfold count_ins.
    rewrite uses_push_Ok by (simpl; unfold array_max; lia).
    cbn [mbind outcome_bind args count_args fold_left app].
    destruct (Z.leb_spec 0 a); [|unfold array_max in *; lia].
    unfold uses_push.
    rewrite uses_incr_extend; [|unfold array_max in *; simpl; lia ..].
    by destruct (Z.ltb_spec (a + 1) array_max); [lia|]. }
  unfold stackify. by rewrite Hc.
Qed.




(** *** The emitter against the recoverer *)

Lemma local_is_const_skipped ins :
  local_is_const ins = true ->
  Forall (fun a => a < 0) (take (own_op ins).2 (args ins)).
Proof.
  unfold local_is_const, own_op.
  destruct (kind ins), (args ins) as [|a l]; simpl; try done.
  - intros Ha%Z.ltb_lt. by repeat constructor.
  - intros Ha%Z.ltb_lt. by repeat constructor.
Qed.

Section Simulation.
Variable block : list Ins.
Variable uses : list cell.
Hypothesis Hlc : locals_const block = true.

Lemma block_at_local_const i ins :
  block_at block i = Some ins -> local_is_const ins = true.
Proof.
  intros [_ Hi]%block_at_Some. unfold locals_const in Hlc.
  rewrite forallb_forall in Hlc. apply Hlc.
  apply list_elem_of_In. by apply list_elem_of_lookup_2 in Hi.
Qed.

(** The two passes from the same position: the emitter's call goes at
    least as far down as the recoverer's, and where it goes further the
    recoverer has set its flag. *)
Lemma calls_simulate :
  (forall fuel st t s st',
      recoverTree block uses fuel st = Ok (t, s, st') ->
      forall fuel2 est est',
        eindex est = rindex st ->
        visit block uses fuel2 est = Ok est' ->
        eindex est' <= rindex st' /\ (eindex est' < rindex st' -> s = true)) /\
  (forall fuel rargs c s st c' s' st',
      recover_args uses (recoverTree block uses fuel) rargs c s st =
        Ok (c', s', st') ->
      forall fuel2 eargs consts est est',
        rargs = eargs ++ consts -> Forall (fun a => a < 0) consts ->
        eindex est <= rindex st -> (eindex est < rindex st -> s = true) ->
        visit_args uses (visit block uses fuel2) eargs est = Ok est' ->
        eindex est' <= rindex st' /\ (eindex est' < rindex st' -> s' = true)).
Proof.
  apply (recoverTree_ind block uses
           (fun st t s st' =>
              forall fuel2 est est',
                eindex est = rindex st ->
                visit block uses fuel2 est = Ok est' ->
                eindex est' <= rindex st' /\
                (eindex est' < rindex st' -> s = true))
           (fun rargs c s st c' s' st' =>
              forall fuel2 eargs consts est est',
                rargs = eargs ++ consts -> Forall (fun a => a < 0) consts ->
                eindex est <= rindex st ->
                (eindex est < rindex st -> s = true) ->
                visit_args uses (visit block uses fuel2) eargs est = Ok est' ->
                eindex est' <= rindex st' /\
                (eindex est' < rindex st' -> s' = true))).
  - intros c s st fuel2 eargs consts est est' Heq _ Hle Hs Hrun.
    symmetry in Heq. apply app_eq_nil in Heq as [-> _].
    injection Hrun as <-. done.
  - intros arg rest c s st c' s' st' Hneg IH fuel2 eargs consts est est'
      Heq Hc Hle Hs Hrun.
    destruct eargs as [|a eargs]; simpl in Heq.
    + injection Hrun as <-. subst consts.
      apply Forall_cons in Hc as [_ Hc]. by apply (IH fuel2 [] rest est est).
    + injection Heq as <- ->. simpl in Hrun.
      destruct (Z.ltb_spec arg 0); [|lia].
      by eapply (IH fuel2 eargs consts); [done | done | | | exact Hrun].
  - intros arg rest c st t cs st1 c' s' st' Hpos Hu Hadj IHQ IH
      fuel2 eargs consts est est' Heq Hc Hle Hs Hrun.
    destruct eargs as [|a eargs]; simpl in Heq.
    { subst consts. apply Forall_cons in Hc as [? _]. lia. }
    injection Heq as <- ->. simpl in Hrun.
    destruct (Z.ltb_spec arg 0); [lia|].
    assert (eindex est = rindex st) as He.
    { destruct (Z.eq_dec (eindex est) (rindex st)); [done|].
      by specialize (Hs ltac:(lia)). }
    rewrite Hu, He, Hadj, Z.eqb_refl in Hrun. simpl in Hrun.
    destruct (visit block uses fuel2 (emit_dec est)) as [est1| | |] eqn:Hv;
      simpl in Hrun; [|done..].
    destruct (IHQ fuel2 (emit_dec est) est1) as [Hle1 Hs1];
      [simpl; lia | done |].
    apply (IH fuel2 eargs consts est1 est'); try done.
  - intros arg rest c s st c' s' st' Hpos Hno IH
      fuel2 eargs consts est est' Heq Hc Hle Hs Hrun.
    destruct eargs as [|a eargs]; simpl in Heq.
    { subst consts. apply Forall_cons in Hc as [? _]. lia. }
    injection Heq as <- ->. simpl in Hrun.
    destruct (Z.ltb_spec arg 0); [lia|].
    destruct (uses_one uses arg && (arg =? eindex est - 1)).
    + destruct (visit block uses fuel2 (emit_dec est)) as [est1| | |] eqn:Hv;
        simpl in Hrun; [|done..].
      apply visit_post_holds in Hv as (Hr1 & _). simpl in Hr1.
      apply (IH fuel2 eargs consts est1 est'); try done. lia.
    + pose proof (makeLocal_index arg est) as Hi.
      destruct (makeLocal arg est) as [local est2]. simpl in Hi.
      eapply (IH fuel2 eargs consts); [done | done | | | exact Hrun];
        [simpl; lia | done].
  - intros st ins c s st' Hins IH fuel2 est est' He Hrun.
    destruct fuel2 as [|fuel2]; [done|]. simpl in Hrun.
    rewrite He, Hins in Hrun.
    pose proof (local_is_const_skipped ins (block_at_local_const _ _ Hins))
      as Hskip.
    destruct (own_op ins) as [op lower]. simpl in Hskip.
    apply (IH fuel2 (rev (drop lower (args ins))) (rev (take lower (args ins)))
             (unshift op (emit_enter est)) est'); try done.
    + by rewrite <- rev_app_distr, take_drop.
    + apply Forall_forall. intros a Ha.
      rewrite Forall_forall in Hskip. apply Hskip.
      apply list_elem_of_In, in_rev. by apply list_elem_of_In.
    + simpl. lia.
    + simpl. lia.
Qed.

(** Where a call of [visit] ends depends on the cursor it starts from
    only. *)
Lemma visit_cursor :
  (forall fuel st st',
      visit block uses fuel st = Ok st' ->
      forall fuel2 st2 st2',
        eindex st2 = eindex st ->
        visit block uses fuel2 st2 = Ok st2' -> eindex st2' = eindex st') /\
  (forall fuel rargs st st',
      visit_args uses (visit block uses fuel) rargs st = Ok st' ->
      forall fuel2 st2 st2',
        eindex st2 = eindex st ->
        visit_args uses (visit block uses fuel2) rargs st2 = Ok st2' ->
        eindex st2' = eindex st').
Proof.
  apply (visit_ind block uses
           (fun st st' =>
              forall fuel2 st2 st2',
                eindex st2 = eindex st ->
                visit block uses fuel2 st2 = Ok st2' ->
                eindex st2' = eindex st')
           (fun rargs st st' =>
              forall fuel2 st2 st2',
                eindex st2 = eindex st ->
                visit_args uses (visit block uses fuel2) rargs st2 = Ok st2' ->
                eindex st2' = eindex st')).
  - intros st fuel2 st2 st2' He [= <-]. done.
  - intros fuel arg rest st st' Hneg _ IH fuel2 st2 st2' He Hrun.
    simpl in Hrun. destruct (Z.ltb_spec arg 0); [|lia].
    eapply (IH fuel2); [|exact Hrun]. done.
  - intros fuel arg rest st st1 st' Hpos Hu Hadj _ _ IHQ IH
      fuel2 st2 st2' He Hrun.
    simpl in Hrun. destruct (Z.ltb_spec arg 0); [lia|].
    rewrite Hu, He, Hadj, Z.eqb_refl in Hrun. simpl in Hrun.
    destruct (visit block uses fuel2 (emit_dec st2)) as [st3| | |] eqn:Hv;
      simpl in Hrun; [|done..].
    apply (IH fuel2 st3 st2'); [|done].
    apply (IHQ fuel2 (emit_dec st2)); [simpl; lia | done].
  - intros fuel arg rest st st' Hpos Hno _ IH fuel2 st2 st2' He Hrun.
    simpl in Hrun. destruct (Z.ltb_spec arg 0); [lia|].
    unfold in_place in Hno. rewrite He, Hno in Hrun.
    pose proof (makeLocal_index arg st2) as Hi.
    destruct (makeLocal arg st2) as [local st3]. simpl in Hi.
    eapply (IH fuel2); [|exact Hrun]. simpl.
    rewrite makeLocal_index. lia.
  - intros fuel st ins st' Hins _ IH fuel2 st2 st2' He Hrun.
    destruct fuel2 as [|fuel2]; [done|]. simpl in Hrun.
    rewrite He, Hins in Hrun. destruct (own_op ins) as [op lower].
    eapply (IH fuel2); [|exact Hrun]. done.
Qed.

(** A call of [visit] from a position passed by another call ends inside
    the range of that call. *)
Lemma visit_nested_range :
  (forall fuel st st',
      visit block uses fuel st = Ok st' ->
      forall q, eindex st' <= q <= eindex st ->
        forall fuel2 sq sq',
          eindex sq = q -> visit block uses fuel2 sq = Ok sq' ->
          eindex st' <= eindex sq') /\
  (forall fuel rargs st st',
      visit_args uses (visit block uses fuel) rargs st = Ok st' ->
      forall q, eindex st' <= q < eindex st ->
        forall fuel2 sq sq',
          eindex sq = q -> visit block uses fuel2 sq = Ok sq' ->
          eindex st' <= eindex sq').
Proof.
  apply (visit_ind block uses
           (fun st st' =>
              forall q, eindex st' <= q <= eindex st ->
                forall fuel2 sq sq',
                  eindex sq = q -> visit block uses fuel2 sq = Ok sq' ->
                  eindex st' <= eindex sq')
           (fun rargs st st' =>
              forall q, eindex st' <= q < eindex st ->
                forall fuel2 sq sq',
                  eindex sq = q -> visit block uses fuel2 sq = Ok sq' ->
                  eindex st' <= eindex sq')).
  - intros st q Hq. lia.
  - intros fuel arg rest st st' _ _ IH q Hq. by apply IH.
  - intros fuel arg rest st st1 st' Hpos Hu Hadj Hv Ha IHQ IH q Hq
      fuel2 sq sq' Hsq Hrun.
    apply visit_args_post_holds in Ha as (Hle & _).
    destruct (Z.lt_ge_cases q (eindex st1)) as [Hlt|Hge].
    + by apply (IH q ltac:(lia) fuel2 sq sq').
    + pose proof (IHQ q ltac:(simpl; lia) fuel2 sq sq' Hsq Hrun). lia.
  - intros fuel arg rest st st' Hpos Hno _ IH q Hq.
    apply IH. simpl. by rewrite makeLocal_index.
  - intros fuel st ins st' Hins Ha IH q Hq fuel2 sq sq' Hsq Hrun.
    destruct (Z.eq_dec q (eindex st)) as [->|Hne].
    + assert (visit block uses (S fuel) st = Ok st') as Hv.
      { simpl. rewrite Hins. by destruct (own_op ins). }
      rewrite (proj1 visit_cursor _ _ _ Hv fuel2 sq sq' Hsq Hrun). lia.
    + by apply (IH q ltac:(simpl; lia) fuel2 sq sq').
Qed.

(** One iteration of the loop moves the cursor down, to a value that
    depends on the cursor only. *)
Lemma loop_step_down st st1 :
  loop_step block uses st st1 -> eindex st1 < eindex st.
Proof.
  intros [Hpos [fuel Hv]]. apply visit_post_holds in Hv as (Hle & _).
  rewrite store_local_index in Hle. simpl in Hle. lia.
Qed.

Lemma reach_down st st' :
  rtc (loop_step block uses) st st' -> eindex st' <= eindex st.
Proof.
  induction 1 as [st|st st1 st' Hstep _ IH]; [lia|].
  apply loop_step_down in Hstep. lia.
Qed.

Lemma loop_step_cursor a a1 b b1 :
  loop_step block uses a a1 -> loop_step block uses b b1 ->
  eindex a = eindex b -> eindex a1 = eindex b1.
Proof.
  intros [_ [f1 H1]] [_ [f2 H2]] He.
  apply (proj1 visit_cursor _ _ _ H2 f1 (store_local (emit_dec a)) a1);
    [|done].
  rewrite !store_local_index. simpl. lia.
Qed.

(** Two runs of the loop from the same cursor go through the same cursors:
    a state further down than [a] is at or below the state that follows
    [a]. *)
Lemma reach_between x a :
  rtc (loop_step block uses) x a ->
  forall y b a1,
    rtc (loop_step block uses) y b -> eindex x = eindex y ->
    eindex b < eindex a -> loop_step block uses a a1 ->
    eindex b <= eindex a1.
Proof.
  induction 1 as [x|x x1 a Hx Hxa IH]; intros y b a1 Hyb Hxy Hlt Ha.
  - apply rtc_inv in Hyb as [->|(z & Hz & Hzb)]; [lia|].
    rewrite (loop_step_cursor _ _ _ _ Ha Hz Hxy). by apply reach_down.
  - apply rtc_inv in Hyb as [->|(z & Hz & Hzb)].
    + apply loop_step_down in Hx. apply reach_down in Hxa. lia.
    + apply (IH z b a1 Hzb); [|done..].
      by apply (loop_step_cursor _ _ _ _ Hx Hz).
Qed.

(** Every position below the cursor is passed by the call of [recoverTree]
    for one of the trees the loop adds. *)
Lemma recover_loop_cover fuel : forall st trees res st',
  0 <= rindex st <= Z.of_nat (length block) ->
  recover_loop block uses fuel st trees = Ok (res, st') ->
  exists new, res = new ++ trees /\
    forall k, 0 <= k < rindex st ->
      exists p fuel' sr s sr',
        p ∈ new /\ rindex sr = p.1 /\
        recoverTree block uses fuel' sr = Ok (p.2, s, sr') /\
        rindex sr' <= k <= p.1.
Proof.
  induction fuel as [|fuel IH]; intros st trees res st' Hr Hrun.
  - simpl in Hrun. destruct (Z.ltb_spec 0 (rindex st)); [done|].
    injection Hrun as <- <-. exists []. split; [done|]. lia.
  - cbn [recover_loop] in Hrun. destruct (Z.ltb_spec 0 (rindex st)) as [Hpos|Hz].
    + destruct (recoverTree block uses (S fuel) (rec_dec st))
        as [[[t s] st2]| | |] eqn:Hrec; [|done..].
      cbn [mbind outcome_bind] in Hrun.
      pose proof (recoverTree_post _ _ _ _ _ _ _ Hrec) as (Hle & _).
      cbn [rec_dec rindex] in *.
      apply IH in Hrun as (new & -> & Hcov); [|lia].
      exists (new ++ [(rindex st - 1, t)]). rewrite <- app_assoc.
      split; [done|]. intros k Hk.
      destruct (Z.lt_ge_cases k (rindex st2)) as [Hlt|Hge].
      * destruct (Hcov k ltac:(lia)) as (p & f' & sr & s' & sr' & Hp & H').
        exists p, f', sr, s', sr'. split; [|done].
        apply elem_of_app. by left.
      * exists (rindex st - 1, t), (S fuel), (rec_dec st), s, st2.
        split_and!; [|done|done|simpl; lia|simpl; lia].
        apply elem_of_app. right. by left.
    + injection Hrun as <- <-. exists []. split; [done|]. lia.
Qed.

End Simulation.

(** X12. The emitter compiles in place every instruction the recoverer
    nests.  On a block whose [LocalGet] and [LocalSet] instructions name
    their local by a constant, every position where the emitter's loop
    begins an iteration is the root of a tree of the forest; so an
    instruction that is nested in a tree is passed by the emitter inside a
    nested call of [visit], and gets no slot.
    (The block is one on which the use counter returns.) *)
Theorem emitter_roots_are_forest_roots (block : list Ins) (uses : list cell) :
  count_uses block = Ok uses ->
  locals_const block = true ->
  exists r est,
    stackify block = Ok r /\
    emit_code block uses = Ok est /\
    (forall st st1,
        iteration block uses est st st1 ->
        eindex st - 1 ∈ (s_trees r).*1) /\
    (forall k,
        0 <= k < Z.of_nat (length block) -> k ∉ (s_trees r).*1 ->
        s_locals r !! k = None /\
        exists st st1,
          iteration block uses est st st1 /\
          eindex st1 <= k < eindex st - 1).
Proof.
  intros Huses Hlc. with_table Huses as r Hr. exists r.
  destruct (stackify_emit block r Hr) as (est & Hemit & _ & Hl & Hz & Hreach).
  destruct (forest_accounts block r Hr) as (Hrange & _).
  pose proof Hr as (rst & est' & Hrec & _)%stackify_Ok.
  unfold recover_trees in Hrec.
  apply recover_loop_cover in Hrec as (new & Hnew & Hcov); [|simpl; lia].
  rewrite app_nil_r in Hnew. subst new. cbn [rindex] in Hcov.
  exists est. split; [done|]. split; [done|].
  assert (forall st st1,
            iteration block (use_table block) est st st1 ->
            eindex st - 1 ∈ (s_trees r).*1) as Hroots.
  { intros sa sb (Ha & Hstep & Hrest).
    destruct (reach_slot_refs block (use_table block) sa 0 Ha) as [Hr0 _].
    pose proof Hstep as [Hpos _].
    destruct (Hcov (eindex sa - 1) ltac:(lia))
      as (p & f' & sr & s & sr' & Hp & Hsr & Hrun & Hk).
    assert (p.1 ∈ (s_trees r).*1) as Hin
      by (apply list_elem_of_fmap; by exists p).
    destruct (Z.eq_dec (eindex sa - 1) p.1) as [->|Hne]; [done|].
    exfalso. specialize (Hrange _ Hin).
    destruct (reach_covers block (use_table block) est p.1 Hreach
                ltac:(lia)) as (sa' & sb' & (Ha' & Hstep' & Hrest') & Hab).
    destruct (visit_total block (use_table block) (S (Z.to_nat p.1))
                (mkEmit p.1 [] ∅ 100 [])) as [eq' Heq]; [simpl; lia..|].
    pose proof Hstep' as [_ [f Hv]].
    pose proof (proj1 (visit_nested_range block (use_table block))
                  _ _ _ Hv p.1) as Hnest.
    rewrite store_local_index in Hnest. cbn [emit_dec eindex] in Hnest.
    specialize (Hnest ltac:(lia) _ (mkEmit p.1 [] ∅ 100 []) eq' eq_refl Heq).
    destruct (proj1 (calls_simulate block (use_table block) Hlc)
                _ _ _ _ _ Hrun _ (mkEmit p.1 [] ∅ 100 []) eq'
                (eq_sym Hsr) Heq) as [Hsim _].
    pose proof (reach_between block (use_table block) _ _ Ha'
                  _ sa sb' Ha eq_refl ltac:(lia) Hstep'). lia. }
  split; [done|]. intros k Hk Hnot.
  destruct (reach_covers block (use_table block) est k Hreach ltac:(lia))
    as (sa & sb & Hit & Hab).
  assert (k < eindex sa - 1) as Hlt.
  { destruct (Z.eq_dec k (eindex sa - 1)) as [->|]; [|lia].
    destruct Hnot. by apply (Hroots sa sb). }
  split; [|exists sa, sb; split; [done | lia]].
  rewrite Hl. apply (in_place_no_slot block est sa sb k Hit Hz). lia.
Qed.

Lemma emitter_roots_are_forest_roots_witness :
  exists r est st1,
    stackify demo3 = Ok r /\
    iteration demo3 (use_table demo3) est (emit_init demo3) st1 /\
    eindex (emit_init demo3) - 1 ∈ (s_trees r).*1.
Proof.
  destruct (emitter_roots_are_forest_roots demo3 (use_table demo3) eq_refl)
    as (r & est & Hr & Hest & H & _); [reflexivity|].
  exists r, est.
  destruct (visit demo3 (use_table demo3) 7
              (store_local (emit_dec (emit_init demo3)))) as [st1| | |] eqn:Hv;
    [|by vm_compute in Hv..].
  exists st1.
  assert (iteration demo3 (use_table demo3) est (emit_init demo3) st1) as Hit.
  { split_and!.
    - apply rtc_refl.
    - split; [simpl; lia | by exists 7%nat].
    - change (emit_code demo3 (use_table demo3))
        with (visit demo3 (use_table demo3) 7
                (store_local (emit_dec (emit_init demo3))) ≫=
              emit_loop demo3 (use_table demo3) 6) in Hest.
      rewrite Hv in Hest. by apply emit_loop_reach in Hest. }
  split_and!; [done | done |]. by apply (H _ st1).
Defined.

(** *** The order of the block *)

Lemma tree_postorder_node block i k cs :
  tree_postorder block i (Node k cs) =
  children_postorder block
    (match block_at block i with Some ins => args ins | None => [] end) cs ++
  [i].
Proof.
  cbn [tree_postorder]. f_equal.
  generalize (match block_at block i with
              | Some ins => args ins
              | None => []
              end).
  induction cs as [|c cs IH]; intros l; [by destruct l|].
  destruct l as [|a l]; [done|]. cbn [children_postorder]. by rewrite <- IH.
Qed.

Lemma children_postorder_app block l1 l2 cs1 cs2 :
  length l1 = length cs1 ->
  children_postorder block (l1 ++ l2) (cs1 ++ cs2) =
  children_postorder block l1 cs1 ++ children_postorder block l2 cs2.
Proof.
  revert cs1. induction l1 as [|a l1 IH]; intros [|c cs1] Hlen; try done.
  simpl. rewrite IH by (simpl in Hlen; lia). by rewrite app_assoc.
Qed.

Lemma forest_postorder_app block f1 f2 :
  forest_postorder block (f1 ++ f2) =
  forest_postorder block f1 ++ forest_postorder block f2.
Proof. unfold forest_postorder. by rewrite bind_app. Qed.

Section RecoverOrder.
Variable block : list Ins.
Variable uses : list cell.

(** A call of [recoverTree] builds a tree whose positions, in the order of
    evaluation, are the positions it passes, in the order of the block. *)
Lemma recover_postorder :
  (forall fuel st t s st',
      recoverTree block uses fuel st = Ok (t, s, st') ->
      0 <= rindex st' <= rindex st /\
      tree_postorder block (rindex st) t =
      seq_range (rindex st') (rindex st + 1)) /\
  (forall fuel rargs c s st c' s' st',
      recover_args uses (recoverTree block uses fuel) rargs c s st =
        Ok (c', s', st') ->
      rindex st' <= rindex st /\ (0 <= rindex st -> 0 <= rindex st') /\
      exists new, c' = new ++ c /\ length new = length rargs /\
        children_postorder block (rev rargs) new =
        seq_range (rindex st') (rindex st)).
Proof.
  apply (recoverTree_ind block uses
           (fun st t s st' =>
              0 <= rindex st' <= rindex st /\
              tree_postorder block (rindex st) t =
              seq_range (rindex st') (rindex st + 1))
           (fun rargs c s st c' s' st' =>
              rindex st' <= rindex st /\
              (0 <= rindex st -> 0 <= rindex st') /\
              exists new, c' = new ++ c /\ length new = length rargs /\
                children_postorder block (rev rargs) new =
                seq_range (rindex st') (rindex st))).
  - intros c s st. split_and!; [lia | done |]. exists [].
    by rewrite seq_range_nil.
  - intros arg rest c s st c' s' st' Hneg (Hle & Hpos & new & -> & Hlen & Hp).
    split_and!; [done..|]. exists (new ++ [CNum (bitnot arg)]).
    rewrite <- app_assoc, length_app. simpl. split_and!; [done | lia |].
    rewrite children_postorder_app by (by rewrite length_rev).
    rewrite Hp. simpl. by rewrite app_nil_r.
  - intros arg rest c st t cs st1 c' s' st' Hpos Hu Hadj
      (Hr1 & Hp1) (Hle & Hpos' & new & -> & Hlen & Hp).
    cbn [rec_dec rindex] in *.
    replace (rindex st - 1 + 1) with (rindex st) in * by lia.
    split_and!; [lia | lia |]. exists (new ++ [CTree t]).
    rewrite <- app_assoc, length_app. simpl. split_and!; [done | lia |].
    rewrite children_postorder_app by (by rewrite length_rev).
    rewrite Hp. cbn [children_postorder child_postorder].
    rewrite app_nil_r, Hadj, Hp1. symmetry. apply seq_range_split. lia.
  - intros arg rest c s st c' s' st' Hpos Hno
      (Hle & Hpos' & new & -> & Hlen & Hp).
    split_and!; [done..|]. exists (new ++ [CStr arg]).
    rewrite <- app_assoc, length_app. simpl. split_and!; [done | lia |].
    rewrite children_postorder_app by (by rewrite length_rev).
    rewrite Hp. simpl. by rewrite app_nil_r.
  - intros st ins c s st' Hins (Hle & Hpos' & new & Hc & Hlen & Hp).
    rewrite app_nil_r in Hc. subst c. cbn [rec_enter rindex] in *.
    pose proof (block_at_range _ _ _ Hins) as Hr.
    split; [lia|]. rewrite tree_postorder_node, Hins.
    rewrite rev_involutive in Hp. rewrite Hp. symmetry.
    apply seq_range_snoc. lia.
Qed.

Lemma recover_loop_postorder fuel : forall st trees res st',
  0 <= rindex st <= Z.of_nat (length block) ->
  recover_loop block uses fuel st trees = Ok (res, st') ->
  exists new, res = new ++ trees /\
    forest_postorder block new = seq_range 0 (rindex st).
Proof.
  induction fuel as [|fuel IH]; intros st trees res st' Hr Hrun.
  - simpl in Hrun. destruct (Z.ltb_spec 0 (rindex st)); [done|].
    injection Hrun as <- <-. exists []. split; [done|].
    assert (rindex st = 0) as -> by lia. by rewrite seq_range_nil.
  - cbn [recover_loop] in Hrun.
    destruct (Z.ltb_spec 0 (rindex st)) as [Hpos|Hz].
    + destruct (recoverTree block uses (S fuel) (rec_dec st))
        as [[[t s] st2]| | |] eqn:Hrec; [|done..].
      cbn [mbind outcome_bind] in Hrun.
      apply (proj1 recover_postorder) in Hrec as (Hle & Hp).
      cbn [rec_dec rindex] in *.
      replace (rindex st - 1 + 1) with (rindex st) in * by lia.
      apply IH in Hrun as (new & -> & Hnew); [|lia].
      exists (new ++ [(rindex st - 1, t)]). rewrite <- app_assoc.
      split; [done|]. rewrite forest_postorder_app, Hnew.
      unfold forest_postorder at 1. simpl. rewrite app_nil_r, Hp.
      symmetry. apply seq_range_split. lia.
    + injection Hrun as <- <-. exists []. split; [done|].
      assert (rindex st = 0) as -> by lia. by rewrite seq_range_nil.
Qed.

End RecoverOrder.

(** X13. The forest keeps the order of the block: read tree after tree, each
    tree with its nested trees from left to right before its root (the order
    in which a stack machine evaluates it), the instructions of the forest
    are the instructions of the block from first to last.
    (The block is one on which the use counter returns.) *)
Theorem forest_keeps_block_order (block : list Ins) (uses : list cell) :
  count_uses block = Ok uses ->
  exists r, stackify block = Ok r /\
    forest_postorder block (s_trees r) = seqZ 0 (Z.of_nat (length block)).
Proof.
  intros Huses. with_table Huses as r Hr. exists r. split; [done|].
  apply stackify_Ok in Hr as (rst & est & Hrec & _).
  unfold recover_trees in Hrec.
  apply recover_loop_postorder in Hrec as (new & Hnew & Hp); [|simpl; lia].
  rewrite app_nil_r in Hnew. subst new. rewrite Hp. unfold seq_range.
  simpl. by rewrite Z.sub_0_r.
Qed.

Lemma forest_keeps_block_order_witness :
  exists r, stackify demo2 = Ok r /\
    forest_postorder demo2 (s_trees r) = seqZ 0 (Z.of_nat (length demo2)).
Proof. apply (forest_keeps_block_order demo2 (use_table demo2) eq_refl). Defined.

Lemma filter_app_own (l1 l2 : list Op) :
  List.filter is_own (l1 ++ l2) = List.filter is_own l1 ++ List.filter is_own l2.
Proof. apply List.filter_app. Qed.

Lemma makeLocal_slot_ge arg st :
  slots_from 100 st -> 100 <= (makeLocal arg st).1.
Proof.
  intros (Hb & Hran & _). unfold makeLocal.
  destruct (locals st !! arg) as [l|] eqn:Hl; simpl; [|done].
  by apply Hran in Hl as [? _].
Qed.

Section EmitOrder.
Variable block : list Ins.
Variable uses : list cell.
Hypothesis Hlow : locals_below_slots block = true.

Lemma block_at_own i ins :
  block_at block i = Some ins -> is_own (own_op ins).1 = true.
Proof.
  intros [_ Hi]%block_at_Some. unfold locals_below_slots in Hlow.
  rewrite forallb_forall in Hlow. apply Hlow.
  apply list_elem_of_In. by apply list_elem_of_lookup_2 in Hi.
Qed.

(** The own operations a call puts in the sequence are those of the
    instructions it passes, in the order of the block. *)
Lemma visit_order :
  (forall fuel st st',
      visit block uses fuel st = Ok st' ->
      slots_from 100 st ->
      List.filter is_own (wasmCode st') =
      map (fun ins => (own_op ins).1)
        (slice block (eindex st') (eindex st + 1)) ++
      List.filter is_own (wasmCode st)) /\
  (forall fuel rargs st st',
      visit_args uses (visit block uses fuel) rargs st = Ok st' ->
      slots_from 100 st ->
      List.filter is_own (wasmCode st') =
      map (fun ins => (own_op ins).1)
        (slice block (eindex st') (eindex st)) ++
      List.filter is_own (wasmCode st)).
Proof.
  apply (visit_ind block uses
           (fun st st' =>
              slots_from 100 st ->
              List.filter is_own (wasmCode st') =
              map (fun ins => (own_op ins).1)
                (slice block (eindex st') (eindex st + 1)) ++
              List.filter is_own (wasmCode st))
           (fun rargs st st' =>
              slots_from 100 st ->
              List.filter is_own (wasmCode st') =
              map (fun ins => (own_op ins).1)
                (slice block (eindex st') (eindex st)) ++
              List.filter is_own (wasmCode st))).
  - intros st _. by rewrite slice_nil.
  - intros fuel arg rest st st' Hneg _ IH Hs. by rewrite IH.
  - intros fuel arg rest st st1 st' Hpos Hu Hadj Hv Ha IH1 IH Hs.
    pose proof (visit_post_holds _ _ _ _ _ Hv) as (Hr1 & _ & _ & _ & _ & Hs1).
    apply visit_args_post_holds in Ha as (Hle & Hpos' & _).
    rewrite IH by (by apply Hs1). rewrite IH1 by done.
    cbn [emit_dec eindex wasmCode] in *.
    replace (eindex st - 1 + 1) with (eindex st) in * by lia.
    rewrite (slice_split block (eindex st') (eindex st1) (eindex st)) by lia.
    by rewrite map_app, <- app_assoc.
  - intros fuel arg rest st st' Hpos Hno _ IH Hs.
    rewrite IH by (by apply makeLocal_slots).
    cbn [unshift eindex wasmCode]. rewrite makeLocal_index, makeLocal_code.
    pose proof (makeLocal_slot_ge arg st Hs) as Hge.
    cbn [List.filter is_own].
    destruct (Z.ltb_spec (makeLocal arg st).1 100); [lia | done].
  - intros fuel st ins st' Hins Ha IH Hs.
    apply visit_args_post_holds in Ha as (Hle & Hpos' & _).
    pose proof (block_at_range _ _ _ Hins) as Hr.
    rewrite IH by done.
    cbn [unshift emit_enter eindex wasmCode] in *.
    rewrite (slice_snoc block _ _ ins) by (done || lia).
    rewrite map_app, <- app_assoc. simpl.
    by rewrite (block_at_own _ _ Hins).
Qed.

Lemma store_local_order st :
  slots_from 100 st ->
  List.filter is_own (wasmCode (store_local st)) =
  List.filter is_own (wasmCode st).
Proof.
  intros (_ & Hran & _).
  destruct (store_local_code st)
    as [[_ ->] | (l & Hl & [(tl & -> & ->) | (_ & ->)])]; [done| |];
    apply Hran in Hl as [Hl _]; simpl;
    destruct (Z.ltb_spec l 100); (lia || done).
Qed.

(** The own operations in the sequence between the iterations of the
    loop. *)
Lemma reach_order st :
  rtc (loop_step block uses) (emit_init block) st ->
  List.filter is_own (wasmCode st) =
  map (fun ins => (own_op ins).1)
    (slice block (eindex st) (Z.of_nat (length block))).
Proof.
  revert st. apply rtc_ind_r.
  - simpl. by rewrite slice_nil.
  - intros st st1 Hreach Hstep IH.
    destruct (reach_slot_refs block uses st 0 Hreach) as [Hr _].
    pose proof Hstep as [Hpos [fuel Hv]].
    pose proof (visit_post_holds _ _ _ _ _ Hv) as (Hr1 & _).
    pose proof (reach_slots block uses st Hreach) as Hs.
    rewrite (proj1 visit_order _ _ _ Hv) by (by apply store_local_slots).
    rewrite store_local_order by done.
    rewrite store_local_index in *. cbn [emit_dec eindex wasmCode] in *.
    replace (eindex st - 1 + 1) with (eindex st) in * by lia.
    rewrite IH.
    rewrite (slice_split block (eindex st1) (eindex st)
               (Z.of_nat (length block))) by lia.
    by rewrite map_app.
Qed.

End EmitOrder.

(** X14. The emitter keeps the order of the block.  When the locals the
    block names are below 100, the operations of the sequence that stand for an
    instruction ([i32.add], and [get_local] and [set_local] of a local below
    100), read from first to last, are the own operations of the
    instructions of the block from first to last: every instruction is
    emitted once, none is moved past another; the rest of the sequence is
    the pushes, loads and stores of the emitter.
    (The block is one on which the use counter returns.) *)
Theorem code_keeps_block_order (block : list Ins) (uses : list cell) :
  count_uses block = Ok uses ->
  locals_below_slots block = true ->
  exists r, stackify block = Ok r /\
    List.filter is_own (s_code r) = map (fun ins => (own_op ins).1) block.
Proof.
  intros Huses Hlow. with_table Huses as r Hr. exists r.
  split; [done|].
  pose proof Hr as (rst & est & _ & Hemit & _ & -> & _)%stackify_Ok.
  pose proof (emit_loop_reach _ _ _ _ _ Hemit) as Hreach.
  apply emit_loop_post in Hemit as (Hz & _); [|simpl; lia].
  rewrite (reach_order block (use_table block) Hlow est Hreach).
  by rewrite Hz, slice_all.
Qed.

Lemma code_keeps_block_order_witness :
  exists r, stackify demo2 = Ok r /\
    s_code r = [GetLocal 0; TeeLocal 100; I32Const 1; I32Add; GetLocal 100;
                I32Const 2; I32Add; I32Add; SetLocal 0] /\
    List.filter is_own (s_code r) =
      [GetLocal 0; I32Add; I32Add; I32Add; SetLocal 0].
Proof.
  destruct (code_keeps_block_order demo2 (use_table demo2) eq_refl) as (r & Hr & H); [reflexivity|].
  exists r. split; [done|]. split; [|exact H].
  unfold stackify in Hr. vm_compute in Hr. injection Hr as <-. reflexivity.
Defined.

(** ** Properties of the printed text *)

(** *** Strings *)

Lemma str_app_cons a s t : String a s +:+ t = String a (s +:+ t).
Proof. reflexivity. Qed.

Lemma str_app_nil_l t : "" +:+ t = t.
Proof. reflexivity. Qed.

Lemma str_app_nil_r s : s +:+ "" = s.
Proof. induction s as [|a s IH]; [done|]. by rewrite str_app_cons, IH. Qed.

Lemma str_app_assoc s t u : (s +:+ t) +:+ u = s +:+ t +:+ u.
Proof. induction s as [|a s IH]; [done|]. by rewrite !str_app_cons, IH. Qed.

(** *** Decimal numbers *)

Lemma pretty_N_char_digit x : is_Some (Ascii.is_nat (pretty_N_char x)).
Proof.
  unfold pretty_N_char. repeat case_match; by eexists.
Qed.

Lemma pretty_N_go_digits x : forall s,
  exists d, pretty_N_go x s = d +:+ s /\ all_digits d = true /\
            ((0 < x)%N -> d <> "").
Proof.
  induction (N.lt_wf_0 x) as [x _ IH]. intros s.
  assert (x = 0 \/ 0 < x)%N as [->|Hpos] by lia.
  - exists "". rewrite pretty_N_go_0. split_and!; [done | done | lia].
  - rewrite pretty_N_go_step by done.
    destruct (IH (x `div` 10)%N ltac:(by apply N.div_lt)
                (String (pretty_N_char (x `mod` 10)) s)) as (d & -> & Hd & _).
    exists (d +:+ String (pretty_N_char (x `mod` 10)) "").
    rewrite str_app_assoc. split_and!; [done | | ].
    + clear -Hd. induction d as [|a d IHd]; simpl in *.
      * rewrite andb_true_r. apply bool_decide_eq_true, pretty_N_char_digit.
      * apply andb_true_iff in Hd as [-> Hd]. by apply IHd.
    + intros _. by destruct d.
Qed.

Lemma pretty_N_digits (n : N) : all_digits (pretty n) = true /\ pretty n <> "".
Proof.
  unfold pretty, pretty_N. case_decide as Hn; [done|].
  destruct (pretty_N_go_digits n "") as (d & -> & Hd & Hne).
  rewrite str_app_nil_r. split; [done|]. apply Hne. lia.
Qed.

(** A number followed by the end of the string or by a character that is
    not a digit can be read back. *)
Lemma digits_delim d1 : forall d2 r1 r2,
  all_digits d1 = true -> all_digits d2 = true ->
  ends_number r1 -> ends_number r2 ->
  d1 +:+ r1 = d2 +:+ r2 -> d1 = d2 /\ r1 = r2.
Proof.
  induction d1 as [|a d1 IH]; intros [|b d2] r1 r2 H1 H2 E1 E2 Heq.
  - done.
  - rewrite str_app_nil_l, str_app_cons in Heq. subst r1. simpl in *.
    apply andb_true_iff in H2 as [Hb%bool_decide_eq_true _].
    rewrite E1 in Hb. by destruct Hb.
  - rewrite str_app_nil_l, str_app_cons in Heq. subst r2. simpl in *.
    apply andb_true_iff in H1 as [Ha%bool_decide_eq_true _].
    rewrite E2 in Ha. by destruct Ha.
  - rewrite !str_app_cons in Heq. injection Heq as -> Heq. simpl in *.
    apply andb_true_iff in H1 as [_ H1]. apply andb_true_iff in H2 as [_ H2].
    destruct (IH d2 r1 r2 H1 H2 E1 E2 Heq) as [-> ->]. done.
Qed.

Lemma pretty_N_delim (x y : N) r1 r2 :
  ends_number r1 -> ends_number r2 ->
  pretty x +:+ r1 = pretty y +:+ r2 -> x = y /\ r1 = r2.
Proof.
  intros E1 E2 Heq.
  destruct (digits_delim (pretty x) (pretty y) r1 r2) as [Hp ->];
    [apply pretty_N_digits.. | done | done | done |].
  split; [|done]. by apply (inj pretty).
Qed.

(** The decimal form of an integer starts with a digit or with the sign. *)
Lemma pretty_Z_head (z : Z) :
  exists a s, pretty z = String a s /\
    (is_Some (Ascii.is_nat a) \/ a = "-"%char).
Proof.
  destruct z as [|p|p].
  - exists "0"%char, "". split; [done|]. left. by eexists.
  - change (pretty (Z.pos p)) with (pretty (N.pos p)).
    destruct (pretty_N_digits (N.pos p)) as [Hd Hne].
    destruct (pretty (N.pos p)) as [|a s]; [done|]. exists a, s.
    split; [done|]. left. simpl in Hd.
    by apply andb_true_iff in Hd as [?%bool_decide_eq_true _].
  - exists "-"%char, (pretty (N.pos p)). split; [done | by right].
Qed.

Lemma pretty_Z_delim (x y : Z) r1 r2 :
  ends_number r1 -> ends_number r2 ->
  pretty x +:+ r1 = pretty y +:+ r2 -> x = y /\ r1 = r2.
Proof.
  intros E1 E2.
  assert (forall p, pretty (Z.neg p) = String "-" (pretty (N.pos p))) as Hneg
    by done.
  assert (forall z, 0 <= z -> pretty z = pretty (Z.to_N z)) as Hpos.
  { intros [|p|p] Hz; [done | done | lia]. }
  assert (forall (n : N) r p r',
            pretty n +:+ r = String "-" (pretty (N.pos p)) +:+ r' -> False)
    as Hmix.
  { intros n r p r' Heq. destruct (pretty_N_digits n) as [Hd Hne].
    destruct (pretty n) as [|a s]; [done|]. rewrite !str_app_cons in Heq.
    injection Heq as -> _. simpl in Hd. done. }
  destruct (Z.lt_ge_cases x 0) as [Hx|Hx], (Z.lt_ge_cases y 0) as [Hy|Hy].
  - destruct x as [|p|p], y as [|q|q]; try lia.
    rewrite !Hneg, !str_app_cons. intros [= Heq].
    apply pretty_N_delim in Heq as [[= ->] ->]; done.
  - destruct x as [|p|p]; try lia. rewrite Hneg, (Hpos y Hy).
    intros Heq. symmetry in Heq. by apply Hmix in Heq.
  - destruct y as [|q|q]; try lia. rewrite Hneg, (Hpos x Hx).
    intros Heq. by apply Hmix in Heq.
  - rewrite (Hpos x Hx), (Hpos y Hy). intros Heq.
    apply pretty_N_delim in Heq as [Heq ->]; [|done..]. split; [lia|done].
Qed.

(** *** The printed tree *)

Lemma treeToString_node k cs indent :
  treeToString (Node k cs) indent =
  if (length cs <? 2)%nat then
    kind_name k +:+ "(" +:+
    join "" (map (fun c => childToString c indent) cs) +:+ ")"
  else
    kind_name k +:+ "(" +:+
    join "," (map (fun c => newline +:+ (indent +:+ "  ") +:+
                            childToString c (indent +:+ "  ")) cs) +:+ ")".
Proof.
  cbn [treeToString]. destruct (length cs <? 2)%nat; [reflexivity|].
  do 4 f_equal.
  induction cs as [|c cs IH]; [done|]. cbn [map]. by rewrite <- IH.
Qed.

(** Induction on a tree, with the property of the trees among its
    children. *)
Lemma Tree_nested_ind (P : Tree -> Prop) :
  (forall k cs,
      Forall (fun c => match c with CTree t => P t | _ => True end) cs ->
      P (Node k cs)) ->
  forall t, P t.
Proof.
  intros H. fix IH 1. intros [k cs]. apply H.
  induction cs as [|c cs IHcs]; constructor; [|done].
  destruct c as [v|arg|t]; [exact I | exact I | apply IH].
Qed.

Lemma delimited_ends r : delimited r -> ends_number r.
Proof. destruct r as [|a r]; [done|]. by intros [-> | ->]. Qed.

Lemma kind_name_paren k1 k2 x y :
  kind_name k1 +:+ "(" +:+ x = kind_name k2 +:+ "(" +:+ y -> k1 = k2 /\ x = y.
Proof.
  destruct k1, k2; simpl; rewrite ?str_app_cons, ?str_app_nil_l; intros H;
    by simplify_eq.
Qed.

Lemma treeToString_head t indent :
  exists a s, treeToString t indent = String a s /\
              (a = "A"%char \/ a = "L"%char).
Proof.
  destruct t as [k cs]. rewrite treeToString_node.
  destruct (length cs <? 2)%nat, k; simpl; rewrite ?str_app_cons;
    eexists _, _; (split; [reflexivity|]); auto.
Qed.

(** A child is printed as a string that is not empty and starts neither
    with a parenthesis, a comma nor a line break. *)
Lemma childToString_head c indent :
  exists a s, childToString c indent = String a s /\
    (is_Some (Ascii.is_nat a) \/ a = "-"%char \/ a = "t"%char \/
     a = "A"%char \/ a = "L"%char).
Proof.
  destruct c as [v|arg|t]; simpl.
  - destruct (pretty_Z_head v) as (a & s & -> & [?|?]); eexists _, _; eauto.
  - unfold tree_name. rewrite str_app_cons. eexists _, _. eauto 6.
  - destruct (treeToString_head t indent) as (a & s & -> & [?|?]);
      eexists _, _; eauto 6.
Qed.

Lemma childToString_not_delim c indent r a s :
  childToString c indent +:+ r = String a s ->
  a <> ")"%char /\ a <> ","%char /\ a <> "010"%char.
Proof.
  destruct (childToString_head c indent) as (b & s' & -> & Hb).
  rewrite str_app_cons. intros [= <- _].
  destruct Hb as [[n Hn]|[->|[->|[->| ->]]]]; try done.
  split_and!; intros ->; done.
Qed.

Lemma join_cons sep s l :
  join sep (s :: l) =
  s +:+ match l with [] => "" | _ :: _ => sep +:+ join sep l end.
Proof. destruct l; simpl; [by rewrite str_app_nil_r | done]. Qed.

(** Two children printed at the same indentation and followed by a
    delimiter are the same child, given the same of the trees among
    them. *)
Lemma child_delim c1 c2 indent r1 r2 :
  (forall t1, c1 = CTree t1 ->
     forall t2 r1 r2,
       treeToString t1 indent +:+ r1 = treeToString t2 indent +:+ r2 ->
       t1 = t2 /\ r1 = r2) ->
  delimited r1 -> delimited r2 ->
  childToString c1 indent +:+ r1 = childToString c2 indent +:+ r2 ->
  c1 = c2 /\ r1 = r2.
Proof.
  intros IH D1 D2 Heq.
  assert (forall (v : Z) arg, pretty v +:+ r1 <> tree_name arg +:+ r2 /\
                        tree_name arg +:+ r1 <> pretty v +:+ r2) as Hnum_str.
  { intros v arg. destruct (pretty_Z_head v) as (a & s & -> & Ha).
    unfold tree_name. rewrite !str_app_cons.
    split; intros [= ? _]; subst; destruct Ha as [[n Hn]| Ha]; done. }
  assert (forall (v : Z) t r r', pretty v +:+ r <> treeToString t indent +:+ r')
    as Hnum_tree.
  { intros v t r r'. destruct (pretty_Z_head v) as (a & s & -> & Ha).
    destruct (treeToString_head t indent) as (b & s' & -> & Hb).
    rewrite !str_app_cons. intros [= ? _]. subst.
    destruct Ha as [[n Hn]| Ha], Hb as [Hb|Hb]; subst; done. }
  assert (forall arg t r r', tree_name arg +:+ r <> treeToString t indent +:+ r')
    as Hstr_tree.
  { intros arg t r r'.
    destruct (treeToString_head t indent) as (b & s' & -> & Hb).
    unfold tree_name. rewrite !str_app_cons. intros [= ? _]. subst.
    destruct Hb; done. }
  destruct c1 as [v1|a1|t1], c2 as [v2|a2|t2]; simpl in Heq.
  - apply pretty_Z_delim in Heq as [-> ->]; auto using delimited_ends.
  - by destruct (proj1 (Hnum_str v1 a2)).
  - by destruct (Hnum_tree v1 t2 r1 r2).
  - by destruct (proj2 (Hnum_str v2 a1)).
  - unfold tree_name in Heq. rewrite !str_app_assoc in Heq.
    apply (inj (String.app "tree")) in Heq.
    apply pretty_Z_delim in Heq as [-> ->]; auto using delimited_ends.
  - by destruct (Hstr_tree a1 t2 r1 r2).
  - symmetry in Heq. by destruct (Hnum_tree v2 t1 r2 r1).
  - symmetry in Heq. by destruct (Hstr_tree a2 t1 r2 r1).
  - destruct (IH t1 eq_refl t2 r1 r2 Heq) as [-> ->]. done.
Qed.

Lemma lines_cons indent c cs r :
  join "," (map (line indent) (c :: cs)) +:+ r =
  newline +:+ indent +:+ childToString c indent +:+
  match cs with
  | [] => r
  | _ :: _ => "," +:+ join "," (map (line indent) cs) +:+ r
  end.
Proof.
  cbn [map]. rewrite join_cons. unfold line at 1.
  rewrite !str_app_assoc. do 3 f_equal. by destruct cs.
Qed.

(** The lines of the children of two nodes, each followed by the [")"] of
    its node. *)
Lemma lines_delim indent cs1 : forall cs2 r1 r2,
  Forall (fun c => forall t1, c = CTree t1 ->
            forall t2 r1 r2,
              treeToString t1 indent +:+ r1 = treeToString t2 indent +:+ r2 ->
              t1 = t2 /\ r1 = r2) cs1 ->
  cs1 <> [] -> cs2 <> [] ->
  join "," (map (line indent) cs1) +:+ ")" +:+ r1 =
  join "," (map (line indent) cs2) +:+ ")" +:+ r2 ->
  cs1 = cs2 /\ r1 = r2.
Proof.
  induction cs1 as [|c1 cs1 IH]; intros [|c2 cs2] r1 r2 Hall H1 H2 Heq;
    try done.
  apply Forall_cons in Hall as [Hc Hall].
  rewrite !lines_cons in Heq.
  apply (inj (String.app newline)), (inj (String.app indent)) in Heq.
  apply child_delim in Heq as [-> Heq]; [|done|..].
  - destruct cs1 as [|c1' cs1], cs2 as [|c2' cs2].
    + by apply (inj (String.app ")")) in Heq as ->.
    + rewrite !str_app_cons in Heq. done.
    + rewrite !str_app_cons in Heq. done.
    + apply (inj (String.app ",")) in Heq.
      apply IH in Heq as [-> ->]; done.
  - destruct cs1; rewrite str_app_cons; simpl; auto.
  - destruct cs2; rewrite str_app_cons; simpl; auto.
Qed.

(** A printed tree followed by anything can be read back: the tree and what
    follows it. *)
Lemma treeToString_delim t1 : forall indent t2 r1 r2,
  treeToString t1 indent +:+ r1 = treeToString t2 indent +:+ r2 ->
  t1 = t2 /\ r1 = r2.
Proof.
  induction t1 as [k1 cs1 IH] using Tree_nested_ind.
  intros indent [k2 cs2] r1 r2 Heq. rewrite !treeToString_node in Heq.
  assert (forall k cs r,
            (if (length cs <? 2)%nat then
               kind_name k +:+ "(" +:+
               join "" (map (fun c => childToString c indent) cs) +:+ ")"
             else
               kind_name k +:+ "(" +:+
               join "," (map (line (indent +:+ "  ")) cs) +:+ ")") +:+ r =
            kind_name k +:+ "(" +:+
            match cs with
            | [] => ")" +:+ r
            | [c] => childToString c indent +:+ ")" +:+ r
            | _ => join "," (map (line (indent +:+ "  ")) cs) +:+ ")" +:+ r
            end) as Hform.
  { intros k cs r. destruct cs as [|c [|c' cs]]; simpl length;
      cbn [Nat.ltb Nat.leb]; rewrite !str_app_assoc; try done. }
  unfold line in Hform at 1. rewrite !Hform in Heq.
  apply kind_name_paren in Heq as [-> Heq]. 
  destruct cs1 as [|c1 [|c1' cs1]], cs2 as [|c2 [|c2' cs2]].
  - by apply (inj (String.app ")")) in Heq as ->.
  - symmetry in Heq. rewrite str_app_cons in Heq.
    apply childToString_not_delim in Heq. by destruct Heq as (? & _).
  - rewrite lines_cons in Heq. unfold newline in Heq.
    rewrite !str_app_cons in Heq. done.
  - rewrite str_app_cons in Heq.
    apply childToString_not_delim in Heq. by destruct Heq as (? & _).
  - apply child_delim in Heq as [-> Heq]; [| |rewrite str_app_cons; simpl; auto..].
    + by apply (inj (String.app ")")) in Heq as ->.
    + apply Forall_cons in IH as [IH _]. intros t1 ->. by apply IH.
  - rewrite lines_cons in Heq. unfold newline in Heq.
    rewrite str_app_cons in Heq.
    apply childToString_not_delim in Heq. by destruct Heq as (_ & _ & ?).
  - rewrite lines_cons in Heq. unfold newline in Heq.
    rewrite !str_app_cons in Heq. done.
  - rewrite lines_cons in Heq. unfold newline in Heq.
    rewrite str_app_cons in Heq. symmetry in Heq.
    apply childToString_not_delim in Heq. by destruct Heq as (_ & _ & ?).
  - apply lines_delim in Heq as [-> ->]; [done | | done | done].
    eapply Forall_impl; [exact IH|]. intros c Hc t1 ->. by apply Hc.
Qed.

(** X15. Two trees printed alike at the same indentation are the same
    tree: the text [treeToString] prints determines the tree, its kinds,
    numbers, back-references and nesting. *)
Theorem treeToString_inj (t1 t2 : Tree) (indent : string) :
  treeToString t1 indent = treeToString t2 indent -> t1 = t2.
Proof.
  intros Heq. apply (treeToString_delim t1 indent t2 "" "").
  by rewrite !str_app_nil_r.
Qed.

Lemma treeToString_inj_witness :
  Node Add [CStr 0; CTree (Node LocalGet [CNum 0])] =
  Node Add [CStr 0; CTree (Node LocalGet [CNum 0])].
Proof.
  apply (treeToString_inj
           (Node Add [CStr 0; CTree (Node LocalGet [CNum 0])])
           (Node Add [CStr 0; CTree (Node LocalGet [CNum 0])]) "  ").
  reflexivity.
Defined.

(** *** The indentation of the printed tree *)

Lemma no_break_app s t : no_break (s +:+ t) = no_break s && no_break t.
Proof.
  induction s as [|a s IH]; [done|]. rewrite str_app_cons. simpl.
  by rewrite IH, andb_assoc.
Qed.

Lemma breaks_followed_app ind s t :
  no_break s = true -> breaks_followed ind t -> breaks_followed ind (s +:+ t).
Proof.
  induction s as [|a s IH]; [done|]. rewrite str_app_cons. simpl.
  intros [Ha Hs]%andb_true_iff Ht. split; [|by apply IH].
  intros ->. done.
Qed.

Lemma all_digits_no_break s : all_digits s = true -> no_break s = true.
Proof.
  induction s as [|a s IH]; [done|]. simpl.
  intros [Ha%bool_decide_eq_true Hs]%andb_true_iff. rewrite (IH Hs), andb_true_r.
  destruct (Ascii.eqb_spec a "010") as [->|]; [by destruct Ha | done].
Qed.

Lemma pretty_Z_no_break (z : Z) : no_break (pretty z) = true.
Proof.
  destruct z as [|p|p]; [done | |].
  - apply all_digits_no_break, (pretty_N_digits (N.pos p)).
  - change (pretty (Z.neg p)) with ("-" +:+ pretty (N.pos p)).
    rewrite no_break_app. simpl.
    apply all_digits_no_break, (pretty_N_digits (N.pos p)).
Qed.

Lemma kind_name_no_break k : no_break (kind_name k) = true.
Proof. by destruct k. Qed.

(** The line breaks of a printed tree are followed by the indentation it
    was given. *)
Lemma treeToString_breaks t : forall indent ind r,
  no_break indent = true ->
  (exists x, indent +:+ "  " = ind +:+ x) ->
  breaks_followed ind r ->
  breaks_followed ind (treeToString t indent +:+ r).
Proof.
  induction t as [k cs IH] using Tree_nested_ind.
  intros indent ind r Hnb Hpre Hr.
  assert (forall c i r',
            match c with
            | CTree t =>
                forall indent ind r,
                  no_break indent = true ->
                  (exists x, indent +:+ "  " = ind +:+ x) ->
                  breaks_followed ind r ->
                  breaks_followed ind (treeToString t indent +:+ r)
            | _ => True
            end ->
            no_break i = true -> (exists x, i +:+ "  " = ind +:+ x) ->
            breaks_followed ind r' ->
            breaks_followed ind (childToString c i +:+ r')) as Hchild.
  { intros [v|arg|t] i r' Hc Hi Hx Hr'; cbn [childToString].
    - apply breaks_followed_app; [apply pretty_Z_no_break | done].
    - apply breaks_followed_app; [|done]. unfold tree_name.
      rewrite no_break_app. apply pretty_Z_no_break.
    - by apply Hc. }
  rewrite treeToString_node.
  destruct cs as [|c [|c' cs]]; simpl length; cbn [Nat.ltb Nat.leb];
    rewrite !str_app_assoc.
  - apply breaks_followed_app; [apply kind_name_no_break|].
    apply (breaks_followed_app _ "("); [done|].
    by apply (breaks_followed_app _ ")").
  - apply breaks_followed_app; [apply kind_name_no_break|].
    apply (breaks_followed_app _ "("); [done|]. cbn [map join].
    apply Forall_cons in IH as [Hc _].
    apply Hchild; [done..|]. by apply (breaks_followed_app _ ")").
  - apply breaks_followed_app; [apply kind_name_no_break|].
    apply (breaks_followed_app _ "("); [done|].
    destruct Hpre as [x Hx].
    assert (no_break (indent +:+ "  ") = true) as Hnb'
      by (by rewrite no_break_app, Hnb).
    assert (exists y, (indent +:+ "  ") +:+ "  " = ind +:+ y) as Hpre'.
    { exists (x +:+ "  "). by rewrite Hx, str_app_assoc. }
    fold (line (indent +:+ "  ")).
    revert IH. generalize (c :: c' :: cs). clear c c' cs.
    intros cs IH. induction cs as [|c cs IHcs].
    { cbn [map join]. by apply (breaks_followed_app _ ")"). }
    apply Forall_cons in IH as [Hc IH]. rewrite lines_cons.
    unfold newline. rewrite str_app_cons, str_app_nil_l.
    assert (breaks_followed ind
              (childToString c (indent +:+ "  ") +:+
               match cs with
               | [] => ")" +:+ r
               | _ :: _ =>
                   "," +:+ join "," (map (line (indent +:+ "  ")) cs) +:+
                   ")" +:+ r
               end)) as Hrest.
    { apply Hchild; [done..|]. destruct cs as [|c2 cs].
      - by apply (breaks_followed_app _ ")").
      - apply (breaks_followed_app _ ","); [done|]. by apply IHcs. }
    split.
    + intros _. rewrite Hx, str_app_assoc. by eexists.
    + by apply breaks_followed_app.
Qed.

(** X16. The printed tree stays inside its indentation: when [indent] holds
    no line break, every line break of [treeToString tree indent] is followed
    by [indent] and two spaces more. *)
Theorem treeToString_indented (t : Tree) (indent : string) :
  no_break indent = true ->
  breaks_followed (indent +:+ "  ") (treeToString t indent).
Proof.
  intros Hnb. rewrite <- (str_app_nil_r (treeToString t indent)).
  apply treeToString_breaks; [done | | done].
  exists "". by rewrite str_app_nil_r.
Qed.

Lemma treeToString_indented_witness :
  breaks_followed ("    " +:+ "  ")
    (treeToString (Node Add [CStr 0; CTree (Node Add [CNum 1; CNum 2])])
       "    ").
Proof.
  apply (treeToString_indented
           (Node Add [CStr 0; CTree (Node Add [CNum 1; CNum 2])]) "    ").
  reflexivity.
Defined.

(** *** The printed block *)

(** The complement is one to one on the negative numbers of 32 bits. *)
Lemma bitnot_neg a : - 2 ^ 31 <= a < 0 -> bitnot a = - a - 1.
Proof.
  intros Ha. unfold bitnot, toInt32, Z.lnot.
  rewrite Z.mod_small by lia. lia.
Qed.

(** What an operand is printed as, when the embedding has its text. *)
Lemma show_arg_Some a x :
  show_arg a = Some x ->
  x = if 0 <=? a then "var" +:+ pretty a else pretty (bitnot a).
Proof.
  unfold show_arg, show_index. destruct (0 <=? a); [|by intros [= <-]].
  destruct (a <? 2 ^ 53); [|done]. by intros [= <-].
Qed.

Lemma show_arg_head a x :
  show_arg a = Some x ->
  exists c s, x = String c s /\
    (is_Some (Ascii.is_nat c) \/ c = "-"%char \/ c = "v"%char).
Proof.
  intros ->%show_arg_Some. destruct (0 <=? a).
  - rewrite str_app_cons. eexists _, _. eauto.
  - destruct (pretty_Z_head (bitnot a)) as (c & s & -> & [?|?]);
      eexists _, _; eauto.
Qed.

(** An operand printed and followed by the end of the string or by the
    separator can be read back. *)
Lemma show_arg_delim a1 a2 x1 x2 r1 r2 :
  - 2 ^ 31 <= a1 -> - 2 ^ 31 <= a2 ->
  show_arg a1 = Some x1 -> show_arg a2 = Some x2 ->
  ends_number r1 -> ends_number r2 ->
  x1 +:+ r1 = x2 +:+ r2 -> a1 = a2 /\ r1 = r2.
Proof.
  intros H1 H2 ->%show_arg_Some ->%show_arg_Some E1 E2.
  assert (forall (v w : Z) r r', "var" +:+ pretty v +:+ r <> pretty w +:+ r')
    as Hmix.
  { intros v w r r'. destruct (pretty_Z_head w) as (c & s & -> & Hc).
    rewrite !str_app_cons. intros [= ? _]. subst.
    destruct Hc as [[n Hn]|Hc]; done. }
  destruct (Z.leb_spec 0 a1), (Z.leb_spec 0 a2); rewrite ?str_app_assoc.
  - intros Heq. apply (inj (String.app "var")) in Heq.
    by apply pretty_Z_delim in Heq.
  - intros Heq. by destruct (Hmix a1 (bitnot a2) r1 r2).
  - intros Heq. symmetry in Heq. by destruct (Hmix a2 (bitnot a1) r2 r1).
  - intros Heq. apply pretty_Z_delim in Heq as [Hb ->]; [|done..].
    rewrite !bitnot_neg in Hb by lia. split; [lia | done].
Qed.

(** What follows the first string of a joined list. *)
Lemma join_rest_ends l :
  ends_number match l with [] => "" | _ :: _ => ", " +:+ join ", " l end.
Proof. by destruct l. Qed.

Lemma show_args_inj l1 s1 :
  Forall2 (fun a x => show_arg a = Some x) l1 s1 ->
  forall l2 s2,
    Forall2 (fun a x => show_arg a = Some x) l2 s2 ->
    Forall (fun a => - 2 ^ 31 <= a) l1 -> Forall (fun a => - 2 ^ 31 <= a) l2 ->
    join ", " s1 = join ", " s2 -> l1 = l2.
Proof.
  induction 1 as [|a1 x1 l1 s1 Hx1 HF1 IH]; intros l2 s2 HF2 H1 H2 Heq;
    destruct HF2 as [|a2 x2 l2 s2 Hx2 HF2].
  - done.
  - rewrite join_cons in Heq.
    destruct (show_arg_head _ _ Hx2) as (c & s & -> & _). done.
  - rewrite join_cons in Heq.
    destruct (show_arg_head _ _ Hx1) as (c & s & -> & _). done.
  - apply Forall_cons in H1 as [Ha1 H1]. apply Forall_cons in H2 as [Ha2 H2].
    rewrite !join_cons in Heq.
    apply (show_arg_delim a1 a2) in Heq as [-> Heq];
      [|done|done|done|done|apply join_rest_ends..].
    f_equal. destruct HF1 as [|b1 y1 l1 s1 Hy1 HF1],
                      HF2 as [|b2 y2 l2 s2 Hy2 HF2]; [done | done | done |].
    apply (inj (String.app ", ")) in Heq.
    apply (IH (b2 :: l2) (y2 :: s2)); [by constructor | done..].
Qed.

Lemma kind_name_inj k1 k2 : kind_name k1 = kind_name k2 -> k1 = k2.
Proof. by destruct k1, k2. Qed.

(** The arguments of a call of line 161: three, from which the instruction
    can be read back. *)
Lemma show_ins_Some i ins l :
  show_ins i ins = Some l ->
  exists strs,
    Forall2 (fun a x => show_arg a = Some x) (args ins) strs /\
    l = [ "var" +:+ pretty i +:+ " ="; kind_name (kind ins); join ", " strs ].
Proof.
  unfold show_ins. destruct (mapM show_arg (args ins)) as [strs|] eqn:Hm;
    simpl; [|done].
  intros [= <-]. exists strs. split; [|done]. by apply mapM_Some.
Qed.

Lemma show_ins_inj i1 i2 ins1 ins2 l :
  Forall (fun a => - 2 ^ 31 <= a) (args ins1) ->
  Forall (fun a => - 2 ^ 31 <= a) (args ins2) ->
  show_ins i1 ins1 = Some l -> show_ins i2 ins2 = Some l -> ins1 = ins2.
Proof.
  intros H1 H2 (s1 & HF1 & ->)%show_ins_Some (s2 & HF2 & [= _ Hk Ha])%show_ins_Some.
  apply kind_name_inj in Hk.
  apply (show_args_inj _ _ HF1 _ _ HF2) in Ha; [|done..].
  destruct ins1, ins2; simpl in *. by subst.
Qed.

Lemma show_block_cons i ins block ls :
  show_block i (ins :: block) = Some ls ->
  exists l ls', ls = l :: ls' /\ show_ins i ins = Some l /\
                show_block (S i) block = Some ls'.
Proof.
  cbn [show_block]. destruct (show_ins i ins) as [l|]; simpl; [|done].
  destruct (show_block (S i) block) as [ls'|]; simpl; [|done].
  intros [= <-]. by exists l, ls'.
Qed.

Lemma show_block_lines block : forall i ls,
  show_block i block = Some ls -> Forall (fun l => length l = 3%nat) ls.
Proof.
  induction block as [|ins block IH]; intros i ls Hls.
  - injection Hls as <-. constructor.
  - apply show_block_cons in Hls as (l & ls' & -> & Hl & Hls).
    constructor; [|by eapply IH].
    by apply show_ins_Some in Hl as (strs & _ & ->).
Qed.

Lemma show_block_inj b1 : forall b2 n1 n2 ls,
  int32_consts b1 -> int32_consts b2 ->
  show_block n1 b1 = Some ls -> show_block n2 b2 = Some ls -> b1 = b2.
Proof.
  induction b1 as [|x b1 IH]; intros [|y b2] n1 n2 ls H1 H2 E1 E2.
  - done.
  - injection E1 as <-. by apply show_block_cons in E2 as (? & ? & ? & _).
  - injection E2 as <-. by apply show_block_cons in E1 as (? & ? & ? & _).
  - apply Forall_cons in H1 as [Hx H1]. apply Forall_cons in H2 as [Hy H2].
    apply show_block_cons in E1 as (l & ls' & -> & Hl1 & E1).
    apply show_block_cons in E2 as (l2 & ls2 & [= <- <-] & Hl2 & E2).
    f_equal.
    + by apply (show_ins_inj n1 n2 x y l).
    + by apply (IH b2 (S n1) (S n2) ls').
Qed.

(** Lists that agree up to a first element of another shape. *)
Lemma app_sep_inj {A} (Q : A -> Prop) (l1 l2 : list A) x r1 r2 :
  Forall Q l1 -> Forall Q l2 -> ~ Q x ->
  l1 ++ x :: r1 = l2 ++ x :: r2 -> l1 = l2.
Proof.
  revert l2. induction l1 as [|a l1 IH]; intros [|b l2] H1 H2 Hx Heq.
  - done.
  - injection Heq as -> _. by apply Forall_cons in H2 as [? _].
  - injection Heq as -> _. by apply Forall_cons in H1 as [? _].
  - apply Forall_cons in H1 as [_ H1]. apply Forall_cons in H2 as [_ H2].
    injection Heq as -> Heq. f_equal. by apply IH.
Qed.

(** What [stackify_log] returns when it has a text. *)
Lemma stackify_log_Some block out :
  stackify_log block = Ok (Some out) ->
  exists r ls rest,
    stackify block = Ok r /\ show_block 0 block = Some ls /\
    out = ls ++ [becomes] :: rest.
Proof.
  unfold stackify_log. destruct (stackify block) as [r| | |]; simpl; [|done..].
  destruct (show_block 0 block) as [ls|]; simpl; [|done].
  intros [= <-]. by eexists r, ls, _.
Qed.

(** The embedding has the text of every block whose indices are below
    [2^53], when the use counter returns. *)
Lemma show_block_total block : forall i,
  Forall (fun ins => Forall (fun a => a < 2 ^ 53) (args ins)) block ->
  is_Some (show_block i block).
Proof.
  induction block as [|ins block IH]; intros i Hall; [by eexists|].
  apply Forall_cons in Hall as [Hins Hall]. cbn [show_block].
  destruct (IH (S i) Hall) as [ls ->]. unfold show_ins.
  assert (is_Some (mapM show_arg (args ins))) as [strs ->]; [|by eexists].
  apply mapM_is_Some. eapply Forall_impl; [exact Hins|].
  intros a Ha. cbv beta in Ha. unfold show_arg, show_index, compose.
  destruct (0 <=? a); [|by eexists].
  destruct (Z.ltb_spec a (2 ^ 53)); [by eexists | lia].
Qed.

Lemma stackify_log_total block uses :
  count_uses block = Ok uses ->
  Forall (fun ins => Forall (fun a => a < 2 ^ 53) (args ins)) block ->
  exists out, stackify_log block = Ok (Some out).
Proof.
  intros Huses Hall. with_table Huses as r Hr.
  destruct (show_block_total block 0 Hall) as [ls Hls].
  unfold stackify_log. rewrite Hr. simpl. rewrite Hls. simpl. by eexists.
Qed.

(** X17. What [stackify] prints determines the block it was given, when
    the constants of the block are numbers of 32 bits: two such blocks on
    which [stackify] prints the same calls of [console.log] are the same
    block.  (A block on which the use counter raises prints nothing, and
    the embedding has the text of the blocks whose indices are below
    [2^53].) *)
Theorem stackify_log_inj (b1 b2 : list Ins) (out : list (list string)) :
  int32_consts b1 -> int32_consts b2 ->
  stackify_log b1 = Ok (Some out) -> stackify_log b2 = Ok (Some out) ->
  b1 = b2.
Proof.
  intros H1 H2 (r1 & ls1 & rest1 & _ & Hls1 & ->)%stackify_log_Some
    (r2 & ls2 & rest2 & _ & Hls2 & Heq)%stackify_log_Some.
  apply (app_sep_inj (fun l => length l = 3%nat)) in Heq.
  - subst ls2. by apply (show_block_inj b1 b2 0%nat 0%nat ls1).
  - by eapply show_block_lines.
  - by eapply show_block_lines.
  - done.
Qed.

Lemma stackify_log_inj_witness :
  exists out, stackify_log demo1 = Ok (Some out) /\ demo1 = demo1.
Proof.
  destruct (stackify_log_total demo1 (use_table demo1) eq_refl)
    as [out Hout]; [repeat constructor; done|].
  exists out. split; [exact Hout|].
  apply (stackify_log_inj demo1 demo1 out); [| | exact Hout | exact Hout].
  - repeat constructor; done.
  - repeat constructor; done.
Defined.
